(** * gpasswd: the encrypted vault core

    A shallow embedding of the Go packages [internal/crypto] (cipher.go,
    kdf.go, password.go) and [internal/storage] (db.go, entry.go), and the
    properties of them that the specification states.

    Conventions.
    - A Go [[]byte] is a [slice]: [None] is the nil slice, [Some bs] a slice
      holding the bytes [bs].  [len] of the nil slice is 0.
    - A Go [(T, error)] is a [result T]; the error values are the
      constructors of an inductive type, one per error message of the source.
    - [crypto/rand] is an entropy tape: a list of bytes that is consumed from
      the front; reading past its end is the failure of the random source.
    - The library primitives the code calls (AES-GCM seal and open, Argon2id,
      the JSON encoder) are parameters of the sections that use them,
      together with the part of their contract a proof relies on.
    - The database is the [entries] table it holds, with the constraints and
      the trigger of the schema; a failing storage medium is not modelled.
      The wall clock and the UUID generator are part of the world the store
      runs in. *)

From Stdlib Require Import String Ascii Bool Arith ZArith NArith Lia List.
From Stdlib Require Import Sorting.Sorted Sorting.Permutation.
From Stdlib Require Strings.Byte.
From Equations Require Import Equations.
Import ListNotations.

(** ** Common data *)

Definition bytes := list Byte.byte.

(** A Go byte slice: [None] is nil. *)
Definition slice := option bytes.

Definition len (s : slice) : nat :=
  match s with
  | None => 0
  | Some bs => length bs
  end.

Inductive result (E A : Type) : Type :=
| Ok (a : A)
| Err (e : E).

Arguments Ok {E A} a.
Arguments Err {E A} e.

Definition is_ok {E A} (r : result E A) : bool :=
  match r with Ok _ => true | Err _ => false end.

Definition bytes_eqb (a b : bytes) : bool :=
  if list_eq_dec Byte.byte_eq_dec a b then true else false.

(** ** The random source ([crypto/rand]) *)

Definition Rand := list Byte.byte.

(** [rand.Read(buf)] for a buffer of [n] bytes: fills the buffer or fails. *)
Definition rand_Read (n : nat) (r : Rand) : option bytes * Rand :=
  if length r <? n then (None, r) else (Some (firstn n r), skipn n r).

(** [rand.Int(rand.Reader, max)] for [0 < max <= 256], the only bounds the
    generator uses (a charset has at most 88 characters): candidates are
    single bytes, masked to the bit length of [max - 1], and rejected until
    one is below [max].  A read error ends the loop. *)
Fixpoint rand_Int_loop (max mask : N) (r : Rand) : option N * Rand :=
  match r with
  | [] => (None, [])
  | b :: r' =>
    let n := N.land (Byte.to_N b) mask in
    if (n <? max)%N then (Some n, r') else rand_Int_loop max mask r'
  end.

Definition rand_Int (max : N) (r : Rand) : option N * Rand :=
  if (max =? 0)%N then (None, r) else
  let bitLen := N.size (max - 1) in
  if (bitLen =? 0)%N then (Some 0%N, r) else
  let b := if (bitLen mod 8 =? 0)%N then 8%N else (bitLen mod 8)%N in
  rand_Int_loop max (2 ^ b - 1)%N r.

(** ** Authenticated cipher (cipher.go) *)

Inductive cipher_error :=
| ErrPlaintextNil                    (* plaintext cannot be nil *)
| ErrKeyNil                          (* key cannot be nil *)
| ErrKeySize (got : nat)             (* key must be 32 bytes for AES-256, got %d *)
| ErrCiphertextNil                   (* ciphertext cannot be nil *)
| ErrCiphertextTooShort (got : nat)  (* ciphertext too short: ... got %d *)
| ErrAESCipher (got : nat)           (* failed to create AES cipher *)
| ErrGCMMode                         (* failed to create GCM mode *)
| ErrNonce                           (* failed to generate nonce *)
| ErrNoNonce                         (* ciphertext too short to contain nonce *)
| ErrDecryptionFailed.               (* decryption failed (wrong key or tampered data) *)

Definition DefaultNonceSize : nat := 12.

Definition gcmTagSize : nat := 16.

Definition minCiphertextSize : nat := DefaultNonceSize + 16.

(** [aes.NewCipher]: the block cipher is determined by its key; the only
    failure is a key that is not 16, 24 or 32 bytes long. *)
Definition aes_NewCipher (key : bytes) : result cipher_error bytes :=
  match length key with
  | 16 | 24 | 32 => Ok key
  | n => Err (ErrAESCipher n)
  end.

Definition aes_BlockSize : nat := 16.

(** [cipher.NewGCM] fails only on a block size other than 16, which an AES
    block never has; the GCM instance is again determined by the key. *)
Definition cipher_NewGCM (block : bytes) : result cipher_error bytes :=
  if aes_BlockSize =? 16 then Ok block else Err ErrGCMMode.

Definition gcm_NonceSize : nat := 12.

(** [GenerateNonce] *)
Definition GenerateNonce (r : Rand) : result cipher_error bytes * Rand :=
  match rand_Read DefaultNonceSize r with
  | (None, r') => (Err ErrNonce, r')
  | (Some nonce, r') => (Ok nonce, r')
  end.

Section Cipher.

(** [gcm.Seal(dst, nonce, plaintext, additionalData)] appends
    [gcm_Seal key nonce plaintext additionalData] to [dst];
    [gcm.Open(nil, nonce, data, additionalData)] is [gcm_Open], [None]
    being its one error (message authentication failed). *)
Variable gcm_Seal : bytes -> bytes -> bytes -> bytes -> bytes.
Variable gcm_Open : bytes -> bytes -> bytes -> bytes -> option bytes.

(** [Encrypt] *)
Definition Encrypt (plaintext key : slice) (r : Rand)
  : result cipher_error bytes * Rand :=
  match plaintext with
  | None => (Err ErrPlaintextNil, r)
  | Some pt =>
    match key with
    | None => (Err ErrKeyNil, r)
    | Some k =>
      if negb (length k =? 32) then (Err (ErrKeySize (length k)), r) else
      match aes_NewCipher k with
      | Err e => (Err e, r)
      | Ok block =>
        match cipher_NewGCM block with
        | Err e => (Err e, r)
        | Ok gcm =>
          match GenerateNonce r with
          | (Err e, r') => (Err e, r')
          | (Ok nonce, r') => (Ok (nonce ++ gcm_Seal gcm nonce pt []), r')
          end
        end
      end
    end
  end.

(** [Decrypt].  The plaintext is returned as its bytes. *)
Definition Decrypt (ciphertext key : slice) : result cipher_error bytes :=
  match ciphertext with
  | None => Err ErrCiphertextNil
  | Some ct =>
    match key with
    | None => Err ErrKeyNil
    | Some k =>
      if negb (length k =? 32) then Err (ErrKeySize (length k)) else
      if length ct <? minCiphertextSize
      then Err (ErrCiphertextTooShort (length ct)) else
      match aes_NewCipher k with
      | Err e => Err e
      | Ok block =>
        match cipher_NewGCM block with
        | Err e => Err e
        | Ok gcm =>
          let nonceSize := gcm_NonceSize in
          if length ct <? nonceSize then Err ErrNoNonce else
          let nonce := firstn nonceSize ct in
          let encryptedData := skipn nonceSize ct in
          match gcm_Open gcm nonce encryptedData [] with
          | None => Err ErrDecryptionFailed
          | Some pt => Ok pt
          end
        end
      end
    end
  end.

(** The authentication tag of [ciphertext] does not verify under [key]. *)
Definition tag_rejected (ciphertext key : slice) : Prop :=
  exists ct k,
    ciphertext = Some ct /\ key = Some k /\
    gcm_Open k (firstn gcm_NonceSize ct) (skipn gcm_NonceSize ct) [] = None.

End Cipher.

(** ** Key derivation (kdf.go) *)

Inductive kdf_error :=
| ErrPasswordEmpty                   (* password cannot be empty *)
| ErrSaltNil                         (* salt cannot be nil *)
| ErrSaltTooShort (got : nat)        (* salt must be at least %d bytes, got %d *)
| ErrTimeZero                        (* time cost must be greater than 0 *)
| ErrMemoryZero                      (* memory cost must be greater than 0 *)
| ErrParallelismZero                 (* parallelism must be greater than 0 *)
| ErrKeyLenZero                      (* key length must be greater than 0 *)
| ErrKeyLenTooShort                  (* key length must be at least 16 bytes *)
| ErrMemoryTooLow                    (* memory cost should be at least 8 MB *)
| ErrInvalidParams (e : kdf_error).  (* invalid Argon2 parameters: %w *)

Definition DefaultSaltLength : nat := 32.

Definition MinSaltLength : nat := 8.

(** [Argon2Params]: [Time], [Memory] and [KeyLen] are [uint32],
    [Parallelism] is [uint8]; the code only compares them. *)
Record Argon2Params := {
  Time : N;
  Memory : N;
  Parallelism : N;
  KeyLen : N
}.

Definition DefaultArgon2Params : Argon2Params :=
  {| Time := 3; Memory := 64 * 1024; Parallelism := 4; KeyLen := 32 |}.

(** [Argon2Params.Validate]: [None] is the nil error. *)
Definition Validate (p : Argon2Params) : option kdf_error :=
  if (Time p =? 0)%N then Some ErrTimeZero else
  if (Memory p =? 0)%N then Some ErrMemoryZero else
  if (Parallelism p =? 0)%N then Some ErrParallelismZero else
  if (KeyLen p =? 0)%N then Some ErrKeyLenZero else
  if (KeyLen p <? 16)%N then Some ErrKeyLenTooShort else
  if (Memory p <? 8 * 1024)%N then Some ErrMemoryTooLow else
  None.

Section KDF.

(** [argon2.IDKey(password, salt, time, memory, threads, keyLen)] *)
Variable argon2_IDKey : bytes -> bytes -> N -> N -> N -> N -> bytes.

(** [DeriveKey] *)
Definition DeriveKey (password : string) (salt : slice) (params : Argon2Params)
  : result kdf_error bytes :=
  if (password =? "")%string then Err ErrPasswordEmpty else
  match salt with
  | None => Err ErrSaltNil
  | Some s =>
    if length s <? MinSaltLength then Err (ErrSaltTooShort (length s)) else
    match Validate params with
    | Some err => Err (ErrInvalidParams err)
    | None =>
      Ok (argon2_IDKey (list_byte_of_string password) s
            (Time params) (Memory params) (Parallelism params) (KeyLen params))
    end
  end.

End KDF.

(** The parameters [Validate] turns down. *)
Definition invalid_params (p : Argon2Params) : Prop :=
  Time p = 0%N \/ Memory p = 0%N \/ Parallelism p = 0%N \/ KeyLen p = 0%N \/
  (KeyLen p < 16)%N \/ (Memory p < 8192)%N.

(** The inputs [DeriveKey] turns down. *)
Definition invalid_input (password : string) (salt : slice) (params : Argon2Params)
  : Prop :=
  password = ""%string \/ len salt < 8 \/ invalid_params params.

(** ** Password generator (password.go) *)

Open Scope string_scope.
Open Scope nat_scope.
Open Scope list_scope.

Definition uppercaseChars : string := "ABCDEFGHJKLMNPQRSTUVWXYZ".
Definition lowercaseChars : string := "abcdefghijkmnopqrstuvwxyz".
Definition digitChars : string := "23456789".
Definition symbolChars : string := "!@#$%^&*()-_=+[]{}|;:,.<>?".
Definition uppercaseCharsAmbiguous : string := "ABCDEFGHIJKLMNOPQRSTUVWXYZ".
Definition lowercaseCharsAmbiguous : string := "abcdefghijklmnopqrstuvwxyz".
Definition digitCharsAmbiguous : string := "0123456789".

Definition MinPasswordLength : Z := 4.
Definition MaxPasswordLength : Z := 128.

Record GenerateOptions := {
  UseUppercase : bool;
  UseLowercase : bool;
  UseDigits : bool;
  UseSymbols : bool;
  ExcludeAmbiguous : bool
}.

Inductive gen_error :=
| ErrLengthTooShort      (* password length must be at least %d *)
| ErrLengthTooLong       (* password length must not exceed %d *)
| ErrNoCharset           (* at least one character type must be enabled *)
| ErrRandomNumber        (* failed to generate random number *)
| PanicIndex.            (* runtime panic: index out of range *)

(** [buildCharset] *)
Definition buildCharset (options : GenerateOptions) : string :=
  let charset := "" in
  let charset :=
    if UseUppercase options then
      if ExcludeAmbiguous options then (charset ++ uppercaseChars)%string
      else (charset ++ uppercaseCharsAmbiguous)%string
    else charset in
  let charset :=
    if UseLowercase options then
      if ExcludeAmbiguous options then (charset ++ lowercaseChars)%string
      else (charset ++ lowercaseCharsAmbiguous)%string
    else charset in
  let charset :=
    if UseDigits options then
      if ExcludeAmbiguous options then (charset ++ digitChars)%string
      else (charset ++ digitCharsAmbiguous)%string
    else charset in
  let charset :=
    if UseSymbols options then (charset ++ symbolChars)%string else charset in
  charset.

(** [strings.ContainsRune] *)
Fixpoint ContainsRune (s : string) (c : ascii) : bool :=
  match s with
  | EmptyString => false
  | String x s' => if Ascii.eqb x c then true else ContainsRune s' c
  end.

(** [containsAny] *)
Fixpoint containsAny (s charset : string) : bool :=
  match charset with
  | EmptyString => false
  | String c charset' => if ContainsRune s c then true else containsAny s charset'
  end.

(** [meetsRequirements] *)
Definition meetsRequirements (password : string) (options : GenerateOptions) : bool :=
  if UseUppercase options && negb (containsAny password uppercaseCharsAmbiguous)
  then false else
  if UseLowercase options && negb (containsAny password lowercaseCharsAmbiguous)
  then false else
  if UseDigits options && negb (containsAny password digitCharsAmbiguous)
  then false else
  if UseSymbols options && negb (containsAny password symbolChars)
  then false else
  true.

(** [s[i]] and [buf[i] = c]: [None] is the index-out-of-range panic. *)
Definition byteAt (s : string) (i : nat) : option ascii := String.get i s.

Fixpoint setAt (buf : list ascii) (i : nat) (c : ascii) : option (list ascii) :=
  match buf, i with
  | [], _ => None
  | _ :: rest, 0 => Some (c :: rest)
  | x :: rest, S i' =>
    match setAt rest i' c with
    | None => None
    | Some rest' => Some (x :: rest')
    end
  end.

(** One of the four blocks of [forceRequirements]: when the class is enabled
    and absent, a representative is written at [idx]; [bump] is false for the
    last block, which leaves [idx] alone. *)
Definition forceClass (enabled : bool) (class : string) (rep : string) (bump : bool)
  (st : list ascii * nat) : option (list ascii * nat) :=
  let '(password, idx) := st in
  if enabled && negb (containsAny (string_of_list_ascii password) class) then
    match byteAt rep 0 with
    | None => None
    | Some c =>
      match setAt password idx c with
      | None => None
      | Some password' => Some (password', if bump then S idx else idx)
      end
    end
  else Some (password, idx).

(** [forceRequirements]: [None] is a panic. *)
Definition forceRequirements (password : list ascii) (options : GenerateOptions)
  : option string :=
  let idx := 0 in
  match forceClass (UseUppercase options) uppercaseCharsAmbiguous
          (if ExcludeAmbiguous options then uppercaseChars else uppercaseCharsAmbiguous)
          true (password, idx) with
  | None => None
  | Some st1 =>
    match forceClass (UseLowercase options) lowercaseCharsAmbiguous
            (if ExcludeAmbiguous options then lowercaseChars else lowercaseCharsAmbiguous)
            true st1 with
    | None => None
    | Some st2 =>
      match forceClass (UseDigits options) digitCharsAmbiguous
              (if ExcludeAmbiguous options then digitChars else digitCharsAmbiguous)
              true st2 with
      | None => None
      | Some st3 =>
        match forceClass (UseSymbols options) symbolChars symbolChars false st3 with
        | None => None
        | Some (password', _) => Some (string_of_list_ascii password')
        end
      end
    end
  end.

(** The loop of [generateWithRetries] that fills [password[0..length)]. *)
Fixpoint fillPassword (n : nat) (charset : string) (r : Rand)
  : result gen_error (list ascii) * Rand :=
  match n with
  | 0 => (Ok [], r)
  | S n' =>
    match rand_Int (N.of_nat (String.length charset)) r with
    | (None, r') => (Err ErrRandomNumber, r')
    | (Some randomIndex, r') =>
      match byteAt charset (N.to_nat randomIndex) with
      | None => (Err PanicIndex, r')
      | Some c =>
        match fillPassword n' charset r' with
        | (Err e, r'') => (Err e, r'')
        | (Ok rest, r'') => (Ok (c :: rest), r'')
        end
      end
    end
  end.

Definition maxRetries : nat := 10.

(** [generateWithRetries] *)
Equations? generateWithRetries (length_ : Z) (options : GenerateOptions)
  (retryCount : nat) (r : Rand) : result gen_error string * Rand
  by wf (maxRetries - retryCount) lt :=
generateWithRetries length_ options retryCount r :=
  if (length_ <? MinPasswordLength)%Z then (Err ErrLengthTooShort, r) else
  if (length_ >? MaxPasswordLength)%Z then (Err ErrLengthTooLong, r) else
  let charset := buildCharset options in
  if (charset =? "")%string then (Err ErrNoCharset, r) else
  match fillPassword (Z.to_nat length_) charset r with
  | (Err e, r') => (Err e, r')
  | (Ok password, r') =>
    let result := string_of_list_ascii password in
    if negb (meetsRequirements result options) then
      match lt_dec retryCount maxRetries with
      | left Hlt => generateWithRetries length_ options (retryCount + 1) r'
      | right _ =>
        match forceRequirements password options with
        | None => (Err PanicIndex, r')
        | Some forced => (Ok forced, r')
        end
      end
    else (Ok result, r')
  end.
Proof.
  unfold maxRetries in Hlt.
  change (10 - (retryCount + 1) < 10 - retryCount). lia.
Qed.

(** [Generate] *)
Definition Generate (length_ : Z) (options : GenerateOptions) (r : Rand)
  : result gen_error string * Rand :=
  generateWithRetries length_ options 0 r.

(** ** Entries (models/entry.go) *)

(** Instants are nanoseconds since the Unix epoch. *)
Definition time := Z.

Record Entry := {
  ID : string;
  Name : string;
  Category : string;
  Username : string;
  Password : string;
  URL : string;
  Notes : string;
  Tags : list string;
  CreatedAt : time;
  UpdatedAt : time
}.

(** The zero value of [models.Entry], as [var entry models.Entry] gives it. *)
Definition zeroTime : time := (-62135596800 * 1000000000)%Z.

Definition zeroEntry : Entry :=
  {| ID := ""; Name := ""; Category := ""; Username := ""; Password := "";
     URL := ""; Notes := ""; Tags := []; CreatedAt := zeroTime;
     UpdatedAt := zeroTime |}.

Definition set_ID (e : Entry) (v : string) : Entry :=
  {| ID := v; Name := Name e; Category := Category e; Username := Username e;
     Password := Password e; URL := URL e; Notes := Notes e; Tags := Tags e;
     CreatedAt := CreatedAt e; UpdatedAt := UpdatedAt e |}.

Definition set_Category (e : Entry) (v : string) : Entry :=
  {| ID := ID e; Name := Name e; Category := v; Username := Username e;
     Password := Password e; URL := URL e; Notes := Notes e; Tags := Tags e;
     CreatedAt := CreatedAt e; UpdatedAt := UpdatedAt e |}.

Definition set_CreatedAt (e : Entry) (v : time) : Entry :=
  {| ID := ID e; Name := Name e; Category := Category e; Username := Username e;
     Password := Password e; URL := URL e; Notes := Notes e; Tags := Tags e;
     CreatedAt := v; UpdatedAt := UpdatedAt e |}.

Definition set_UpdatedAt (e : Entry) (v : time) : Entry :=
  {| ID := ID e; Name := Name e; Category := Category e; Username := Username e;
     Password := Password e; URL := URL e; Notes := Notes e; Tags := Tags e;
     CreatedAt := CreatedAt e; UpdatedAt := v |}.

(** [Entry.SearchText] *)
Definition SearchText (e : Entry) : string :=
  fold_left (fun searchable tag => searchable ++ " " ++ tag)%string (Tags e)
            (Name e ++ " " ++ Category e)%string.

(** ** The entries table (db.go, createSchema) *)

(** A row of [entries]. *)
Record Row := {
  r_id : string;                 (* TEXT PRIMARY KEY NOT NULL *)
  r_name : string;               (* TEXT NOT NULL UNIQUE *)
  r_category : string;           (* TEXT NOT NULL DEFAULT 'general' *)
  r_encrypted_data : bytes;
  r_encrypted_search : bytes;
  r_created_at : time;
  r_updated_at : time;
  r_encryption_nonce : bytes;
  r_search_nonce : bytes
}.

(** The world the store runs in: the table, the entropy tape, the UUIDs that
    [uuid.New] will hand out, and the wall clock, given by its successive
    readings ([w_clock n] is what the [n]-th reading returns). *)
Record World := {
  w_rows : list Row;
  w_rand : Rand;
  w_uuids : list string;
  w_clock : nat -> time;
  w_ticks : nat
}.

Definition set_rows (w : World) (rows : list Row) : World :=
  {| w_rows := rows; w_rand := w_rand w; w_uuids := w_uuids w;
     w_clock := w_clock w; w_ticks := w_ticks w |}.

Definition set_rand (w : World) (r : Rand) : World :=
  {| w_rows := w_rows w; w_rand := r; w_uuids := w_uuids w;
     w_clock := w_clock w; w_ticks := w_ticks w |}.

Definition set_uuids (w : World) (us : list string) : World :=
  {| w_rows := w_rows w; w_rand := w_rand w; w_uuids := us;
     w_clock := w_clock w; w_ticks := w_ticks w |}.

Definition tick (w : World) : World :=
  {| w_rows := w_rows w; w_rand := w_rand w; w_uuids := w_uuids w;
     w_clock := w_clock w; w_ticks := S (w_ticks w) |}.

Inductive db_error :=
| ErrPrimaryKey     (* UNIQUE constraint failed: entries.id *)
| ErrUniqueName.    (* UNIQUE constraint failed: entries.name *)

Inductive storage_error :=
| ErrEntryNil                          (* entry cannot be nil *)
| ErrEntryIDEmpty                      (* entry ID cannot be empty *)
| ErrEntryNameEmpty                    (* entry name cannot be empty *)
| ErrEntryPasswordEmpty                (* entry password cannot be empty *)
| ErrEncryptionKey                     (* encryption key must be 32 bytes *)
| ErrMarshal                           (* failed to marshal entry data *)
| ErrEncryptData (e : cipher_error)    (* failed to encrypt entry data: %w *)
| ErrEncryptSearch (e : cipher_error)  (* failed to encrypt search text: %w *)
| ErrInsert (e : db_error)             (* failed to insert entry: %w *)
| ErrUpdate (e : db_error)             (* failed to update entry: %w *)
| ErrNotFound (id : string)            (* entry with ID %s not found *)
| PanicUUID.                           (* uuid.New panics without entropy *)

Definition hasID (id : string) (r : Row) : bool := (r_id r =? id)%string.
Definition hasName (name : string) (r : Row) : bool := (r_name r =? name)%string.

(** [INSERT INTO entries (...) VALUES (...)] *)
Definition sql_insert (row : Row) (rows : list Row) : result db_error (list Row) :=
  if existsb (hasID (r_id row)) rows then Err ErrPrimaryKey else
  if existsb (hasName (r_name row)) rows then Err ErrUniqueName else
  Ok (rows ++ [row]).

(** [CURRENT_TIMESTAMP] has the resolution of a second. *)
Definition nsPerSecond : Z := 1000000000.

Definition CURRENT_TIMESTAMP (now : time) : time :=
  (now / nsPerSecond * nsPerSecond)%Z.

(** The [SET] clause of the [UPDATE] statement of [UpdateEntry]. *)
Definition sql_set (name category : string) (encrypted_data encrypted_search : bytes)
  (updated_at : time) (encryption_nonce search_nonce : bytes) (r : Row) : Row :=
  {| r_id := r_id r; r_name := name; r_category := category;
     r_encrypted_data := encrypted_data; r_encrypted_search := encrypted_search;
     r_created_at := r_created_at r; r_updated_at := updated_at;
     r_encryption_nonce := encryption_nonce; r_search_nonce := search_nonce |}.

(** The trigger [update_entries_timestamp], run after the update of a row:
    [UPDATE entries SET updated_at = CURRENT_TIMESTAMP WHERE id = NEW.id]. *)
Definition update_entries_timestamp (now : time) (r : Row) : Row :=
  {| r_id := r_id r; r_name := r_name r; r_category := r_category r;
     r_encrypted_data := r_encrypted_data r;
     r_encrypted_search := r_encrypted_search r;
     r_created_at := r_created_at r; r_updated_at := CURRENT_TIMESTAMP now;
     r_encryption_nonce := r_encryption_nonce r;
     r_search_nonce := r_search_nonce r |}.

(** [UPDATE entries SET ... WHERE id = ?], with its trigger: the new table and
    the number of rows the statement changed. *)
Definition sql_update (id : string) (set : Row -> Row) (now : time)
  (rows : list Row) : result db_error (list Row * nat) :=
  if existsb (fun r => hasID id r &&
                existsb (fun r' => negb (hasID id r') &&
                                   (r_name r' =? r_name (set r))%string) rows)
             rows
  then Err ErrUniqueName
  else Ok (map (fun r => if hasID id r
                         then update_entries_timestamp now (set r) else r) rows,
           length (filter (hasID id) rows)).

(** [DELETE FROM entries WHERE id = ?] *)
Definition sql_delete (id : string) (rows : list Row) : list Row * nat :=
  (filter (fun r => negb (hasID id r)) rows, length (filter (hasID id) rows)).

(** [ORDER BY name ASC], under the default (bytewise) collation. *)
Fixpoint insert_by_name (r : Row) (rows : list Row) : list Row :=
  match rows with
  | [] => [r]
  | r' :: rest =>
    if String.leb (r_name r) (r_name r') then r :: r' :: rest
    else r' :: insert_by_name r rest
  end.

Definition order_by_name (rows : list Row) : list Row :=
  fold_right insert_by_name [] rows.

(** ** The record store (storage/entry.go) *)

(** [time.Now()] *)
Definition time_Now (w : World) : time * World :=
  (w_clock w (w_ticks w), tick w).

(** [uuid.New().String()] *)
Definition uuid_New (w : World) : option string * World :=
  match w_uuids w with
  | [] => (None, w)
  | u :: us => (Some u, set_uuids w us)
  end.

Record EntryData := {
  d_Username : string;
  d_Password : string;
  d_URL : string;
  d_Notes : string;
  d_Tags : list string
}.

(** Computations of the store: they run on the entry the caller's pointer
    refers to and on the world, and what they did to either stays done when
    they fail. *)
Definition Store (A : Type) : Type :=
  Entry * World -> result storage_error A * (Entry * World).

Definition ret {A} (a : A) : Store A := fun s => (Ok a, s).

Definition fail {A} (e : storage_error) : Store A := fun s => (Err e, s).

Definition bind {A B} (m : Store A) (k : A -> Store B) : Store B :=
  fun s =>
    match m s with
    | (Ok a, s') => k a s'
    | (Err e, s') => (Err e, s')
    end.

Declare Scope store_scope.
Delimit Scope store_scope with store.

Notation "x <- m ;; k" := (bind m (fun x => k))
  (at level 100, m at next level, right associativity) : store_scope.
Notation "m ;; k" := (bind m (fun _ => k))
  (at level 100, right associativity) : store_scope.

Definition entry : Store Entry := fun s => (Ok (fst s), s).

Definition world : Store World := fun s => (Ok (snd s), s).

Definition modify_entry (f : Entry -> Entry) : Store unit :=
  fun s => (Ok tt, (f (fst s), snd s)).

Definition put_world (w : World) : Store unit :=
  fun s => (Ok tt, (fst s, w)).

(** [if cond { return err }] *)
Definition reject (cond : bool) (e : storage_error) : Store unit :=
  if cond then fail e else ret tt.

Definition now : Store time :=
  fun s => let '(t, w) := time_Now (snd s) in (Ok t, (fst s, w)).

Definition new_uuid : Store string :=
  fun s =>
    match uuid_New (snd s) with
    | (None, w) => (Err PanicUUID, (fst s, w))
    | (Some u, w) => (Ok u, (fst s, w))
    end.

(** [key == nil || len(key) != 32] *)
Definition bad_key (key : slice) : bool :=
  match key with
  | None => true
  | Some k => negb (length k =? 32)
  end.

(** The category a record is stored under. *)
Definition stored_category (e : Entry) : string :=
  if (Category e =? "")%string then "general" else Category e.

(** The order of the listing, on rows and on entries, and the entries
    without a decrypted payload. *)
Definition row_name_le (r1 r2 : Row) : Prop :=
  String.leb (r_name r1) (r_name r2) = true.

Definition name_le (e1 e2 : Entry) : Prop :=
  String.leb (Name e1) (Name e2) = true.

Definition no_payload (e : Entry) : Prop :=
  Username e = "" /\ Password e = "" /\ URL e = "" /\ Notes e = "" /\
  Tags e = [].


(** What a successful [UpdateEntry] of [e] made of the table of [w]: the
    record is there; ids and created timestamps are as before; the record's
    updated timestamp is [CURRENT_TIMESTAMP] at the second reading of the
    clock; the other records are as before. *)
Definition updated_in_place (e : Entry) (w w' : World) : Prop :=
  let reading := w_clock w (S (w_ticks w)) in
  (exists r, In r (w_rows w) /\ r_id r = ID e) /\
  map r_id (w_rows w') = map r_id (w_rows w) /\
  map r_created_at (w_rows w') = map r_created_at (w_rows w) /\
  (forall r', In r' (w_rows w') -> r_id r' = ID e ->
              r_updated_at r' = CURRENT_TIMESTAMP reading) /\
  (forall r', In r' (w_rows w') -> r_id r' <> ID e -> In r' (w_rows w)) /\
  (CURRENT_TIMESTAMP reading <= reading
     < CURRENT_TIMESTAMP reading + nsPerSecond)%Z /\
  (forall r, In r (w_rows w) -> r_id r = ID e ->
             (r_updated_at r + nsPerSecond <= reading)%Z ->
             (r_updated_at r < CURRENT_TIMESTAMP reading)%Z).

(** A computation that leaves the table as it is, whatever it returns; and
    one that leaves it as it is when it fails. *)
Definition keeps_rows {A} (m : Store A) : Prop :=
  forall s r s', m s = (r, s') -> w_rows (snd s') = w_rows (snd s).

Definition fails_keeping_rows {A} (m : Store A) : Prop :=
  forall s e s', m s = (Err e, s') -> w_rows (snd s') = w_rows (snd s).

Section Storage.

Variable gcm_Seal : bytes -> bytes -> bytes -> bytes -> bytes.

(** [json.Marshal(data)], [None] being its error. *)
Variable json_Marshal : EntryData -> option bytes.

(** [crypto.Encrypt] on the world's entropy. *)
Definition encrypt (plaintext key : slice) (wrap : cipher_error -> storage_error)
  : Store bytes :=
  fun s =>
    match Encrypt gcm_Seal plaintext key (w_rand (snd s)) with
    | (Ok c, r) => (Ok c, (fst s, set_rand (snd s) r))
    | (Err e, r) => (Err (wrap e), (fst s, set_rand (snd s) r))
    end.

Definition marshal (data : EntryData) : Store bytes :=
  match json_Marshal data with
  | None => fail ErrMarshal
  | Some b => ret b
  end.

Definition entryData (e : Entry) : EntryData :=
  {| d_Username := Username e; d_Password := Password e; d_URL := URL e;
     d_Notes := Notes e; d_Tags := Tags e |}.

(** What [UpdateEntry] needs, besides the record being there: a record and
    a key that pass its validation, an encoder that accepts the payload and
    entropy for the two nonces. *)
Definition update_ready (key : slice) (e : Entry) (w : World) : Prop :=
  ID e <> "" /\ Name e <> "" /\ Password e <> "" /\ len key = 32 /\
  json_Marshal (entryData e) <> None /\ 24 <= length (w_rand w).

Open Scope store_scope.

(** The body of [CreateEntry], after the nil check. *)
Definition createEntry (key : slice) : Store unit :=
  e <- entry ;;
  reject (Name e =? "")%string ErrEntryNameEmpty ;;
  reject (Password e =? "")%string ErrEntryPasswordEmpty ;;
  reject (bad_key key) ErrEncryptionKey ;;
  (if (ID e =? "")%string
   then (u <- new_uuid ;; modify_entry (fun e => set_ID e u))
   else ret tt) ;;
  t <- now ;;
  modify_entry (fun e => set_CreatedAt e t) ;;
  modify_entry (fun e => set_UpdatedAt e t) ;;
  e <- entry ;;
  (if (Category e =? "")%string
   then modify_entry (fun e => set_Category e "general")
   else ret tt) ;;
  e <- entry ;;
  let data := entryData e in
  dataJSON <- marshal data ;;
  encryptedData <- encrypt (Some dataJSON) key ErrEncryptData ;;
  let searchText := (SearchText e ++ " " ++ Username e ++ " " ++ URL e)%string in
  let searchTextBytes := list_byte_of_string searchText in
  encryptedSearch <- encrypt (Some searchTextBytes) key ErrEncryptSearch ;;
  (* [encryptedData[:12]]: a ciphertext of [Encrypt] starts with its nonce *)
  let dataNonce := firstn 12 encryptedData in
  let searchNonce := firstn 12 encryptedSearch in
  w <- world ;;
  match sql_insert
          {| r_id := ID e; r_name := Name e; r_category := Category e;
             r_encrypted_data := encryptedData;
             r_encrypted_search := encryptedSearch;
             r_created_at := CreatedAt e; r_updated_at := UpdatedAt e;
             r_encryption_nonce := dataNonce; r_search_nonce := searchNonce |}
          (w_rows w) with
  | Err err => fail (ErrInsert err)
  | Ok rows => put_world (set_rows w rows)
  end.

(** The body of [UpdateEntry], after the nil check. *)
Definition updateEntry (key : slice) : Store unit :=
  e <- entry ;;
  reject (ID e =? "")%string ErrEntryIDEmpty ;;
  reject (Name e =? "")%string ErrEntryNameEmpty ;;
  reject (Password e =? "")%string ErrEntryPasswordEmpty ;;
  reject (bad_key key) ErrEncryptionKey ;;
  t <- now ;;
  modify_entry (fun e => set_UpdatedAt e t) ;;
  e <- entry ;;
  (if (Category e =? "")%string
   then modify_entry (fun e => set_Category e "general")
   else ret tt) ;;
  e <- entry ;;
  let data := entryData e in
  dataJSON <- marshal data ;;
  encryptedData <- encrypt (Some dataJSON) key ErrEncryptData ;;
  let searchText := (SearchText e ++ " " ++ Username e ++ " " ++ URL e)%string in
  let searchTextBytes := list_byte_of_string searchText in
  encryptedSearch <- encrypt (Some searchTextBytes) key ErrEncryptSearch ;;
  let dataNonce := firstn 12 encryptedData in
  let searchNonce := firstn 12 encryptedSearch in
  db_now <- now ;;
  w <- world ;;
  match sql_update (ID e)
          (sql_set (Name e) (Category e) encryptedData encryptedSearch
                   (UpdatedAt e) dataNonce searchNonce)
          db_now (w_rows w) with
  | Err err => fail (ErrUpdate err)
  | Ok (rows, rowsAffected) =>
    put_world (set_rows w rows) ;;
    reject (rowsAffected =? 0) (ErrNotFound (ID e))
  end.

Close Scope store_scope.

(** Running a body on the caller's pointer: the error ([None] is nil), what
    the pointer refers to afterwards, and the world afterwards. *)
Definition run_on (body : Store unit) (p : option Entry) (w : World)
  : option storage_error * option Entry * World :=
  match p with
  | None => (Some ErrEntryNil, None, w)
  | Some e =>
    match body (e, w) with
    | (Ok _, (e', w')) => (None, Some e', w')
    | (Err err, (e', w')) => (Some err, Some e', w')
    end
  end.

(** [DB.CreateEntry] *)
Definition CreateEntry (p : option Entry) (key : slice) (w : World)
  : option storage_error * option Entry * World :=
  run_on (createEntry key) p w.

(** [DB.UpdateEntry] *)
Definition UpdateEntry (p : option Entry) (key : slice) (w : World)
  : option storage_error * option Entry * World :=
  run_on (updateEntry key) p w.

End Storage.

(** The [rows.Scan] of the listings, into a fresh [models.Entry]. *)
Definition scan_listed (r : Row) : Entry :=
  set_UpdatedAt
    (set_CreatedAt
       (set_Category
          {| ID := r_id r; Name := r_name r; Category := Category zeroEntry;
             Username := Username zeroEntry; Password := Password zeroEntry;
             URL := URL zeroEntry; Notes := Notes zeroEntry;
             Tags := Tags zeroEntry; CreatedAt := CreatedAt zeroEntry;
             UpdatedAt := UpdatedAt zeroEntry |}
          (r_category r))
       (r_created_at r))
    (r_updated_at r).

(** [DB.ListEntries] *)
Definition ListEntries (w : World) : result storage_error (list Entry) :=
  Ok (map scan_listed (order_by_name (w_rows w))).

(** [DB.ListEntriesByCategory] *)
Definition ListEntriesByCategory (category : string) (w : World)
  : result storage_error (list Entry) :=
  Ok (map scan_listed
        (order_by_name
           (filter (fun r => (r_category r =? category)%string) (w_rows w)))).

(** [DB.DeleteEntry] *)
Definition DeleteEntry (id : string) (w : World) : option storage_error * World :=
  if (id =? "")%string then (Some ErrEntryIDEmpty, w) else
  let '(rows, rowsAffected) := sql_delete id (w_rows w) in
  if rowsAffected =? 0 then (Some (ErrNotFound id), set_rows w rows)
  else (None, set_rows w rows).

(** [DB.CountEntries] *)
Definition CountEntries (w : World) : nat := length (w_rows w).

(** Histories of the store: any sequence of creations, updates and
    deletions. *)
Inductive op :=
| OpCreate (p : option Entry) (key : slice)
| OpUpdate (p : option Entry) (key : slice)
| OpDelete (id : string).

Section Histories.

Variable gcm_Seal : bytes -> bytes -> bytes -> bytes -> bytes.
Variable json_Marshal : EntryData -> option bytes.

Definition step (w : World) (o : op) : World :=
  match o with
  | OpCreate p key => snd (CreateEntry gcm_Seal json_Marshal p key w)
  | OpUpdate p key => snd (UpdateEntry gcm_Seal json_Marshal p key w)
  | OpDelete id => snd (DeleteEntry id w)
  end.

Definition run (ops : list op) (w : World) : World := fold_left step ops w.

End Histories.

(** ** Reading records back (storage/entry.go) *)

Inductive get_error :=
| ErrGetIDEmpty                      (* entry ID cannot be empty *)
| ErrGetNameEmpty                    (* entry name cannot be empty *)
| ErrGetKey                          (* encryption key must be 32 bytes *)
| ErrIDNotFound (id : string)        (* entry with ID %s not found *)
| ErrNameNotFound (name : string)    (* entry with name %s not found *)
| ErrDecryptData (e : cipher_error)  (* failed to decrypt entry data: %w *)
| ErrUnmarshalData.                  (* failed to unmarshal entry data *)

(** The fields [GetEntry] fills in from the decrypted payload. *)
Definition populate (e : Entry) (data : EntryData) : Entry :=
  {| ID := ID e; Name := Name e; Category := Category e;
     Username := d_Username data; Password := d_Password data;
     URL := d_URL data; Notes := d_Notes data; Tags := d_Tags data;
     CreatedAt := CreatedAt e; UpdatedAt := UpdatedAt e |}.

Section Reads.

Variable gcm_Open : bytes -> bytes -> bytes -> bytes -> option bytes.

(** [json.Unmarshal(decryptedData, &data)], [None] being its error. *)
Variable json_Unmarshal : bytes -> option EntryData.

(** [DB.GetEntry]: [QueryRow(... WHERE id = ?)] is the first row with the
    id, and [sql.ErrNoRows] is there being none. *)
Definition GetEntry (id : string) (key : slice) (w : World)
  : result get_error Entry :=
  if (id =? "")%string then Err ErrGetIDEmpty else
  if bad_key key then Err ErrGetKey else
  match find (hasID id) (w_rows w) with
  | None => Err (ErrIDNotFound id)
  | Some row =>
    let entry := scan_listed row in
    let encryptedData := r_encrypted_data row in
    match Decrypt gcm_Open (Some encryptedData) key with
    | Err e => Err (ErrDecryptData e)
    | Ok decryptedData =>
      match json_Unmarshal decryptedData with
      | None => Err ErrUnmarshalData
      | Some data => Ok (populate entry data)
      end
    end
  end.

(** [DB.GetEntryByName] *)
Definition GetEntryByName (name : string) (key : slice) (w : World)
  : result get_error Entry :=
  if (name =? "")%string then Err ErrGetNameEmpty else
  match find (hasName name) (w_rows w) with
  | None => Err (ErrNameNotFound name)
  | Some row => GetEntry (r_id row) key w
  end.

End Reads.

(** The primary key and the unique name of the schema hold of the table. *)
Definition well_keyed (w : World) : Prop :=
  NoDup (map r_id (w_rows w)) /\ NoDup (map r_name (w_rows w)).

(** What [CreateEntry] needs to get as far as the insert: a record and a key
    that pass its validation, an id (the caller's, or a UUID in stock), an
    encoder that accepts the payload and entropy for the two nonces. *)
Definition create_ready (json_Marshal : EntryData -> option bytes)
  (key : slice) (e : Entry) (w : World) : Prop :=
  Name e <> "" /\ Password e <> "" /\ len key = 32 /\
  (ID e = "" -> w_uuids w <> []) /\
  json_Marshal (entryData e) <> None /\ 24 <= length (w_rand w).

(** The id under which [CreateEntry] stores the record. *)
Definition assigned_id (e : Entry) (w : World) : string :=
  if (ID e =? "")%string then hd "" (w_uuids w) else ID e.

(** ** The metadata table (storage/metadata.go) *)

(** The table [metadata (key TEXT PRIMARY KEY, value TEXT)], in the order its
    rows were inserted. *)
Definition Meta := list (string * string).

Definition MetadataKeySalt : string := "salt".
Definition MetadataKeyArgon2Params : string := "argon2_params".
Definition MetadataKeyVersion : string := "version".
Definition MetadataKeyCreatedAt : string := "created_at".

Inductive meta_error :=
| ErrMetaKeyEmpty                      (* metadata key cannot be empty *)
| ErrMetaNotFound (key : string)       (* metadata key %s not found *)
| ErrSaltEmpty                         (* salt cannot be nil or empty *)
| ErrGetSalt (e : meta_error)          (* failed to get salt: %w *)
| ErrDecodeSalt                        (* failed to decode salt *)
| ErrInvalidArgon2 (e : kdf_error)     (* invalid Argon2 parameters: %w *)
| ErrMarshalArgon2                     (* failed to marshal Argon2 params *)
| ErrGetArgon2 (e : meta_error)        (* failed to get Argon2 params: %w *)
| ErrUnmarshalArgon2                   (* failed to unmarshal Argon2 params *)
| ErrInvalidArgon2Stored (e : kdf_error).
                                       (* invalid Argon2 parameters in database: %w *)

Definition hasKey (key : string) (kv : string * string) : bool :=
  (fst kv =? key)%string.

(** [INSERT INTO metadata (key, value) VALUES (?, ?)
     ON CONFLICT(key) DO UPDATE SET value = excluded.value] *)
Fixpoint upsert (key value : string) (m : Meta) : Meta :=
  match m with
  | [] => [(key, value)]
  | kv :: m' =>
    if hasKey key kv then (fst kv, value) :: m' else kv :: upsert key value m'
  end.

(** [DB.SetMetadata]: [None] is the nil error. *)
Definition SetMetadata (key value : string) (m : Meta) : option meta_error * Meta :=
  if (key =? "")%string then (Some ErrMetaKeyEmpty, m) else
  (None, upsert key value m).

(** [DB.GetMetadata] *)
Definition GetMetadata (key : string) (m : Meta) : result meta_error string :=
  if (key =? "")%string then Err ErrMetaKeyEmpty else
  match find (hasKey key) m with
  | None => Err (ErrMetaNotFound key)
  | Some kv => Ok (snd kv)
  end.

(** [DB.DeleteMetadata] *)
Definition DeleteMetadata (key : string) (m : Meta) : option meta_error * Meta :=
  if (key =? "")%string then (Some ErrMetaKeyEmpty, m) else
  let m' := filter (fun kv => negb (hasKey key kv)) m in
  let rowsAffected := length (filter (hasKey key) m) in
  if rowsAffected =? 0 then (Some (ErrMetaNotFound key), m') else (None, m').

(** [ORDER BY key] *)
Fixpoint insert_key (k : string) (ks : list string) : list string :=
  match ks with
  | [] => [k]
  | k' :: rest =>
    if String.leb k k' then k :: k' :: rest else k' :: insert_key k rest
  end.

(** [DB.ListMetadataKeys] *)
Definition ListMetadataKeys (m : Meta) : list string :=
  fold_right insert_key [] (map fst m).

Section Metadata.

(** [base64.StdEncoding.EncodeToString] and [DecodeString], [None] being the
    error of the latter. *)
Variable base64_Encode : bytes -> string.
Variable base64_Decode : string -> option bytes.

(** [json.Marshal(params)] and [json.Unmarshal(jsonData, &params)] on
    [Argon2Params], [None] being their errors. *)
Variable params_Marshal : Argon2Params -> option bytes.
Variable params_Unmarshal : bytes -> option Argon2Params.

(** [DB.SetSalt] *)
Definition SetSalt (salt : slice) (m : Meta) : option meta_error * Meta :=
  match salt with
  | None => (Some ErrSaltEmpty, m)
  | Some s =>
    if length s =? 0 then (Some ErrSaltEmpty, m) else
    let encoded := base64_Encode s in
    SetMetadata MetadataKeySalt encoded m
  end.

(** [DB.GetSalt] *)
Definition GetSalt (m : Meta) : result meta_error bytes :=
  match GetMetadata MetadataKeySalt m with
  | Err err => Err (ErrGetSalt err)
  | Ok encoded =>
    match base64_Decode encoded with
    | None => Err ErrDecodeSalt
    | Some salt => Ok salt
    end
  end.

(** [DB.SetArgon2Params] *)
Definition SetArgon2Params (params : Argon2Params) (m : Meta)
  : option meta_error * Meta :=
  match Validate params with
  | Some err => (Some (ErrInvalidArgon2 err), m)
  | None =>
    match params_Marshal params with
    | None => (Some ErrMarshalArgon2, m)
    | Some jsonData =>
      SetMetadata MetadataKeyArgon2Params (string_of_list_byte jsonData) m
    end
  end.

(** [DB.GetArgon2Params] *)
Definition GetArgon2Params (m : Meta) : result meta_error Argon2Params :=
  match GetMetadata MetadataKeyArgon2Params m with
  | Err err => Err (ErrGetArgon2 err)
  | Ok jsonData =>
    match params_Unmarshal (list_byte_of_string jsonData) with
    | None => Err ErrUnmarshalArgon2
    | Some params =>
      match Validate params with
      | Some err => Err (ErrInvalidArgon2Stored err)
      | None => Ok params
      end
    end
  end.

End Metadata.

(** ** Salts (kdf.go) *)

Inductive salt_error :=
| ErrSaltLength      (* salt length must be at least %d bytes *)
| ErrSaltRandom.     (* failed to generate random salt *)

(** [GenerateSaltWithLength] *)
Definition GenerateSaltWithLength (length_ : Z) (r : Rand)
  : result salt_error bytes * Rand :=
  if (length_ <? Z.of_nat MinSaltLength)%Z then (Err ErrSaltLength, r) else
  match rand_Read (Z.to_nat length_) r with
  | (None, r') => (Err ErrSaltRandom, r')
  | (Some salt, r') => (Ok salt, r')
  end.

(** [GenerateSalt] *)
Definition GenerateSalt (r : Rand) : result salt_error bytes * Rand :=
  GenerateSaltWithLength (Z.of_nat DefaultSaltLength) r.

(** ** Patterns in passwords (password.go) *)

(** [password[i]] as a [uint8], and the [uint8] sum and difference with 1,
    which wrap around. *)
Definition byte_succ (c : ascii) : N := ((N_of_ascii c + 1) mod 256)%N.
Definition byte_pred (c : ascii) : N := ((N_of_ascii c + 255) mod 256)%N.

Definition ascending (a b c : ascii) : bool :=
  (byte_succ a =? N_of_ascii b)%N && (byte_succ b =? N_of_ascii c)%N.

Definition descending (a b c : ascii) : bool :=
  (byte_pred a =? N_of_ascii b)%N && (byte_pred b =? N_of_ascii c)%N.

(** The loop of [hasSequentialChars], from position [i] on. *)
Fixpoint sequentialFrom (password : string) : bool :=
  match password with
  | String a rest =>
    match rest with
    | String b (String c _) =>
      if ascending a b c then true else
      if descending a b c then true else
      sequentialFrom rest
    | _ => false
    end
  | EmptyString => false
  end.

(** [hasSequentialChars] *)
Definition hasSequentialChars (password : string) : bool :=
  if String.length password <? 3 then false else sequentialFrom password.

(** The loop of [hasRepeatedChars], from position [i] on. *)
Fixpoint repeatedFrom (password : string) : bool :=
  match password with
  | String a rest =>
    match rest with
    | String b (String c _) =>
      if Ascii.eqb a b && Ascii.eqb b c then true else repeatedFrom rest
    | _ => false
    end
  | EmptyString => false
  end.

(** [hasRepeatedChars] *)
Definition hasRepeatedChars (password : string) : bool :=
  if String.length password <? 3 then false else repeatedFrom password.

(** Three bytes in a row from position [i] of [s]. *)
Definition triple_at (s : string) (i : nat) (a b c : ascii) : Prop :=
  String.get i s = Some a /\ String.get (S i) s = Some b /\
  String.get (S (S i)) s = Some c.

(** The characters the generator's tests call ambiguous. *)
Definition ambiguousChars : string := "0O1lI".

(** The characters of [s] are all in [charset]. *)
Fixpoint drawn_from (charset : string) (s : string) : Prop :=
  match s with
  | EmptyString => True
  | String c s' => ContainsRune charset c = true /\ drawn_from charset s'
  end.

(** An entry as the listings show it: without its payload. *)
Definition listed (e : Entry) : Entry :=
  {| ID := ID e; Name := Name e; Category := Category e; Username := "";
     Password := ""; URL := ""; Notes := ""; Tags := [];
     CreatedAt := CreatedAt e; UpdatedAt := UpdatedAt e |}.

(** The number of character classes the options enable. *)
Definition enabled_classes (options : GenerateOptions) : nat :=
  Nat.b2n (UseUppercase options) + Nat.b2n (UseLowercase options)
  + Nat.b2n (UseDigits options) + Nat.b2n (UseSymbols options).

(** ** Instances on which the definitions run

    They have the shape of the library primitives, not their strength: the
    sealed data is the plaintext followed by a 16-byte tag (the first half of
    the key), the derived key is a run of zero bytes, and the encoder writes
    the fields one after another. *)

Definition tag_Seal (key nonce plaintext ad : bytes) : bytes :=
  plaintext ++ firstn gcmTagSize key.

Definition tag_Open (key nonce data ad : bytes) : option bytes :=
  if length data <? gcmTagSize then None else
  let n := length data - gcmTagSize in
  if bytes_eqb (skipn n data) (firstn gcmTagSize key)
  then Some (firstn n data) else None.

Definition zero_IDKey (password salt : bytes) (time memory threads keyLen : N)
  : bytes :=
  repeat Byte.x00 (N.to_nat keyLen).

Definition plain_Marshal (d : EntryData) : option bytes :=
  Some (list_byte_of_string
          (String.concat " " (d_Username d :: d_Password d :: d_URL d
                                :: d_Notes d :: d_Tags d))).

Definition key32 : bytes := repeat Byte.x2a 32.

Definition tape : Rand := repeat Byte.x01 12 ++ repeat Byte.x02 12.

(** A record as a caller would pass it, with an id of the caller's own and no
    category, and a world to create it in: an empty table, entropy for four
    nonces, two UUIDs in stock, and a clock that reads 10.5 s, 10.6 s,
    10.7 s and from then on 10.8 s. *)
Definition github : Entry :=
  {| ID := "my-id"; Name := "github.com"; Category := ""; Username := "octo";
     Password := "secret1"; URL := "https://github.com"; Notes := "";
     Tags := ["work"]; CreatedAt := zeroTime; UpdatedAt := zeroTime |}.

Definition world0 : World :=
  {| w_rows := []; w_rand := tape ++ tape; w_uuids := ["uuid-1"; "uuid-2"];
     w_clock := fun n => nth n [10500000000; 10600000000; 10700000000]%Z
                            10800000000%Z;
     w_ticks := 0 |}.

(** The four classes with the ambiguous characters left in, and entropy
    that spells "A0!!" (indices 0, 52, 62, 62 of the charset) eleven times. *)
Definition all_classes : GenerateOptions :=
  {| UseUppercase := true; UseLowercase := true; UseDigits := true;
     UseSymbols := true; ExcludeAmbiguous := false |}.

Definition A0_tape : Rand :=
  flat_map (fun _ => [Byte.x00; Byte.x34; Byte.x3e; Byte.x3e]) (seq 0 11).

(** A decoder for the payloads of a given list, by looking the bytes up
    among what [plain_Marshal] writes for them; a Base64 stand-in that keeps
    the bytes as they are; and a codec of the parameters in four bytes
    (the memory cost in MiB). *)
Definition known_Unmarshal (known : list EntryData) (b : bytes)
  : option EntryData :=
  find (fun d => match plain_Marshal d with
                 | Some b' => bytes_eqb b b'
                 | None => false
                 end) known.

Definition raw_Encode (b : bytes) : string := string_of_list_byte b.

Definition raw_Decode (s : string) : option bytes := Some (list_byte_of_string s).

Definition field_byte (n : N) : Byte.byte :=
  match Byte.of_N (n mod 256) with
  | Some b => b
  | None => Byte.x00
  end.

Definition short_Marshal (p : Argon2Params) : option bytes :=
  Some [field_byte (Time p); field_byte (Memory p / 1024);
        field_byte (Parallelism p); field_byte (KeyLen p)].

Definition short_Unmarshal (b : bytes) : option Argon2Params :=
  match b with
  | [t; m; p; k] =>
    Some {| Time := Byte.to_N t; Memory := Byte.to_N m * 1024;
            Parallelism := Byte.to_N p; KeyLen := Byte.to_N k |}
  | _ => None
  end.

(** The world after [github] was created in [world0], another key, and
    thirty-two bytes of entropy for a salt. *)
Definition world1 : World :=
  snd (CreateEntry tag_Seal plain_Marshal (Some github) (Some key32) world0).

Definition key32' : bytes := repeat Byte.x2b 32.

Definition salt_tape : Rand := repeat Byte.x07 32.

(** A second record, created after [github] under a generated id, and the
    same table with its records in the opposite order. *)
Definition alpha : Entry :=
  {| ID := ""; Name := "alpha.org"; Category := "work"; Username := "ann";
     Password := "secret2"; URL := ""; Notes := ""; Tags := [];
     CreatedAt := zeroTime; UpdatedAt := zeroTime |}.

Definition world2 : World :=
  snd (CreateEntry tag_Seal plain_Marshal (Some alpha) (Some key32) world1).

Definition world2_reversed : World := set_rows world2 (rev (w_rows world2)).

(** Options without the ambiguous characters, and a tape that counts up
    from 3. *)
Definition safe_symbols : GenerateOptions :=
  {| UseUppercase := false; UseLowercase := true; UseDigits := false;
     UseSymbols := true; ExcludeAmbiguous := true |}.

Definition count_tape : Rand :=
  map (fun n => match Byte.of_nat n with
                | Some b => b
                | None => Byte.x00
                end) (seq 3 40).

(** * Properties *)

(** ** Common facts *)

Lemma bytes_eqb_refl (a : bytes) : bytes_eqb a a = true.
Proof.
  unfold bytes_eqb. destruct (list_eq_dec Byte.byte_eq_dec a a); congruence.
Qed.

Lemma rand_Read_Some n r bs r' :
  rand_Read n r = (Some bs, r') ->
  n <= length r /\ bs = firstn n r /\ r' = skipn n r /\ length bs = n.
Proof.
  unfold rand_Read. destruct (length r <? n) eqn:E; [discriminate|].
  intros H. inversion H; subst. apply Nat.ltb_ge in E.
  rewrite length_firstn. repeat split; lia.
Qed.

Lemma rand_Read_None n r r' :
  rand_Read n r = (None, r') -> length r < n /\ r' = r.
Proof.
  unfold rand_Read. destruct (length r <? n) eqn:E; [|discriminate].
  intros H. inversion H; subst. apply Nat.ltb_lt in E. auto.
Qed.

(** ** cipher.go *)

Lemma GenerateNonce_Ok r nonce r' :
  GenerateNonce r = (Ok nonce, r') ->
  length nonce = 12 /\ nonce = firstn 12 r /\ r' = skipn 12 r /\ 12 <= length r.
Proof.
  unfold GenerateNonce, DefaultNonceSize.
  destruct (rand_Read 12 r) as [[bs|] r1] eqn:E; [|discriminate].
  intros H. inversion H; subst.
  apply rand_Read_Some in E. intuition.
Qed.

Lemma GenerateNonce_Err r e r' :
  GenerateNonce r = (Err e, r') -> e = ErrNonce /\ length r < 12 /\ r' = r.
Proof.
  unfold GenerateNonce, DefaultNonceSize.
  destruct (rand_Read 12 r) as [[bs|] r1] eqn:E; [discriminate|].
  intros H. inversion H; subst.
  apply rand_Read_None in E. intuition.
Qed.

Lemma aes_NewCipher_32 k : length k = 32 -> aes_NewCipher k = Ok k.
Proof. unfold aes_NewCipher. intros ->. reflexivity. Qed.

Section CipherFacts.

Variable gcm_Seal : bytes -> bytes -> bytes -> bytes -> bytes.
Variable gcm_Open : bytes -> bytes -> bytes -> bytes -> option bytes.

(** What a successful [Encrypt] returns. *)
Lemma Encrypt_Ok (P K : slice) (r r' : Rand) (C : bytes) :
  Encrypt gcm_Seal P K r = (Ok C, r') ->
  exists pt k nonce,
    P = Some pt /\ K = Some k /\ length k = 32 /\
    GenerateNonce r = (Ok nonce, r') /\
    C = nonce ++ gcm_Seal k nonce pt [].
Proof.
  unfold Encrypt. destruct P as [pt|]; [|discriminate].
  destruct K as [k|]; [|discriminate].
  destruct (length k =? 32) eqn:Ek; simpl; [|discriminate].
  apply Nat.eqb_eq in Ek. rewrite (aes_NewCipher_32 _ Ek). simpl.
  destruct (GenerateNonce r) as [[nonce|e] r1] eqn:En; [|discriminate].
  intros H. inversion H; subst. exists pt, k, nonce. auto.
Qed.

(** When [Encrypt] fails. *)
Lemma Encrypt_Err_iff (P K : slice) (r : Rand) :
  (exists e, fst (Encrypt gcm_Seal P K r) = Err e) <->
  P = None \/ len K <> 32 \/ fst (GenerateNonce r) = Err ErrNonce.
Proof.
  unfold Encrypt. destruct P as [pt|].
  2:{ split; [auto | intros _; simpl; eauto]. }
  destruct K as [k|]; simpl.
  2:{ split; [intros _; right; left; lia | intros _; eauto]. }
  destruct (length k =? 32) eqn:Ek; simpl.
  - apply Nat.eqb_eq in Ek. rewrite (aes_NewCipher_32 _ Ek). simpl.
    destruct (GenerateNonce r) as [[nonce|e] r1] eqn:En; simpl.
    + split; [intros [e H]; discriminate|].
      intros [H|[H|H]]; [discriminate | contradiction | discriminate].
    + apply GenerateNonce_Err in En. destruct En as [-> _].
      split; [auto | intros _; eauto].
  - apply Nat.eqb_neq in Ek. split; [auto | intros _; eauto].
Qed.

Section RoundTrip.

(** The contract of the AEAD that the round trip rests on: the sealed data
    is the plaintext's length plus the tag ([Overhead]), and [Open] undoes
    [Seal] under the same key, nonce and additional data. *)
Hypothesis gcm_Overhead : forall key nonce pt ad,
  length key = 32 -> length nonce = 12 ->
  length (gcm_Seal key nonce pt ad) = length pt + gcmTagSize.

Hypothesis gcm_Open_Seal : forall key nonce pt ad,
  length key = 32 -> length nonce = 12 ->
  gcm_Open key nonce (gcm_Seal key nonce pt ad) ad = Some pt.

(** C1.  Round trip: whenever [Encrypt P K] succeeds with a ciphertext [C],
    [P] is a (non-nil) plaintext and [Decrypt C K] succeeds and returns
    exactly its bytes.  A successful [Encrypt] implies that [K] has 32
    bytes, so the key needs no separate assumption. *)
Theorem Decrypt_Encrypt (P K : slice) (r r' : Rand) (C : bytes) :
  Encrypt gcm_Seal P K r = (Ok C, r') ->
  exists pt, P = Some pt /\ Decrypt gcm_Open (Some C) K = Ok pt.
Proof.
  intros H. apply Encrypt_Ok in H.
  destruct H as (pt & k & nonce & -> & -> & Hk & Hn & ->).
  apply GenerateNonce_Ok in Hn. destruct Hn as (Hlen & _).
  exists pt. split; [reflexivity|].
  unfold Decrypt. rewrite Hk. simpl negb. cbv iota.
  rewrite length_app, gcm_Overhead by assumption.
  replace (length nonce + (length pt + gcmTagSize) <? minCiphertextSize) with false
    by (symmetry; apply Nat.ltb_ge; unfold minCiphertextSize, gcmTagSize,
        DefaultNonceSize; lia).
  rewrite (aes_NewCipher_32 _ Hk). simpl cipher_NewGCM. cbv iota zeta.
  replace (length nonce + (length pt + gcmTagSize) <? gcm_NonceSize) with false
    by (symmetry; apply Nat.ltb_ge; unfold gcm_NonceSize; lia).
  unfold gcm_NonceSize. rewrite firstn_app, skipn_app, Hlen, Nat.sub_diag.
  rewrite firstn_all2, skipn_all2 by lia. simpl. rewrite app_nil_r.
  rewrite gcm_Open_Seal by assumption. reflexivity.
Qed.

End RoundTrip.

End CipherFacts.

Lemma tag_Overhead key nonce pt ad :
  length key = 32 -> length nonce = 12 ->
  length (tag_Seal key nonce pt ad) = length pt + gcmTagSize.
Proof.
  intros Hk _. unfold tag_Seal, gcmTagSize.
  rewrite length_app, length_firstn. lia.
Qed.

Lemma tag_Open_Seal key nonce pt ad :
  length key = 32 -> length nonce = 12 ->
  tag_Open key nonce (tag_Seal key nonce pt ad) ad = Some pt.
Proof.
  intros Hk _. unfold tag_Open, tag_Seal, gcmTagSize.
  rewrite length_app, length_firstn, Hk.
  replace (Nat.min 16 32) with 16 by reflexivity.
  replace (length pt + 16 <? 16) with false by (symmetry; apply Nat.ltb_ge; lia).
  replace (length pt + 16 - 16) with (length pt + 0) by lia.
  rewrite skipn_app, firstn_app, Nat.add_0_r, Nat.sub_diag.
  rewrite skipn_all, firstn_all. simpl. rewrite bytes_eqb_refl, app_nil_r.
  reflexivity.
Qed.

Lemma Decrypt_Encrypt_witness :
  Encrypt tag_Seal (Some [Byte.x68; Byte.x69]) (Some key32) tape
    = (Ok (repeat Byte.x01 12 ++ [Byte.x68; Byte.x69] ++ repeat Byte.x2a 16),
       repeat Byte.x02 12) /\
  exists pt,
    Some [Byte.x68; Byte.x69] = Some pt /\
    Decrypt tag_Open
      (Some (repeat Byte.x01 12 ++ [Byte.x68; Byte.x69] ++ repeat Byte.x2a 16))
      (Some key32) = Ok pt.
Proof.
  split; [reflexivity|].
  apply (Decrypt_Encrypt tag_Seal tag_Open tag_Overhead tag_Open_Seal
           (Some [Byte.x68; Byte.x69]) (Some key32) tape (repeat Byte.x02 12)).
  reflexivity.
Defined.

Section CipherClaims.

Variable gcm_Seal : bytes -> bytes -> bytes -> bytes -> bytes.
Variable gcm_Open : bytes -> bytes -> bytes -> bytes -> option bytes.

(** With the same nonce, the same plaintext and the same key, [Encrypt]
    returns the same ciphertext: all the difference between two
    encryptions comes from the nonce. *)
Lemma Encrypt_same_nonce (P K : slice) (r1 r2 r1' r2' : Rand) (C1 C2 : bytes) :
  Encrypt gcm_Seal P K r1 = (Ok C1, r1') ->
  Encrypt gcm_Seal P K r2 = (Ok C2, r2') ->
  fst (GenerateNonce r1) = fst (GenerateNonce r2) ->
  C1 = C2.
Proof.
  intros H1 H2 Hn. apply Encrypt_Ok in H1, H2.
  destruct H1 as (pt & k & n1 & -> & -> & _ & Hn1 & ->).
  destruct H2 as (pt' & k' & n2 & Hp & Hk & _ & Hn2 & ->).
  inversion Hp; inversion Hk; subst.
  rewrite Hn1, Hn2 in Hn. simpl in Hn. inversion Hn. reflexivity.
Qed.

(** C2.  Nonce freshness: two successive successful calls [Encrypt P K],
    the second on the random source as the first left it, return different
    ciphertexts when the nonce the second call draws is fresh, that is,
    differs from the nonce the first call drew. *)
Theorem Encrypt_fresh_nonce (P K : slice) (r0 r1 r2 : Rand) (C1 C2 : bytes) :
  Encrypt gcm_Seal P K r0 = (Ok C1, r1) ->
  Encrypt gcm_Seal P K r1 = (Ok C2, r2) ->
  fst (GenerateNonce r0) <> fst (GenerateNonce r1) ->
  C1 <> C2.
Proof.
  intros H1 H2 Hfresh HC. apply Hfresh. apply Encrypt_Ok in H1, H2.
  destruct H1 as (pt & k & n1 & -> & -> & _ & Hn1 & ->).
  destruct H2 as (pt' & k' & n2 & _ & _ & _ & Hn2 & ->).
  rewrite Hn1, Hn2. simpl. f_equal.
  apply GenerateNonce_Ok in Hn1, Hn2.
  destruct Hn1 as (L1 & _), Hn2 as (L2 & _).
  apply (f_equal (firstn 12)) in HC.
  rewrite !firstn_app in HC.
  rewrite (firstn_all2 n1), (firstn_all2 n2) in HC by lia.
  rewrite L1, L2, Nat.sub_diag in HC. simpl in HC.
  rewrite !app_nil_r in HC. exact HC.
Qed.

(** C3.  [Decrypt] returns an error whenever the ciphertext is shorter than
    28 bytes, whenever the key is not 32 bytes long, and whenever the tag
    does not verify; in the last case, lengths being right, the error is
    the one value [ErrDecryptionFailed], which carries nothing that would
    tell a wrong key from tampered data. *)
Theorem Decrypt_rejects (ciphertext key : slice) :
  len ciphertext < 28 \/ len key <> 32 \/
  tag_rejected gcm_Open ciphertext key ->
  exists e,
    Decrypt gcm_Open ciphertext key = Err e /\
    (28 <= len ciphertext -> len key = 32 -> e = ErrDecryptionFailed).
Proof.
  intros H. unfold Decrypt.
  destruct ciphertext as [ct|]; cbn [len] in *.
  2:{ eexists; split; [reflexivity | lia]. }
  destruct key as [k|]; cbn [len] in *.
  2:{ eexists; split; [reflexivity | lia]. }
  destruct (length k =? 32) eqn:Ek; cbn [negb].
  2:{ apply Nat.eqb_neq in Ek. eexists; split; [reflexivity | lia]. }
  apply Nat.eqb_eq in Ek.
  destruct (length ct <? minCiphertextSize) eqn:Ec.
  { apply Nat.ltb_lt in Ec. unfold minCiphertextSize, DefaultNonceSize in Ec.
    eexists; split; [reflexivity | lia]. }
  apply Nat.ltb_ge in Ec. unfold minCiphertextSize, DefaultNonceSize in Ec.
  rewrite (aes_NewCipher_32 _ Ek).
  cbv beta iota zeta delta [cipher_NewGCM aes_BlockSize Nat.eqb].
  destruct H as [H|[H|H]]; [lia | lia |].
  destruct H as (ct' & k' & Hc & Hk & Hopen).
  inversion Hc; inversion Hk; subst ct' k'.
  replace (length ct <? gcm_NonceSize) with false
    by (symmetry; apply Nat.ltb_ge; unfold gcm_NonceSize; lia).
  rewrite Hopen. eexists; split; [reflexivity | auto].
Qed.

(** C4, as the code has it.  [Encrypt] fails exactly when the plaintext is
    nil, the key is not 32 bytes long (a nil key included) or the random
    source fails to deliver the nonce; in particular it succeeds on the
    empty, non-nil plaintext under every 32-byte key for which the nonce
    can be drawn. *)
Theorem Encrypt_fails_iff (P K : slice) (r : Rand) :
  ((exists e, fst (Encrypt gcm_Seal P K r) = Err e) <->
   P = None \/ len K <> 32 \/ fst (GenerateNonce r) = Err ErrNonce) /\
  (len K = 32 -> is_ok (fst (GenerateNonce r)) = true ->
   is_ok (fst (Encrypt gcm_Seal (Some []) K r)) = true).
Proof.
  split; [apply Encrypt_Err_iff|].
  intros HK Hr.
  destruct (fst (Encrypt gcm_Seal (Some []) K r)) as [c|e] eqn:E; [reflexivity|].
  assert (Hex : exists e, fst (Encrypt gcm_Seal (Some []) K r) = Err e) by eauto.
  apply Encrypt_Err_iff in Hex. destruct Hex as [Hex|[Hex|Hex]].
  - discriminate.
  - contradiction.
  - rewrite Hex in Hr. discriminate.
Qed.

End CipherClaims.

Lemma Encrypt_fresh_nonce_witness :
  fst (GenerateNonce tape) <> fst (GenerateNonce (repeat Byte.x02 12)) /\
  repeat Byte.x01 12 ++ [Byte.x68] ++ repeat Byte.x2a 16
    <> repeat Byte.x02 12 ++ [Byte.x68] ++ repeat Byte.x2a 16.
Proof.
  assert (Hfresh : fst (GenerateNonce tape)
                     <> fst (GenerateNonce (repeat Byte.x02 12)))
    by (simpl; discriminate).
  split; [exact Hfresh|].
  apply (Encrypt_fresh_nonce tag_Seal (Some [Byte.x68]) (Some key32)
           tape (repeat Byte.x02 12) []); [reflexivity | reflexivity | exact Hfresh].
Defined.

Lemma Decrypt_rejects_witness :
  tag_rejected tag_Open (Some (repeat Byte.x01 12 ++ repeat Byte.x00 16))
               (Some key32) /\
  exists e,
    Decrypt tag_Open (Some (repeat Byte.x01 12 ++ repeat Byte.x00 16))
            (Some key32) = Err e /\
    (28 <= 28 -> 32 = 32 -> e = ErrDecryptionFailed).
Proof.
  assert (H : tag_rejected tag_Open
                (Some (repeat Byte.x01 12 ++ repeat Byte.x00 16)) (Some key32)).
  { exists (repeat Byte.x01 12 ++ repeat Byte.x00 16), key32.
    repeat split; reflexivity. }
  split; [exact H|].
  apply (Decrypt_rejects tag_Open
           (Some (repeat Byte.x01 12 ++ repeat Byte.x00 16)) (Some key32)).
  right; right; exact H.
Defined.

Lemma Encrypt_fails_iff_witness :
  len (Some key32) = 32 /\
  is_ok (fst (GenerateNonce tape)) = true /\
  is_ok (fst (Encrypt tag_Seal (Some []) (Some key32) tape)) = true.
Proof.
  split; [reflexivity|]. split; [reflexivity|].
  apply (proj2 (Encrypt_fails_iff tag_Seal (Some []) (Some key32) tape));
    reflexivity.
Defined.

(** C4, as stated, fails on the nil plaintext: it has length zero, the key
    has 32 bytes and the random source delivers, and [Encrypt] returns an
    error. *)
Lemma Encrypt_nil_plaintext :
  len (None : slice) = 0 /\
  len (Some key32) = 32 /\
  fst (GenerateNonce tape) = Ok (repeat Byte.x01 12) /\
  Encrypt tag_Seal None (Some key32) tape = (Err ErrPlaintextNil, tape).
Proof. repeat split. Qed.

(** ** kdf.go *)

Lemma Validate_Some_iff (p : Argon2Params) :
  (exists e, Validate p = Some e) <-> invalid_params p.
Proof.
  unfold Validate, invalid_params.
  destruct (Time p =? 0)%N eqn:E1;
    [apply N.eqb_eq in E1; split; eauto | apply N.eqb_neq in E1].
  destruct (Memory p =? 0)%N eqn:E2;
    [apply N.eqb_eq in E2; split; eauto | apply N.eqb_neq in E2].
  destruct (Parallelism p =? 0)%N eqn:E3;
    [apply N.eqb_eq in E3; split; eauto | apply N.eqb_neq in E3].
  destruct (KeyLen p =? 0)%N eqn:E4;
    [apply N.eqb_eq in E4; split; eauto 6 | apply N.eqb_neq in E4].
  destruct (KeyLen p <? 16)%N eqn:E5;
    [apply N.ltb_lt in E5; split; eauto 7 | apply N.ltb_ge in E5].
  change (8 * 1024)%N with 8192%N.
  destruct (Memory p <? 8192)%N eqn:E6;
    [apply N.ltb_lt in E6; split; eauto 8 | apply N.ltb_ge in E6].
  split; [intros [e H]; discriminate|].
  intros H. exfalso. intuition lia.
Qed.

Lemma Validate_None_iff (p : Argon2Params) :
  Validate p = None <-> ~ invalid_params p.
Proof.
  rewrite <- Validate_Some_iff. destruct (Validate p) as [e|].
  - split; [discriminate | intros H; exfalso; eauto].
  - split; [intros _ [e H]; discriminate | reflexivity].
Qed.

Section KDFClaims.

Variable argon2_IDKey : bytes -> bytes -> N -> N -> N -> N -> bytes.

(** [argon2.IDKey] returns [keyLen] bytes (it panics unless the time cost and
    the number of threads are at least 1). *)
Hypothesis IDKey_length : forall password salt time memory threads keyLen,
  (1 <= time)%N -> (1 <= threads)%N ->
  length (argon2_IDKey password salt time memory threads keyLen)
    = N.to_nat keyLen.

(** C5.  [DeriveKey] returns an error if and only if the password is empty,
    the salt has fewer than 8 bytes (the nil salt included) or the parameters
    are invalid: a zero time cost, memory cost, parallelism or key length, a
    key length below 16, or a memory cost below 8192 KiB.  On every other
    input it returns a key of [KeyLen] bytes. *)
Theorem DeriveKey_error_iff (password : string) (salt : slice)
  (params : Argon2Params) :
  ((exists e, DeriveKey argon2_IDKey password salt params = Err e) <->
   invalid_input password salt params) /\
  (~ invalid_input password salt params ->
   exists key,
     DeriveKey argon2_IDKey password salt params = Ok key /\
     length key = N.to_nat (KeyLen params)).
Proof.
  unfold DeriveKey, invalid_input.
  destruct (password =? "")%string eqn:Ep.
  { apply String.eqb_eq in Ep. split; [split; eauto | intros H; exfalso; auto]. }
  apply String.eqb_neq in Ep.
  destruct salt as [s|]; cbn [len].
  2:{ split; [split; [intros _; right; left; lia | eauto]
             | intros H; exfalso; apply H; right; left; lia]. }
  unfold MinSaltLength.
  destruct (length s <? 8) eqn:Es.
  { apply Nat.ltb_lt in Es.
    split; [split; eauto | intros H; exfalso; auto]. }
  apply Nat.ltb_ge in Es.
  destruct (Validate params) as [err|] eqn:Ev.
  - assert (Hinv : invalid_params params)
      by (apply Validate_Some_iff; eauto).
    split; [split; eauto | intros H; exfalso; auto].
  - apply Validate_None_iff in Ev. split.
    + split; [intros [e H]; discriminate|].
      intros [H|[H|H]]; [contradiction | lia | contradiction].
    + intros _. eexists. split; [reflexivity|].
      apply IDKey_length; unfold invalid_params in Ev; lia.
Qed.

End KDFClaims.

Lemma zero_IDKey_length password salt time memory threads keyLen :
  (1 <= time)%N -> (1 <= threads)%N ->
  length (zero_IDKey password salt time memory threads keyLen) = N.to_nat keyLen.
Proof. intros _ _. apply repeat_length. Qed.

Lemma DeriveKey_error_iff_witness :
  ~ invalid_input "test" (Some (repeat Byte.x00 16)) DefaultArgon2Params /\
  exists key,
    DeriveKey zero_IDKey "test" (Some (repeat Byte.x00 16)) DefaultArgon2Params
      = Ok key /\
    length key = N.to_nat (KeyLen DefaultArgon2Params).
Proof.
  assert (H : ~ invalid_input "test" (Some (repeat Byte.x00 16))
                DefaultArgon2Params).
  { unfold invalid_input, invalid_params. simpl.
    intros [H|[H|[H|[H|[H|[H|[H|H]]]]]]]; try discriminate; try lia. }
  split; [exact H|].
  apply (proj2 (DeriveKey_error_iff zero_IDKey zero_IDKey_length "test"
                  (Some (repeat Byte.x00 16)) DefaultArgon2Params)).
  exact H.
Defined.

(** ** storage/entry.go *)

(** *** The store monad *)

Lemma bind_Ok {A B} (m : Store A) (k : A -> Store B) s b s2 :
  bind m k s = (Ok b, s2) ->
  exists a s1, m s = (Ok a, s1) /\ k a s1 = (Ok b, s2).
Proof.
  unfold bind. destruct (m s) as [[a|e] s1]; [eauto | discriminate].
Qed.

Lemma bind_Err {A B} (m : Store A) (k : A -> Store B) s e s2 :
  bind m k s = (Err e, s2) ->
  m s = (Err e, s2) \/ exists a s1, m s = (Ok a, s1) /\ k a s1 = (Err e, s2).
Proof.
  unfold bind. destruct (m s) as [[a|e1] s1]; [eauto|].
  intros H. inversion H; subst. auto.
Qed.

Lemma entry_Ok s a s' : entry s = (Ok a, s') -> a = fst s /\ s' = s.
Proof. unfold entry. intros H. inversion H. auto. Qed.

Lemma world_Ok s a s' : world s = (Ok a, s') -> a = snd s /\ s' = s.
Proof. unfold world. intros H. inversion H. auto. Qed.

Lemma ret_Ok {A} (x : A) s a s' : ret x s = (Ok a, s') -> a = x /\ s' = s.
Proof. unfold ret. intros H. inversion H. auto. Qed.

Lemma reject_Ok cond e s a s' :
  reject cond e s = (Ok a, s') -> cond = false /\ s' = s.
Proof.
  unfold reject, fail, ret. destruct cond; intros H; inversion H. auto.
Qed.

Lemma modify_entry_Ok f s a s' :
  modify_entry f s = (Ok a, s') -> s' = (f (fst s), snd s).
Proof. unfold modify_entry. intros H. inversion H. auto. Qed.

Lemma put_world_Ok w s a s' :
  put_world w s = (Ok a, s') -> s' = (fst s, w).
Proof. unfold put_world. intros H. inversion H. auto. Qed.

Lemma now_Ok s t s' :
  now s = (Ok t, s') ->
  t = w_clock (snd s) (w_ticks (snd s)) /\ s' = (fst s, tick (snd s)).
Proof. unfold now, time_Now. intros H. inversion H. auto. Qed.

Lemma new_uuid_Ok s u s' :
  new_uuid s = (Ok u, s') ->
  exists us, w_uuids (snd s) = u :: us /\ s' = (fst s, set_uuids (snd s) us).
Proof.
  unfold new_uuid, uuid_New. destruct (w_uuids (snd s)) as [|u0 us];
    intros H; inversion H; subst. eauto.
Qed.

Section StorageFacts.

Variable gcm_Seal : bytes -> bytes -> bytes -> bytes -> bytes.
Variable json_Marshal : EntryData -> option bytes.

Lemma marshal_Ok d s b s' :
  marshal json_Marshal d s = (Ok b, s') -> json_Marshal d = Some b /\ s' = s.
Proof.
  unfold marshal, fail, ret. destruct (json_Marshal d); intros H; inversion H.
  auto.
Qed.

Lemma encrypt_Ok plaintext key wrap s c s' :
  encrypt gcm_Seal plaintext key wrap s = (Ok c, s') ->
  exists r, Encrypt gcm_Seal plaintext key (w_rand (snd s)) = (Ok c, r) /\
            s' = (fst s, set_rand (snd s) r).
Proof.
  unfold encrypt.
  destruct (Encrypt gcm_Seal plaintext key (w_rand (snd s))) as [[c0|e] r];
    intros H; inversion H; subst. eauto.
Qed.


Ltac bind_inv H a s H1 :=
  apply bind_Ok in H; destruct H as (a & s & H1 & H).

(** The block [if entry.ID == "" { entry.ID = uuid.New().String() }]. *)
Lemma assign_id_Ok (e : Entry) (w : World) u s :
  (if (ID e =? "")%string
   then bind new_uuid (fun u => modify_entry (fun e => set_ID e u))
   else ret tt) (e, w) = (Ok u, s) ->
  (ID e <> "" /\ s = (e, w)) \/
  (exists u0 us, ID e = "" /\ w_uuids w = u0 :: us /\
                 s = (set_ID e u0, set_uuids w us)).
Proof.
  destruct (ID e =? "")%string eqn:E.
  - apply String.eqb_eq in E. intros H.
    bind_inv H u0 s1 H1. apply new_uuid_Ok in H1.
    destruct H1 as (us & Hus & ->). apply modify_entry_Ok in H. subst s.
    right. exists u0, us. auto.
  - apply String.eqb_neq in E. intros H. apply ret_Ok in H.
    destruct H as [_ ->]. auto.
Qed.

(** The block [if entry.Category == "" { entry.Category = "general" }]. *)
Lemma default_category_Ok (e : Entry) (w : World) u s :
  (if (Category e =? "")%string
   then modify_entry (fun e => set_Category e "general")
   else ret tt) (e, w) = (Ok u, s) ->
  s = (set_Category e (stored_category e), w).
Proof.
  unfold stored_category. destruct (Category e =? "")%string eqn:E.
  - intros H. apply modify_entry_Ok in H. exact H.
  - intros H. apply ret_Ok in H. destruct H as [_ ->].
    destruct e; reflexivity.
Qed.

Lemma sql_insert_Ok row rows rows' :
  sql_insert row rows = Ok rows' ->
  rows' = rows ++ [row] /\
  existsb (hasID (r_id row)) rows = false /\
  existsb (hasName (r_name row)) rows = false.
Proof.
  unfold sql_insert.
  destruct (existsb (hasID (r_id row)) rows); [discriminate|].
  destruct (existsb (hasName (r_name row)) rows); [discriminate|].
  intros H. inversion H. auto.
Qed.

(** What a successful [CreateEntry] did. *)
Lemma createEntry_Ok (key : slice) (e e' : Entry) (w w' : World) :
  createEntry gcm_Seal json_Marshal key (e, w) = (Ok tt, (e', w')) ->
  exists row,
    w_rows w' = w_rows w ++ [row] /\
    existsb (hasID (r_id row)) (w_rows w) = false /\
    existsb (hasName (r_name row)) (w_rows w) = false /\
    r_id row = ID e' /\ r_name row = Name e /\
    r_category row = stored_category e /\
    r_created_at row = w_clock w (w_ticks w) /\
    r_updated_at row = w_clock w (w_ticks w) /\
    CreatedAt e' = w_clock w (w_ticks w) /\
    UpdatedAt e' = w_clock w (w_ticks w) /\
    ((ID e <> "" /\ ID e' = ID e /\ w_uuids w' = w_uuids w) \/
     (ID e = "" /\ w_uuids w = ID e' :: w_uuids w')).
Proof.
  unfold createEntry. intros H.
  bind_inv H e1 s1 H1. apply entry_Ok in H1. destruct H1 as [-> ->].
  cbn [fst snd] in H.
  bind_inv H u1 s1 H1. apply reject_Ok in H1. destruct H1 as [Hname ->].
  bind_inv H u2 s1 H1. apply reject_Ok in H1. destruct H1 as [Hpass ->].
  bind_inv H u3 s1 H1. apply reject_Ok in H1. destruct H1 as [Hkey ->].
  bind_inv H u4 s1 Hid.
  bind_inv H t s2 H1. apply now_Ok in H1. destruct H1 as [-> ->].
  bind_inv H u5 s3 H1. apply modify_entry_Ok in H1. subst s3.
  bind_inv H u6 s3 H1. apply modify_entry_Ok in H1. subst s3.
  bind_inv H e2 s3 H1. apply entry_Ok in H1. destruct H1 as [-> ->].
  cbn [fst snd] in H.
  bind_inv H u7 s3 Hcat. apply default_category_Ok in Hcat. subst s3.
  bind_inv H e3 s4 H1. apply entry_Ok in H1. destruct H1 as [-> ->].
  cbv zeta in H.
  bind_inv H dataJSON s4 H1. apply marshal_Ok in H1. destruct H1 as [Hjson ->].
  bind_inv H encryptedData s4 H1. apply encrypt_Ok in H1.
  destruct H1 as (r1 & Henc1 & ->).
  bind_inv H encryptedSearch s4 H1. apply encrypt_Ok in H1.
  destruct H1 as (r2 & Henc2 & ->).
  bind_inv H w1 s4 H1. apply world_Ok in H1. destruct H1 as [-> ->].
  cbn [fst snd] in H.
  match type of H with
  | match sql_insert ?row ?rows with _ => _ end _ = _ =>
    destruct (sql_insert row rows) as [rows'|err] eqn:Hins; [|discriminate];
    exists row
  end.
  apply put_world_Ok in H. inversion H; subst e' w'. clear H.
  apply sql_insert_Ok in Hins. destruct Hins as (-> & Hpk & Huq).
  apply assign_id_Ok in Hid.
  destruct Hid as [[Hne ->] | (u0 & us & He & Hus & ->)];
    cbn in *; repeat split; auto.
Qed.

(** C7, as the code has it.  After a successful [CreateEntry] the table is
    the old table with one more record.  That record carries the id the
    caller supplied when it is not empty, and otherwise the id that
    [uuid.New] generated; no record stored before has that id; and its
    created and updated timestamps are both the time read at creation.  The
    caller's entry is given the same id and timestamps. *)
Theorem CreateEntry_persists (e : Entry) (key : slice) (w : World)
  (p' : option Entry) (w' : World) :
  CreateEntry gcm_Seal json_Marshal (Some e) key w = (None, p', w') ->
  exists row e',
    p' = Some e' /\
    w_rows w' = w_rows w ++ [row] /\
    r_id row = ID e' /\
    ((ID e <> "" /\ r_id row = ID e /\ w_uuids w' = w_uuids w) \/
     (ID e = "" /\ w_uuids w = r_id row :: w_uuids w')) /\
    ~ In (r_id row) (map r_id (w_rows w)) /\
    r_created_at row = w_clock w (w_ticks w) /\
    r_updated_at row = w_clock w (w_ticks w) /\
    CreatedAt e' = r_created_at row /\
    UpdatedAt e' = r_updated_at row.
Proof.
  unfold CreateEntry, run_on.
  destruct (createEntry gcm_Seal json_Marshal key (e, w)) as [[[]|err] [e1 w1]] eqn:E;
    intros H; inversion H; subst p' w'. clear H.
  apply createEntry_Ok in E.
  destruct E as (row & Hrows & Hpk & _ & Hid & _ & _ & Hc & Hu & Hc' & Hu' & Hcase).
  exists row, e1.
  split; [reflexivity|]. split; [exact Hrows|]. split; [exact Hid|].
  split; [rewrite Hid; exact Hcase|].
  split; [|repeat split; congruence].
  intros Hin. apply in_map_iff in Hin. destruct Hin as (r & Hr & Hin).
  assert (Hex : existsb (hasID (r_id row)) (w_rows w) = true).
  { apply existsb_exists. exists r. split; [exact Hin|].
    unfold hasID. apply String.eqb_eq. exact Hr. }
  congruence.
Qed.

Lemma sql_update_Ok id set t rows rows' n :
  sql_update id set t rows = Ok (rows', n) ->
  rows' = map (fun r => if hasID id r
                        then update_entries_timestamp t (set r) else r) rows /\
  n = length (filter (hasID id) rows).
Proof.
  unfold sql_update.
  match goal with |- (if ?c then _ else _) = _ -> _ => destruct c end;
    [discriminate|].
  intros H. inversion H. auto.
Qed.

(** What a successful [UpdateEntry] did. *)
Lemma updateEntry_Ok (key : slice) (e e' : Entry) (w w' : World) :
  updateEntry gcm_Seal json_Marshal key (e, w) = (Ok tt, (e', w')) ->
  exists encryptedData encryptedSearch,
    w_rows w' =
      map (fun r =>
             if hasID (ID e) r
             then update_entries_timestamp (w_clock w (S (w_ticks w)))
                    (sql_set (Name e) (stored_category e)
                       encryptedData encryptedSearch
                       (w_clock w (w_ticks w))
                       (firstn 12 encryptedData) (firstn 12 encryptedSearch) r)
             else r) (w_rows w) /\
    filter (hasID (ID e)) (w_rows w) <> [] /\
    ID e' = ID e /\ CreatedAt e' = CreatedAt e /\
    UpdatedAt e' = w_clock w (w_ticks w).
Proof.
  unfold updateEntry. intros H.
  bind_inv H e1 s1 H1. apply entry_Ok in H1. destruct H1 as [-> ->].
  cbn [fst snd] in H.
  bind_inv H u0 s1 H1. apply reject_Ok in H1. destruct H1 as [Hid ->].
  bind_inv H u1 s1 H1. apply reject_Ok in H1. destruct H1 as [Hname ->].
  bind_inv H u2 s1 H1. apply reject_Ok in H1. destruct H1 as [Hpass ->].
  bind_inv H u3 s1 H1. apply reject_Ok in H1. destruct H1 as [Hkey ->].
  bind_inv H t s2 H1. apply now_Ok in H1. destruct H1 as [-> ->].
  bind_inv H u6 s3 H1. apply modify_entry_Ok in H1. subst s3.
  bind_inv H e2 s3 H1. apply entry_Ok in H1. destruct H1 as [-> ->].
  cbn [fst snd] in H.
  bind_inv H u7 s3 Hcat. apply default_category_Ok in Hcat. subst s3.
  bind_inv H e3 s4 H1. apply entry_Ok in H1. destruct H1 as [-> ->].
  cbv zeta in H.
  bind_inv H dataJSON s4 H1. apply marshal_Ok in H1. destruct H1 as [Hjson ->].
  bind_inv H encryptedData s4 H1. apply encrypt_Ok in H1.
  destruct H1 as (r1 & Henc1 & ->).
  bind_inv H encryptedSearch s4 H1. apply encrypt_Ok in H1.
  destruct H1 as (r2 & Henc2 & ->).
  bind_inv H db_now s4 H1. apply now_Ok in H1. destruct H1 as [-> ->].
  bind_inv H w1 s4 H1. apply world_Ok in H1. destruct H1 as [-> ->].
  cbn [fst snd] in H.
  match type of H with
  | match sql_update ?id ?set ?t ?rows with _ => _ end _ = _ =>
    destruct (sql_update id set t rows) as [[rows' n]|err] eqn:Hupd;
      [|discriminate]
  end.
  bind_inv H u8 s4 H1. apply put_world_Ok in H1. subst s4.
  apply reject_Ok in H. destruct H as [Hn H]. inversion H; subst e' w'. clear H.
  apply sql_update_Ok in Hupd. destruct Hupd as (-> & ->).
  exists encryptedData, encryptedSearch. cbn in *.
  split; [reflexivity|]. split; [|auto].
  intros Hnil. rewrite Hnil in Hn. discriminate.
Qed.

(** *** Failures leave the table alone *)

Lemma keeps_rows_bind {A B} (m : Store A) (k : A -> Store B) :
  keeps_rows m -> (forall a, keeps_rows (k a)) -> keeps_rows (bind m k).
Proof.
  unfold keeps_rows, bind. intros Hm Hk s r s'.
  destruct (m s) as [[a|e] s1] eqn:E; intros H.
  - rewrite (Hk _ _ _ _ H). eapply Hm; eauto.
  - inversion H; subst. eapply Hm; eauto.
Qed.

Lemma keeps_rows_if {A} (c : bool) (m1 m2 : Store A) :
  keeps_rows m1 -> keeps_rows m2 -> keeps_rows (if c then m1 else m2).
Proof. destruct c; auto. Qed.

Lemma keeps_rows_entry : keeps_rows entry.
Proof. intros s r s' H. inversion H. reflexivity. Qed.

Lemma keeps_rows_world : keeps_rows world.
Proof. intros s r s' H. inversion H. reflexivity. Qed.

Lemma keeps_rows_ret {A} (a : A) : keeps_rows (ret a).
Proof. intros s r s' H. inversion H. reflexivity. Qed.

Lemma keeps_rows_fail {A} e : keeps_rows (@fail A e).
Proof. intros s r s' H. inversion H. reflexivity. Qed.

Lemma keeps_rows_reject c e : keeps_rows (reject c e).
Proof.
  unfold reject. apply keeps_rows_if;
    [apply keeps_rows_fail | apply keeps_rows_ret].
Qed.

Lemma keeps_rows_modify_entry f : keeps_rows (modify_entry f).
Proof. intros s r s' H. inversion H. reflexivity. Qed.

Lemma keeps_rows_now : keeps_rows now.
Proof. intros s r s' H. inversion H. reflexivity. Qed.

Lemma keeps_rows_new_uuid : keeps_rows new_uuid.
Proof.
  intros s r s'. unfold new_uuid, uuid_New.
  destruct (w_uuids (snd s)); intros H; inversion H; reflexivity.
Qed.

Lemma keeps_rows_marshal d : keeps_rows (marshal json_Marshal d).
Proof.
  unfold marshal. destruct (json_Marshal d);
    [apply keeps_rows_ret | apply keeps_rows_fail].
Qed.

Lemma keeps_rows_encrypt plaintext key wrap :
  keeps_rows (encrypt gcm_Seal plaintext key wrap).
Proof.
  intros s r s'. unfold encrypt.
  destruct (Encrypt gcm_Seal plaintext key (w_rand (snd s))) as [[c|e] r1];
    intros H; inversion H; reflexivity.
Qed.

Lemma fails_keeping_rows_bind {A B} (m : Store A) (k : A -> Store B) :
  keeps_rows m -> (forall a, fails_keeping_rows (k a)) ->
  fails_keeping_rows (bind m k).
Proof.
  unfold keeps_rows, fails_keeping_rows, bind. intros Hm Hk s e s'.
  destruct (m s) as [[a|e1] s1] eqn:E; intros H.
  - rewrite (Hk _ _ _ _ H). eapply Hm; eauto.
  - inversion H; subst. eapply Hm; eauto.
Qed.

Create HintDb store.

#[local] Hint Resolve keeps_rows_bind keeps_rows_if keeps_rows_entry
  keeps_rows_world keeps_rows_ret keeps_rows_fail keeps_rows_reject
  keeps_rows_modify_entry keeps_rows_now keeps_rows_new_uuid
  keeps_rows_marshal keeps_rows_encrypt : store.

Ltac fails_step :=
  cbv zeta; apply fails_keeping_rows_bind; [auto 6 with store | intros ?].

Lemma createEntry_Err (key : slice) :
  fails_keeping_rows (createEntry gcm_Seal json_Marshal key).
Proof.
  unfold createEntry. do 14 fails_step.
  intros s e s'. unfold bind, world. cbn [fst snd].
  destruct (sql_insert _ _); intros H; inversion H. reflexivity.
Qed.

Lemma map_unmatched (id : string) (g : Row -> Row) (rows : list Row) :
  filter (hasID id) rows = [] ->
  map (fun r => if hasID id r then g r else r) rows = rows.
Proof.
  induction rows as [|r rows IH]; simpl; [reflexivity|].
  destruct (hasID id r); [discriminate|].
  intros H. rewrite IH by exact H. reflexivity.
Qed.

Lemma updateEntry_Err (key : slice) :
  fails_keeping_rows (updateEntry gcm_Seal json_Marshal key).
Proof.
  unfold updateEntry. do 14 fails_step.
  intros s e s'. unfold bind, world, put_world, reject, fail, ret.
  cbn [fst snd].
  destruct (sql_update _ _ _ _) as [[rows n]|err] eqn:Hupd.
  - apply sql_update_Ok in Hupd. destruct Hupd as [-> ->].
    match goal with
    | |- (if ?c then _ else _) _ = _ -> _ => destruct c eqn:En
    end; intros H; inversion H; subst. cbn [snd w_rows set_rows].
    apply Nat.eqb_eq in En. apply length_zero_iff_nil in En.
    apply map_unmatched. exact En.
  - intros H. inversion H. reflexivity.
Qed.

(** *** Updating a record that is not there *)

Lemma Encrypt_ready (pt k : bytes) (r : Rand) :
  length k = 32 -> 12 <= length r ->
  Encrypt gcm_Seal (Some pt) (Some k) r
    = (Ok (firstn 12 r ++ gcm_Seal k (firstn 12 r) pt []), skipn 12 r).
Proof.
  intros Hk Hr. unfold Encrypt. rewrite Hk. cbn [Nat.eqb negb].
  rewrite (aes_NewCipher_32 _ Hk).
  cbv beta iota delta [cipher_NewGCM aes_BlockSize Nat.eqb].
  unfold GenerateNonce, rand_Read, DefaultNonceSize.
  replace (length r <? 12) with false by (symmetry; apply Nat.ltb_ge; lia).
  reflexivity.
Qed.

Lemma entryData_set_Category e c : entryData (set_Category e c) = entryData e.
Proof. reflexivity. Qed.

Lemma entryData_set_UpdatedAt e t : entryData (set_UpdatedAt e t) = entryData e.
Proof. reflexivity. Qed.

Lemma sql_update_unmatched id set t rows :
  filter (hasID id) rows = [] -> sql_update id set t rows = Ok (rows, 0).
Proof.
  intros Hf. unfold sql_update.
  rewrite Hf, (map_unmatched _ _ _ Hf).
  match goal with |- (if ?c then _ else _) = _ => destruct c eqn:E end;
    [|reflexivity].
  apply existsb_exists in E. destruct E as (r & Hin & Hr).
  apply andb_prop in Hr. destruct Hr as [Hr _].
  assert (Hin' : In r (filter (hasID id) rows))
    by (apply filter_In; auto).
  rewrite Hf in Hin'. contradiction.
Qed.

Lemma updateEntry_NotFound (key : slice) (e : Entry) (w : World) :
  update_ready json_Marshal key e w ->
  filter (hasID (ID e)) (w_rows w) = [] ->
  exists e' w',
    updateEntry gcm_Seal json_Marshal key (e, w)
      = (Err (ErrNotFound (ID e)), (e', w')).
Proof.
  intros (Hid & Hname & Hpass & Hkey & Hjson & Hrand) Hf.
  destruct key as [k|]; cbn [len] in Hkey; [|discriminate].
  apply String.eqb_neq in Hid, Hname, Hpass.
  destruct (json_Marshal (entryData e)) as [dataJSON|] eqn:Ej; [|congruence].
  unfold updateEntry, bind, entry, world, reject, modify_entry, put_world,
    now, time_Now, fail, ret.
  cbn [fst snd]. rewrite Hid, Hname, Hpass. cbn [bad_key].
  rewrite Hkey. cbn [Nat.eqb negb fst snd].
  assert (Hcat : forall t,
    (if (Category (set_UpdatedAt e t) =? "")%string
     then fun s : Entry * World =>
            (Ok tt : result storage_error unit,
             (set_Category (fst s) "general", snd s))
     else fun s => (Ok tt, s)) (set_UpdatedAt e t, tick w)
    = (Ok tt, (set_Category (set_UpdatedAt e t) (stored_category e), tick w))).
  { intros t. unfold stored_category. cbn [Category set_UpdatedAt].
    destruct (Category e =? "")%string; [reflexivity|].
    destruct e; reflexivity. }
  rewrite Hcat. cbn [fst snd]. unfold marshal, encrypt.
  rewrite entryData_set_Category, entryData_set_UpdatedAt, Ej.
  unfold ret. cbn [fst snd w_rand tick].
  rewrite Encrypt_ready by (auto; lia). cbn [fst snd w_rand set_rand].
  rewrite Encrypt_ready by (auto; rewrite length_skipn; lia).
  cbn [fst snd w_rows set_rand tick ID set_Category set_UpdatedAt].
  rewrite sql_update_unmatched by exact Hf.
  cbn [length Nat.eqb]. eauto.
Qed.

(** *** The claims on [CreateEntry] and [UpdateEntry] *)

Lemma CURRENT_TIMESTAMP_bounds (t : time) :
  (CURRENT_TIMESTAMP t <= t < CURRENT_TIMESTAMP t + nsPerSecond)%Z.
Proof.
  unfold CURRENT_TIMESTAMP, nsPerSecond.
  pose proof (Z.mul_div_le t 1000000000 ltac:(lia)).
  pose proof (Z.mul_succ_div_gt t 1000000000 ltac:(lia)).
  lia.
Qed.

Lemma filter_hasID_nil (id : string) (rows : list Row) :
  (forall r, In r rows -> r_id r <> id) -> filter (hasID id) rows = [].
Proof.
  induction rows as [|r rows IH]; simpl; [reflexivity|].
  intros H. destruct (hasID id r) eqn:E.
  - exfalso. apply (H r); [auto|]. apply String.eqb_eq. exact E.
  - apply IH. intros r' Hin. apply H. auto.
Qed.

Lemma filter_hasID_In (id : string) (rows : list Row) :
  filter (hasID id) rows <> [] -> exists r, In r rows /\ r_id r = id.
Proof.
  destruct (filter (hasID id) rows) as [|r l] eqn:E; [congruence|].
  intros _. assert (Hin : In r (filter (hasID id) rows))
    by (rewrite E; left; reflexivity).
  apply filter_In in Hin. destruct Hin as [Hin Hr].
  exists r. split; [exact Hin|]. apply String.eqb_eq. exact Hr.
Qed.

(** X28.  What [UpdateEntry] does to the table as the code stands.  A
    successful [UpdateEntry] finds the record, keeps every record's id and
    created timestamp and leaves the other records alone; the updated
    timestamp it stores is not the [time.Now()] it binds but the trigger's
    [CURRENT_TIMESTAMP], the clock read by the database cut down to the
    whole second: less than a second behind that reading, and later than
    the previous value whenever the reading is at least a second after it.
    When no record has the id, [UpdateEntry] fails and the table is as
    before; the failure is the not-found error whenever record, key,
    encoder and entropy are in order. *)
Theorem UpdateEntry_timestamps (e : Entry) (key : slice) (w : World)
  (p' : option Entry) (w' : World) :
  (UpdateEntry gcm_Seal json_Marshal (Some e) key w = (None, p', w') ->
   updated_in_place e w w') /\
  ((forall r, In r (w_rows w) -> r_id r <> ID e) ->
   exists err p1 w1,
     UpdateEntry gcm_Seal json_Marshal (Some e) key w = (Some err, p1, w1) /\
     w_rows w1 = w_rows w /\
     (update_ready json_Marshal key e w -> err = ErrNotFound (ID e))).
Proof.
  unfold UpdateEntry, run_on. split.
  - destruct (updateEntry gcm_Seal json_Marshal key (e, w))
      as [[[]|err] [e1 w1]] eqn:E; intros H; inversion H; subst p' w'. clear H.
    apply updateEntry_Ok in E.
    destruct E as (d1 & d2 & Hrows & Hf & _).
    unfold updated_in_place. rewrite Hrows.
    split; [apply filter_hasID_In; exact Hf|].
    split; [rewrite map_map; apply map_ext; intros r;
            destruct (hasID (ID e) r); reflexivity|].
    split; [rewrite map_map; apply map_ext; intros r;
            destruct (hasID (ID e) r); reflexivity|].
    split.
    { intros r' Hin Hr'. apply in_map_iff in Hin.
      destruct Hin as (r & <- & Hin).
      destruct (hasID (ID e) r) eqn:Eh; [reflexivity|].
      apply String.eqb_neq in Eh. contradiction. }
    split.
    { intros r' Hin Hr'. apply in_map_iff in Hin.
      destruct Hin as (r & <- & Hin).
      destruct (hasID (ID e) r) eqn:Eh; [|exact Hin].
      exfalso. apply Hr'. apply String.eqb_eq in Eh. exact Eh. }
    split; [apply CURRENT_TIMESTAMP_bounds|].
    intros r _ _ Hold.
    pose proof (CURRENT_TIMESTAMP_bounds (w_clock w (S (w_ticks w)))). lia.
  - intros Hno. apply filter_hasID_nil in Hno.
    destruct (updateEntry gcm_Seal json_Marshal key (e, w))
      as [[[]|err] [e1 w1]] eqn:E.
    + apply updateEntry_Ok in E. destruct E as (d1 & d2 & _ & Hf & _).
      contradiction.
    + exists err, (Some e1), w1. split; [reflexivity|].
      split; [apply (updateEntry_Err _ _ _ _ E)|].
      intros Hready.
      destruct (updateEntry_NotFound key e w Hready Hno) as (e2 & w2 & E2).
      congruence.
Qed.


End StorageFacts.

Lemma CreateEntry_persists_witness :
  let out := CreateEntry tag_Seal plain_Marshal (Some github) (Some key32) world0 in
  fst (fst out) = None /\
  exists row e',
    snd (fst out) = Some e' /\
    w_rows (snd out) = w_rows world0 ++ [row] /\
    r_id row = ID e' /\
    ((ID github <> "" /\ r_id row = ID github /\
      w_uuids (snd out) = w_uuids world0) \/
     (ID github = "" /\ w_uuids world0 = r_id row :: w_uuids (snd out))) /\
    ~ In (r_id row) (map r_id (w_rows world0)) /\
    r_created_at row = w_clock world0 (w_ticks world0) /\
    r_updated_at row = w_clock world0 (w_ticks world0) /\
    CreatedAt e' = r_created_at row /\
    UpdatedAt e' = r_updated_at row.
Proof.
  intros out. split; [vm_compute; reflexivity|].
  apply (CreateEntry_persists tag_Seal plain_Marshal github (Some key32) world0
           (snd (fst out)) (snd out)).
  vm_compute. reflexivity.
Defined.

(** C7, as stated, fails on a record that comes with an id: the record is
    stored under the caller's id, and no id is generated. *)
Lemma CreateEntry_keeps_supplied_id :
  let out := CreateEntry tag_Seal plain_Marshal (Some github) (Some key32) world0 in
  ID github = "my-id" /\
  w_uuids world0 = ["uuid-1"; "uuid-2"] /\
  fst (fst out) = None /\
  map r_id (w_rows (snd out)) = ["my-id"] /\
  w_uuids (snd out) = ["uuid-1"; "uuid-2"].
Proof. cbv zeta. repeat split; vm_compute; reflexivity. Qed.

Lemma UpdateEntry_timestamps_witness :
  let created :=
    CreateEntry tag_Seal plain_Marshal (Some github) (Some key32) world0 in
  let out :=
    UpdateEntry tag_Seal plain_Marshal (Some github) (Some key32) (snd created) in
  fst (fst out) = None /\ updated_in_place github (snd created) (snd out).
Proof.
  intros created out. split; [vm_compute; reflexivity|].
  apply (proj1 (UpdateEntry_timestamps tag_Seal plain_Marshal github
                  (Some key32) (snd created) (snd (fst out)) (snd out))).
  vm_compute. reflexivity.
Defined.

(** C8 at one input.  The record is created at 10.5 s, with both timestamps
    at 10.5 s.  It is updated while the clock reads 10.6 s and then 10.7 s:
    [UpdateEntry] succeeds, sets the caller's [UpdatedAt] to 10.6 s and binds
    that value to the statement, and the trigger then overwrites the column
    with [CURRENT_TIMESTAMP], 10 s.  The stored updated timestamp is earlier
    than the value it replaces, earlier than the created timestamp, and
    earlier than what [UpdateEntry] left with the caller; [CreateEntry]
    stored exactly what it left with the caller. *)
Theorem UpdateEntry_updated_at_earlier :
  let created :=
    CreateEntry tag_Seal plain_Marshal (Some github) (Some key32) world0 in
  let out :=
    UpdateEntry tag_Seal plain_Marshal (snd (fst created)) (Some key32)
      (snd created) in
  (forall n, w_clock world0 n <= w_clock world0 (S n))%Z /\
  fst (fst created) = None /\
  option_map UpdatedAt (snd (fst created)) = Some 10500000000%Z /\
  map r_created_at (w_rows (snd created)) = [10500000000%Z] /\
  map r_updated_at (w_rows (snd created)) = [10500000000%Z] /\
  fst (fst out) = None /\
  option_map UpdatedAt (snd (fst out)) = Some 10600000000%Z /\
  map r_created_at (w_rows (snd out)) = [10500000000%Z] /\
  map r_updated_at (w_rows (snd out)) = [10000000000%Z].
Proof.
  cbv zeta. split.
  { intros [|[|[|n]]]; cbn; try lia. destruct n; cbn; lia. }
  repeat split; vm_compute; reflexivity.
Qed.


(** ** password.go *)

(** *** What [Generate] does keep *)

Lemma rand_Int_loop_bound max mask r n r' :
  rand_Int_loop max mask r = (Some n, r') -> (n < max)%N.
Proof.
  induction r as [|b r IH]; cbn [rand_Int_loop]; [discriminate|].
  destruct (N.land (Byte.to_N b) mask <? max)%N eqn:E; [|exact IH].
  intros H. inversion H; subst. apply N.ltb_lt. exact E.
Qed.

Lemma rand_Int_bound max r n r' :
  rand_Int max r = (Some n, r') -> (n < max)%N.
Proof.
  unfold rand_Int. destruct (max =? 0)%N eqn:E0; [discriminate|].
  apply N.eqb_neq in E0.
  destruct (N.size (max - 1) =? 0)%N.
  - intros H. inversion H; subst. lia.
  - apply rand_Int_loop_bound.
Qed.

Lemma byteAt_in_range s i : i < String.length s -> byteAt s i <> None.
Proof.
  unfold byteAt. revert i.
  induction s as [|c s IH]; intros i; cbn [String.length String.get]; [lia|].
  destruct i; [discriminate|]. intros H. apply IH. lia.
Qed.

Lemma string_of_list_ascii_length l :
  String.length (string_of_list_ascii l) = length l.
Proof. induction l; cbn; congruence. Qed.

Lemma fillPassword_spec n charset r res r' :
  fillPassword n charset r = (res, r') ->
  match res with
  | Ok password => length password = n
  | Err e => e = ErrRandomNumber
  end.
Proof.
  revert r res r'. induction n as [|n IH]; intros r res r'; cbn [fillPassword].
  - intros H. inversion H. reflexivity.
  - destruct (rand_Int (N.of_nat (String.length charset)) r)
      as [[idx|] r1] eqn:Er.
    2:{ intros H. inversion H. reflexivity. }
    apply rand_Int_bound in Er.
    destruct (byteAt charset (N.to_nat idx)) as [c|] eqn:Ec.
    2:{ exfalso. revert Ec. apply byteAt_in_range. lia. }
    destruct (fillPassword n charset r1) as [[rest|e] r2] eqn:Ef;
      apply IH in Ef; intros H; inversion H; subst; cbn; congruence.
Qed.

Lemma setAt_in_range buf i c :
  i < length buf ->
  exists buf', setAt buf i c = Some buf' /\ length buf' = length buf.
Proof.
  revert i. induction buf as [|x buf IH]; intros i; cbn [length setAt]; [lia|].
  destruct i as [|i]; [eauto|]. intros H.
  destruct (IH i ltac:(lia)) as (buf' & -> & Hlen).
  eexists. split; [reflexivity|]. cbn. congruence.
Qed.

Lemma forceClass_in_range enabled class rep bump password idx :
  byteAt rep 0 <> None -> idx < length password ->
  exists password' idx',
    forceClass enabled class rep bump (password, idx) = Some (password', idx') /\
    length password' = length password /\ idx' <= S idx.
Proof.
  intros Hrep Hidx. unfold forceClass.
  destruct (enabled && negb (containsAny (string_of_list_ascii password) class)).
  - destruct (byteAt rep 0) as [c|]; [|congruence].
    destruct (setAt_in_range password idx c Hidx) as (password' & -> & Hlen).
    exists password', (if bump then S idx else idx).
    repeat split; [exact Hlen | destruct bump; lia].
  - exists password, idx. repeat split. lia.
Qed.

(** On a buffer of four bytes or more, [forceRequirements] does not run out
    of the buffer, and it returns a password of the same length. *)
Lemma forceRequirements_in_range password options :
  4 <= length password ->
  exists forced,
    forceRequirements password options = Some forced /\
    String.length forced = length password.
Proof.
  intros Hlen. unfold forceRequirements.
  destruct (forceClass_in_range (UseUppercase options) uppercaseCharsAmbiguous
              (if ExcludeAmbiguous options then uppercaseChars
               else uppercaseCharsAmbiguous) true password 0)
    as (p1 & i1 & -> & L1 & I1);
    [destruct (ExcludeAmbiguous options); discriminate | lia |].
  destruct (forceClass_in_range (UseLowercase options) lowercaseCharsAmbiguous
              (if ExcludeAmbiguous options then lowercaseChars
               else lowercaseCharsAmbiguous) true p1 i1)
    as (p2 & i2 & -> & L2 & I2);
    [destruct (ExcludeAmbiguous options); discriminate | lia |].
  destruct (forceClass_in_range (UseDigits options) digitCharsAmbiguous
              (if ExcludeAmbiguous options then digitChars
               else digitCharsAmbiguous) true p2 i2)
    as (p3 & i3 & -> & L3 & I3);
    [destruct (ExcludeAmbiguous options); discriminate | lia |].
  destruct (forceClass_in_range (UseSymbols options) symbolChars symbolChars
              false p3 i3)
    as (p4 & i4 & -> & L4 & I4); [discriminate | lia |].
  eexists. split; [reflexivity|].
  rewrite string_of_list_ascii_length. lia.
Qed.

Lemma buildCharset_nonempty options :
  UseUppercase options || UseLowercase options || UseDigits options
    || UseSymbols options = true ->
  buildCharset options <> "".
Proof.
  destruct options as [[] [] [] [] []]; cbn; intros H;
    solve [discriminate H | discriminate].
Qed.

(** For a length in [4, 128] and at least one class, [Generate] fails only
    when the random source does; a password it returns has the length that
    was asked for. *)
Lemma generateWithRetries_sound length_ options retryCount r res r' :
  generateWithRetries length_ options retryCount r = (res, r') ->
  match res with
  | Ok password =>
    (MinPasswordLength <= length_ <= MaxPasswordLength)%Z /\
    String.length password = Z.to_nat length_
  | Err e =>
    (MinPasswordLength <= length_ <= MaxPasswordLength)%Z ->
    buildCharset options <> "" -> e = ErrRandomNumber
  end.
Proof.
  funelim (generateWithRetries length_ options retryCount r).
  destruct (length_ <? MinPasswordLength)%Z eqn:E1.
  { intros H'. inversion H'; subst. apply Z.ltb_lt in E1. lia. }
  apply Z.ltb_ge in E1.
  destruct (length_ >? MaxPasswordLength)%Z eqn:E2.
  { intros H'. inversion H'; subst. apply Z.gtb_lt in E2. lia. }
  assert (E2' : (length_ <= MaxPasswordLength)%Z)
    by (rewrite Z.gtb_ltb in E2; apply Z.ltb_ge in E2; exact E2).
  destruct (buildCharset options =? "")%string eqn:E3.
  { intros H'. inversion H'; subst. apply String.eqb_eq in E3. congruence. }
  destruct (fillPassword (Z.to_nat length_) (buildCharset options) r)
    as [[password|e] r1] eqn:Ef; apply fillPassword_spec in Ef.
  2:{ intros H'. inversion H'; subst. reflexivity. }
  destruct (negb (meetsRequirements (string_of_list_ascii password) options)).
  2:{ intros H'. inversion H'; subst. rewrite string_of_list_ascii_length. auto. }
  destruct (lt_dec retryCount maxRetries) as [Hlt|Hge].
  { intros H'. eapply H; eauto. constructor; exact password. }
  destruct (forceRequirements_in_range password options) as (forced & -> & Hl).
  { rewrite Ef. unfold MinPasswordLength in E1. lia. }
  intros H'. inversion H'; subst. split; [auto|]. congruence.
Qed.

(** C6 at one input.  With all four classes enabled and a random source
    that makes each of the eleven attempts spell "A0!!", [Generate 4]
    returns "a0!!": the patch for the missing lowercase letter is written at
    position 0, over the only uppercase letter, and the result has no
    character of the enabled uppercase class. *)
Theorem Generate_drops_enabled_class :
  fillPassword 4 (buildCharset all_classes)
    [Byte.x00; Byte.x34; Byte.x3e; Byte.x3e]
    = (Ok ["A"; "0"; "!"; "!"]%char, []) /\
  forceRequirements ["A"; "0"; "!"; "!"]%char all_classes = Some "a0!!" /\
  Generate 4 all_classes A0_tape = (Ok "a0!!", []) /\
  UseUppercase all_classes = true /\
  containsAny "a0!!" uppercaseCharsAmbiguous = false /\
  meetsRequirements "a0!!" all_classes = false.
Proof. repeat split; vm_compute; reflexivity. Qed.

(** ** The listing *)

Lemma ascii_compare_N (a b : ascii) :
  Ascii.compare a b = N.compare (N_of_ascii a) (N_of_ascii b).
Proof. reflexivity. Qed.

Lemma string_leb_trans (s1 s2 s3 : string) :
  String.leb s1 s2 = true -> String.leb s2 s3 = true -> String.leb s1 s3 = true.
Proof.
  unfold String.leb. revert s2 s3.
  induction s1 as [|a s1 IH]; intros [|b s2] [|c s3]; cbn [String.compare];
    try reflexivity; try discriminate.
  rewrite !ascii_compare_N.
  destruct (N.compare_spec (N_of_ascii a) (N_of_ascii b)) as [Hab|Hab|Hab],
           (N.compare_spec (N_of_ascii b) (N_of_ascii c)) as [Hbc|Hbc|Hbc],
           (N.compare_spec (N_of_ascii a) (N_of_ascii c)) as [Hac|Hac|Hac];
    try reflexivity; try discriminate; try lia.
  apply IH.
Qed.

Lemma insert_by_name_Permutation (r : Row) (rows : list Row) :
  Permutation (insert_by_name r rows) (r :: rows).
Proof.
  induction rows as [|r' rows IH]; cbn [insert_by_name]; [reflexivity|].
  destruct (String.leb (r_name r) (r_name r')); [reflexivity|].
  rewrite IH. apply perm_swap.
Qed.

Lemma order_by_name_Permutation (rows : list Row) :
  Permutation (order_by_name rows) rows.
Proof.
  induction rows as [|r rows IH]; cbn; [reflexivity|].
  rewrite insert_by_name_Permutation. constructor. exact IH.
Qed.

Lemma insert_by_name_sorted (r : Row) (rows : list Row) :
  StronglySorted row_name_le rows ->
  StronglySorted row_name_le (insert_by_name r rows).
Proof.
  induction rows as [|r' rows IH]; cbn [insert_by_name]; intros Hs.
  - constructor; constructor.
  - inversion Hs as [|? ? Hs' Hall]; subst.
    destruct (String.leb (r_name r) (r_name r')) eqn:E.
    + constructor; [exact Hs|]. constructor; [exact E|].
      eapply Forall_impl; [|exact Hall].
      intros x Hx. unfold row_name_le in *. eapply string_leb_trans; eauto.
    + constructor; [apply IH; exact Hs'|].
      assert (Hr : row_name_le r' r).
      { unfold row_name_le.
        destruct (String.leb_total (r_name r) (r_name r')); congruence. }
      eapply Permutation_Forall;
        [symmetry; apply insert_by_name_Permutation|].
      constructor; assumption.
Qed.

Lemma order_by_name_sorted (rows : list Row) :
  StronglySorted row_name_le (order_by_name rows).
Proof.
  induction rows as [|r rows IH]; cbn; [constructor|].
  apply insert_by_name_sorted. exact IH.
Qed.

Lemma StronglySorted_map_scan_listed (rows : list Row) :
  StronglySorted row_name_le rows ->
  StronglySorted name_le (map scan_listed rows).
Proof.
  induction 1 as [|r rows Hs IH Hall]; cbn [map]; constructor; [exact IH|].
  apply Forall_map. eapply Forall_impl; [|exact Hall].
  intros x Hx. exact Hx.
Qed.


(** * Further properties *)

(** ** Reading records back *)

Lemma entryData_set_ID e v : entryData (set_ID e v) = entryData e.
Proof. reflexivity. Qed.

Lemma entryData_set_CreatedAt e t : entryData (set_CreatedAt e t) = entryData e.
Proof. reflexivity. Qed.

Lemma existsb_hasID_false (id : string) (rows : list Row) :
  existsb (hasID id) rows = false -> find (hasID id) rows = None.
Proof.
  induction rows as [|r rows IH]; cbn; [reflexivity|].
  destruct (hasID id r); [discriminate|]. exact IH.
Qed.

Lemma existsb_hasName_false (name : string) (rows : list Row) :
  existsb (hasName name) rows = false -> find (hasName name) rows = None.
Proof.
  induction rows as [|r rows IH]; cbn; [reflexivity|].
  destruct (hasName name r); [discriminate|]. exact IH.
Qed.

Lemma find_app_None {A} (f : A -> bool) (l1 l2 : list A) :
  find f l1 = None -> find f (l1 ++ l2) = find f l2.
Proof.
  induction l1 as [|x l1 IH]; cbn; [reflexivity|].
  destruct (f x); [discriminate|]. exact IH.
Qed.

Lemma find_map_hasID (id : string) (g : Row -> Row) (rows : list Row) :
  (forall r, r_id (g r) = r_id r) ->
  find (hasID id) (map g rows) = option_map g (find (hasID id) rows).
Proof.
  intros Hg. induction rows as [|r rows IH]; cbn; [reflexivity|].
  unfold hasID at 1. rewrite Hg. fold (hasID id r).
  destruct (hasID id r); [reflexivity | exact IH].
Qed.

Lemma find_hasID_id (id : string) (rows : list Row) (r : Row) :
  find (hasID id) rows = Some r -> In r rows /\ r_id r = id.
Proof.
  intros H. apply find_some in H. destruct H as [Hin Hr].
  split; [exact Hin|]. apply String.eqb_eq. exact Hr.
Qed.

Lemma find_hasID_None (id : string) (rows : list Row) :
  find (hasID id) rows = None <-> (forall r, In r rows -> r_id r <> id).
Proof.
  split.
  - intros H r Hin Hr. apply (find_none _ _ H) in Hin.
    unfold hasID in Hin. apply String.eqb_neq in Hin. contradiction.
  - intros H. destruct (find (hasID id) rows) as [r|] eqn:E; [|reflexivity].
    apply find_hasID_id in E. destruct E as [Hin Hr].
    exfalso. exact (H r Hin Hr).
Qed.

Lemma bad_key_false_iff (key : slice) : bad_key key = false <-> len key = 32.
Proof.
  destruct key as [k|]; cbn; [|split; discriminate].
  destruct (length k =? 32) eqn:E; cbn.
  - apply Nat.eqb_eq in E. tauto.
  - apply Nat.eqb_neq in E. split; [discriminate | contradiction].
Qed.

Section StoreReads.

Variable gcm_Seal : bytes -> bytes -> bytes -> bytes -> bytes.
Variable gcm_Open : bytes -> bytes -> bytes -> bytes -> option bytes.
Variable json_Marshal : EntryData -> option bytes.
Variable json_Unmarshal : bytes -> option EntryData.

Ltac bind_ok H a s H1 :=
  apply bind_Ok in H; destruct H as (a & s & H1 & H).

(** The record a successful [CreateEntry] stores, in full. *)
Lemma createEntry_stored (key : slice) (e e' : Entry) (w w' : World) :
  createEntry gcm_Seal json_Marshal key (e, w) = (Ok tt, (e', w')) ->
  let t := w_clock w (w_ticks w) in
  exists dataJSON encryptedData encryptedSearch r1,
    Name e <> "" /\ bad_key key = false /\
    json_Marshal (entryData e) = Some dataJSON /\
    Encrypt gcm_Seal (Some dataJSON) key (w_rand w) = (Ok encryptedData, r1) /\
    (ID e = "" -> w_uuids w <> []) /\
    e' = set_Category
           (set_UpdatedAt (set_CreatedAt (set_ID e (assigned_id e w)) t) t)
           (stored_category e) /\
    existsb (hasID (assigned_id e w)) (w_rows w) = false /\
    existsb (hasName (Name e)) (w_rows w) = false /\
    w_rows w' =
      w_rows w ++
      [{| r_id := assigned_id e w; r_name := Name e;
          r_category := stored_category e;
          r_encrypted_data := encryptedData;
          r_encrypted_search := encryptedSearch;
          r_created_at := t; r_updated_at := t;
          r_encryption_nonce := firstn 12 encryptedData;
          r_search_nonce := firstn 12 encryptedSearch |}].
Proof.
  unfold createEntry. intros H.
  bind_ok H e1 s1 H1. apply entry_Ok in H1. destruct H1 as [-> ->].
  cbn [fst snd] in H.
  bind_ok H u1 s1 H1. apply reject_Ok in H1. destruct H1 as [Hname ->].
  bind_ok H u2 s1 H1. apply reject_Ok in H1. destruct H1 as [Hpass ->].
  bind_ok H u3 s1 H1. apply reject_Ok in H1. destruct H1 as [Hkey ->].
  bind_ok H u4 s1 Hid.
  bind_ok H t s2 H1. apply now_Ok in H1. destruct H1 as [-> ->].
  bind_ok H u5 s3 H1. apply modify_entry_Ok in H1. subst s3.
  bind_ok H u6 s3 H1. apply modify_entry_Ok in H1. subst s3.
  bind_ok H e2 s3 H1. apply entry_Ok in H1. destruct H1 as [-> ->].
  cbn [fst snd] in H.
  bind_ok H u7 s3 Hcat. apply default_category_Ok in Hcat. subst s3.
  bind_ok H e3 s4 H1. apply entry_Ok in H1. destruct H1 as [-> ->].
  cbv zeta in H.
  bind_ok H dataJSON s4 H1. apply marshal_Ok in H1. destruct H1 as [Hjson ->].
  bind_ok H encryptedData s4 H1. apply encrypt_Ok in H1.
  destruct H1 as (r1 & Henc1 & ->).
  bind_ok H encryptedSearch s4 H1. apply encrypt_Ok in H1.
  destruct H1 as (r2 & Henc2 & ->).
  bind_ok H w1 s4 H1. apply world_Ok in H1. destruct H1 as [-> ->].
  cbn [fst snd] in H.
  match type of H with
  | match sql_insert ?row ?rows with _ => _ end _ = _ =>
    destruct (sql_insert row rows) as [rows'|err] eqn:Hins; [|discriminate]
  end.
  apply put_world_Ok in H. inversion H; subst e' w'. clear H.
  apply sql_insert_Ok in Hins. destruct Hins as (-> & Hpk & Huq).
  apply String.eqb_neq in Hname.
  exists dataJSON, encryptedData, encryptedSearch, r1.
  apply assign_id_Ok in Hid.
  destruct Hid as [[Hne ->] | (u0 & us & He & Hus & ->)].
  - assert (Ha : assigned_id e w = ID e).
    { unfold assigned_id. apply String.eqb_neq in Hne. rewrite Hne.
      reflexivity. }
    rewrite Ha. cbn in *.
    replace (set_ID e (ID e)) with e by (destruct e; reflexivity).
    unfold stored_category in *. cbn in *.
    repeat split; auto; congruence.
  - assert (Ha : assigned_id e w = u0).
    { unfold assigned_id. rewrite He, Hus. reflexivity. }
    rewrite Ha. cbn in *. unfold stored_category in *. cbn in *.
    repeat split; auto; try (intros _; rewrite Hus; discriminate).
Qed.

(** The table a successful [UpdateEntry] leaves, in full. *)
Lemma updateEntry_stored (key : slice) (e e' : Entry) (w w' : World) :
  updateEntry gcm_Seal json_Marshal key (e, w) = (Ok tt, (e', w')) ->
  exists dataJSON encryptedData encryptedSearch r1,
    ID e <> "" /\ Name e <> "" /\ bad_key key = false /\
    json_Marshal (entryData e) = Some dataJSON /\
    Encrypt gcm_Seal (Some dataJSON) key (w_rand w) = (Ok encryptedData, r1) /\
    w_rows w' =
      map (fun r =>
             if hasID (ID e) r
             then update_entries_timestamp (w_clock w (S (w_ticks w)))
                    (sql_set (Name e) (stored_category e)
                       encryptedData encryptedSearch
                       (w_clock w (w_ticks w))
                       (firstn 12 encryptedData) (firstn 12 encryptedSearch) r)
             else r) (w_rows w) /\
    existsb (fun r => hasID (ID e) r &&
               existsb (fun r' => negb (hasID (ID e) r') &&
                                  (r_name r' =? Name e)%string) (w_rows w))
            (w_rows w) = false /\
    filter (hasID (ID e)) (w_rows w) <> [].
Proof.
  unfold updateEntry. intros H.
  bind_ok H e1 s1 H1. apply entry_Ok in H1. destruct H1 as [-> ->].
  cbn [fst snd] in H.
  bind_ok H u0 s1 H1. apply reject_Ok in H1. destruct H1 as [Hid ->].
  bind_ok H u1 s1 H1. apply reject_Ok in H1. destruct H1 as [Hname ->].
  bind_ok H u2 s1 H1. apply reject_Ok in H1. destruct H1 as [Hpass ->].
  bind_ok H u3 s1 H1. apply reject_Ok in H1. destruct H1 as [Hkey ->].
  bind_ok H t s2 H1. apply now_Ok in H1. destruct H1 as [-> ->].
  bind_ok H u6 s3 H1. apply modify_entry_Ok in H1. subst s3.
  bind_ok H e2 s3 H1. apply entry_Ok in H1. destruct H1 as [-> ->].
  cbn [fst snd] in H.
  bind_ok H u7 s3 Hcat. apply default_category_Ok in Hcat. subst s3.
  bind_ok H e3 s4 H1. apply entry_Ok in H1. destruct H1 as [-> ->].
  cbv zeta in H.
  bind_ok H dataJSON s4 H1. apply marshal_Ok in H1. destruct H1 as [Hjson ->].
  bind_ok H encryptedData s4 H1. apply encrypt_Ok in H1.
  destruct H1 as (r1 & Henc1 & ->).
  bind_ok H encryptedSearch s4 H1. apply encrypt_Ok in H1.
  destruct H1 as (r2 & Henc2 & ->).
  bind_ok H db_now s4 H1. apply now_Ok in H1. destruct H1 as [-> ->].
  bind_ok H w1 s4 H1. apply world_Ok in H1. destruct H1 as [-> ->].
  cbn [fst snd] in H.
  match type of H with
  | match sql_update ?id ?set ?t ?rows with _ => _ end _ = _ =>
    destruct (sql_update id set t rows) as [[rows' n]|err] eqn:Hupd;
      [|discriminate]
  end.
  bind_ok H u8 s4 H1. apply put_world_Ok in H1. subst s4.
  apply reject_Ok in H. destruct H as [Hn H]. inversion H; subst e' w'. clear H.
  assert (Hchk := Hupd). unfold sql_update in Hchk.
  match type of Hchk with
  | (if ?c then _ else _) = _ => destruct c eqn:Huq; [discriminate|]
  end. clear Hchk.
  apply sql_update_Ok in Hupd. destruct Hupd as (-> & ->).
  apply String.eqb_neq in Hid, Hname.
  exists dataJSON, encryptedData, encryptedSearch, r1. cbn in *.
  repeat split; auto.
  intros Hnil. rewrite Hnil in Hn. discriminate.
Qed.

(** The round trip of the cipher, on a key known to be in order. *)
Lemma Decrypt_of_Encrypt (pt : bytes) (key : slice) (r r' : Rand) (c : bytes) :
  (forall k nonce p ad, length k = 32 -> length nonce = 12 ->
     length (gcm_Seal k nonce p ad) = length p + gcmTagSize) ->
  (forall k nonce p ad, length k = 32 -> length nonce = 12 ->
     gcm_Open k nonce (gcm_Seal k nonce p ad) ad = Some p) ->
  Encrypt gcm_Seal (Some pt) key r = (Ok c, r') ->
  Decrypt gcm_Open (Some c) key = Ok pt.
Proof.
  intros Hover Hopen H. apply Encrypt_Ok in H.
  destruct H as (pt' & k & nonce & Hpt & -> & Hk & Hn & ->).
  inversion Hpt; subst pt'. clear Hpt.
  apply GenerateNonce_Ok in Hn. destruct Hn as (Hlen & _).
  unfold Decrypt. rewrite Hk. cbn [Nat.eqb negb].
  rewrite length_app, Hover by assumption.
  replace (length nonce + (length pt + gcmTagSize) <? minCiphertextSize) with false
    by (symmetry; apply Nat.ltb_ge; unfold minCiphertextSize, gcmTagSize,
        DefaultNonceSize; lia).
  rewrite (aes_NewCipher_32 _ Hk).
  cbv beta iota zeta delta [cipher_NewGCM aes_BlockSize Nat.eqb].
  replace (length nonce + (length pt + gcmTagSize) <? gcm_NonceSize) with false
    by (symmetry; apply Nat.ltb_ge; unfold gcm_NonceSize; lia).
  unfold gcm_NonceSize. rewrite firstn_app, skipn_app, Hlen, Nat.sub_diag.
  rewrite firstn_all2, skipn_all2 by lia. cbn [firstn skipn app].
  rewrite app_nil_r. rewrite Hopen by assumption. reflexivity.
Qed.

Section WithContract.

(** The contract of the AEAD, as for the round trip of the cipher. *)
Hypothesis gcm_Overhead : forall key nonce pt ad,
  length key = 32 -> length nonce = 12 ->
  length (gcm_Seal key nonce pt ad) = length pt + gcmTagSize.

Hypothesis gcm_Open_Seal : forall key nonce pt ad,
  length key = 32 -> length nonce = 12 ->
  gcm_Open key nonce (gcm_Seal key nonce pt ad) ad = Some pt.

(** X1.  What [CreateEntry] stored can be read back: after a successful
    [CreateEntry], [GetEntry] at the id of the record and [GetEntryByName]
    at its name both return the entry exactly as [CreateEntry] left it with
    the caller (id, category and timestamps filled in, payload as given),
    provided the decoder reads the payload the encoder wrote and the id is
    not the empty string. *)
Theorem GetEntry_after_CreateEntry (e : Entry) (key : slice) (w : World)
  (e' : Entry) (w' : World) :
  (forall b, json_Marshal (entryData e) = Some b ->
             json_Unmarshal b = Some (entryData e)) ->
  CreateEntry gcm_Seal json_Marshal (Some e) key w = (None, Some e', w') ->
  ID e' <> "" ->
  GetEntry gcm_Open json_Unmarshal (ID e') key w' = Ok e' /\
  GetEntryByName gcm_Open json_Unmarshal (Name e) key w' = Ok e'.
Proof.
  intros Hjson Hcreate Hid. unfold CreateEntry, run_on in Hcreate.
  destruct (createEntry gcm_Seal json_Marshal key (e, w))
    as [[[]|err] [e1 w1]] eqn:E; inversion Hcreate; subst e1 w1.
  clear Hcreate. apply createEntry_stored in E. cbv zeta in E.
  destruct E as (dataJSON & c1 & c2 & r1 & Hname & Hkey & Hm & Henc & _ &
                 He' & Hpk & Huq & Hrows).
  assert (Hget : GetEntry gcm_Open json_Unmarshal (ID e') key w' = Ok e').
  { unfold GetEntry. apply String.eqb_neq in Hid. rewrite Hid, Hkey, Hrows.
    assert (Hide : ID e' = assigned_id e w) by (rewrite He'; reflexivity).
    rewrite Hide, find_app_None by (apply existsb_hasID_false; exact Hpk).
    cbn [find]. unfold hasID. cbn [r_id]. rewrite String.eqb_refl. cbv zeta.
    cbn [r_encrypted_data].
    rewrite (Decrypt_of_Encrypt _ _ _ _ _ gcm_Overhead gcm_Open_Seal Henc).
    rewrite (Hjson _ Hm). rewrite He'. destruct e; reflexivity. }
  split; [exact Hget|].
  unfold GetEntryByName. apply String.eqb_neq in Hname. rewrite Hname.
  rewrite Hrows at 1.
  rewrite find_app_None by (apply existsb_hasName_false; exact Huq).
  cbn [find]. unfold hasName. cbn [r_name]. rewrite String.eqb_refl.
  cbn [r_id].
  rewrite <- Hget. f_equal. rewrite He'. reflexivity.
Qed.

(** X2.  What [UpdateEntry] stored can be read back: after a successful
    [UpdateEntry], [GetEntry] at the id returns the new name, category and
    payload, the created timestamp the record had, and as updated timestamp
    the [CURRENT_TIMESTAMP] of the update. *)
Theorem GetEntry_after_UpdateEntry (e : Entry) (key : slice) (w : World)
  (p' : option Entry) (w' : World) :
  (forall b, json_Marshal (entryData e) = Some b ->
             json_Unmarshal b = Some (entryData e)) ->
  UpdateEntry gcm_Seal json_Marshal (Some e) key w = (None, p', w') ->
  exists old,
    find (hasID (ID e)) (w_rows w) = Some old /\
    GetEntry gcm_Open json_Unmarshal (ID e) key w' =
      Ok {| ID := ID e; Name := Name e; Category := stored_category e;
            Username := Username e; Password := Password e; URL := URL e;
            Notes := Notes e; Tags := Tags e;
            CreatedAt := r_created_at old;
            UpdatedAt := CURRENT_TIMESTAMP (w_clock w (S (w_ticks w))) |}.
Proof.
  intros Hjson Hupdate. unfold UpdateEntry, run_on in Hupdate.
  destruct (updateEntry gcm_Seal json_Marshal key (e, w))
    as [[[]|err] [e1 w1]] eqn:E; inversion Hupdate; subst p' w1.
  clear Hupdate. apply updateEntry_stored in E.
  destruct E as (dataJSON & c1 & c2 & r1 & Hid & Hname & Hkey & Hm & Henc &
                 Hrows & _ & Hf).
  destruct (find (hasID (ID e)) (w_rows w)) as [old|] eqn:Hold.
  2:{ exfalso. apply Hf. apply filter_hasID_nil.
      apply find_hasID_None. exact Hold. }
  exists old. split; [reflexivity|].
  unfold GetEntry. apply String.eqb_neq in Hid. rewrite Hid, Hkey, Hrows.
  rewrite find_map_hasID
    by (intros r; destruct (hasID (ID e) r); reflexivity).
  rewrite Hold. cbn [option_map].
  assert (Hh : hasID (ID e) old = true) by (apply (find_some _ _ Hold)).
  rewrite Hh. cbv zeta.
  cbn [r_encrypted_data update_entries_timestamp sql_set].
  rewrite (Decrypt_of_Encrypt _ _ _ _ _ gcm_Overhead gcm_Open_Seal Henc).
  rewrite (Hjson _ Hm). unfold populate, scan_listed. cbn.
  apply find_hasID_id in Hold. destruct Hold as [_ ->]. reflexivity.
Qed.

End WithContract.

(** X3.  [GetEntry] reports that the record is not found exactly when the
    id is not empty, the key has 32 bytes and no record has the id; and
    when the record is there but its tag does not verify under the key, the
    failure is the decryption error, not the not-found error. *)
Theorem GetEntry_not_found_iff (id : string) (key : slice) (w : World) :
  (forall x, GetEntry gcm_Open json_Unmarshal id key w = Err (ErrIDNotFound x)
     <-> (x = id /\ id <> "" /\ len key = 32 /\
          forall r, In r (w_rows w) -> r_id r <> id)) /\
  (forall row,
     id <> "" -> len key = 32 ->
     find (hasID id) (w_rows w) = Some row ->
     28 <= length (r_encrypted_data row) ->
     tag_rejected gcm_Open (Some (r_encrypted_data row)) key ->
     GetEntry gcm_Open json_Unmarshal id key w
       = Err (ErrDecryptData ErrDecryptionFailed)).
Proof.
  split.
  - intros x. unfold GetEntry.
    destruct (id =? "")%string eqn:Eid.
    { apply String.eqb_eq in Eid. split; [discriminate | tauto]. }
    apply String.eqb_neq in Eid.
    destruct (bad_key key) eqn:Ek.
    { split; [discriminate|]. intros (_ & _ & Hk & _).
      apply bad_key_false_iff in Hk. congruence. }
    apply bad_key_false_iff in Ek.
    destruct (find (hasID id) (w_rows w)) as [row|] eqn:Ef.
    + split.
      * cbv zeta.
        destruct (Decrypt gcm_Open (Some (r_encrypted_data row)) key);
          [destruct (json_Unmarshal a)|]; discriminate.
      * intros (_ & _ & _ & Hno). apply find_hasID_id in Ef.
        destruct Ef as [Hin Hr]. exfalso. exact (Hno row Hin Hr).
    + split.
      * intros H. inversion H; subst x.
        split; [reflexivity|]. split; [exact Eid|]. split; [exact Ek|].
        apply find_hasID_None. exact Ef.
      * intros (-> & _). reflexivity.
  - intros row Hid Hk Hf Hlen Hrej. unfold GetEntry.
    apply String.eqb_neq in Hid. rewrite Hid.
    rewrite (proj2 (bad_key_false_iff key) Hk), Hf. cbv zeta.
    destruct Hrej as (ct & k & Hct & -> & Hopen). inversion Hct; subst ct.
    cbn [len] in Hk. unfold Decrypt. rewrite Hk. cbn [Nat.eqb negb].
    replace (length (r_encrypted_data row) <? minCiphertextSize) with false
      by (symmetry; apply Nat.ltb_ge; unfold minCiphertextSize,
          DefaultNonceSize; lia).
    rewrite (aes_NewCipher_32 _ Hk).
    cbv beta iota zeta delta [cipher_NewGCM aes_BlockSize Nat.eqb].
    replace (length (r_encrypted_data row) <? gcm_NonceSize) with false
      by (symmetry; apply Nat.ltb_ge; unfold gcm_NonceSize; lia).
    rewrite Hopen. reflexivity.
Qed.

End StoreReads.

(** ** Deleting, keys and counts *)

Lemma find_filter_other (id id' : string) (rows : list Row) :
  id' <> id ->
  find (hasID id') (filter (fun r => negb (hasID id r)) rows)
    = find (hasID id') rows.
Proof.
  intros Hne. induction rows as [|r rows IH]; cbn; [reflexivity|].
  destruct (hasID id r) eqn:E1; cbn.
  - destruct (hasID id' r) eqn:E2; [|exact IH].
    exfalso. apply Hne. unfold hasID in *.
    apply String.eqb_eq in E1, E2. congruence.
  - destruct (hasID id' r); [reflexivity | exact IH].
Qed.

Lemma find_filter_self (id : string) (rows : list Row) :
  find (hasID id) (filter (fun r => negb (hasID id r)) rows) = None.
Proof.
  induction rows as [|r rows IH]; cbn; [reflexivity|].
  destruct (hasID id r) eqn:E; cbn; [exact IH|]. rewrite E. exact IH.
Qed.

Lemma filter_split_length {A} (f : A -> bool) (l : list A) :
  length (filter f l) + length (filter (fun x => negb (f x)) l) = length l.
Proof.
  induction l as [|x l IH]; cbn; [reflexivity|].
  destruct (f x); cbn; lia.
Qed.

Lemma existsb_hasID_notin (id : string) (rows : list Row) :
  existsb (hasID id) rows = false -> ~ In id (map r_id rows).
Proof.
  intros H Hin. apply in_map_iff in Hin. destruct Hin as (r & Hr & Hin).
  assert (Hex : existsb (hasID id) rows = true).
  { apply existsb_exists. exists r. split; [exact Hin|].
    apply String.eqb_eq. exact Hr. }
  congruence.
Qed.

Lemma existsb_hasName_notin (name : string) (rows : list Row) :
  existsb (hasName name) rows = false -> ~ In name (map r_name rows).
Proof.
  intros H Hin. apply in_map_iff in Hin. destruct Hin as (r & Hr & Hin).
  assert (Hex : existsb (hasName name) rows = true).
  { apply existsb_exists. exists r. split; [exact Hin|].
    apply String.eqb_eq. exact Hr. }
  congruence.
Qed.

Lemma NoDup_snoc {A} (l : list A) (x : A) :
  NoDup l -> ~ In x l -> NoDup (l ++ [x]).
Proof.
  intros Hl Hx. eapply Permutation_NoDup.
  - apply Permutation_cons_append.
  - constructor; assumption.
Qed.

Lemma NoDup_map_filter {A B} (g : A -> B) (f : A -> bool) (l : list A) :
  NoDup (map g l) -> NoDup (map g (filter f l)).
Proof.
  induction l as [|x l IH]; cbn; [auto|].
  intros H. inversion H as [|? ? Hx Hl]; subst.
  destruct (f x); cbn; [|auto].
  constructor; [|auto].
  intros Hin. apply Hx. apply in_map_iff in Hin.
  destruct Hin as (y & Hy & Hin). apply filter_In in Hin.
  apply in_map_iff. exists y. tauto.
Qed.

Lemma NoDup_filter_hasID (id : string) (rows : list Row) :
  NoDup (map r_id rows) -> length (filter (hasID id) rows) <= 1.
Proof.
  induction rows as [|r rows IH]; cbn; [lia|].
  intros H. inversion H as [|? ? Hx Hl]; subst.
  destruct (hasID id r) eqn:E; [|auto]. cbn.
  rewrite (filter_hasID_nil id rows); [cbn; lia|].
  intros r' Hin Hr'. apply Hx. apply String.eqb_eq in E.
  apply in_map_iff. exists r'. split; [congruence | exact Hin].
Qed.

(** Renaming the record with a given id keeps names apart, when the ids were
    apart and no other record held the new name. *)
Lemma NoDup_renamed (id n : string) (rows : list Row) :
  NoDup (map r_id rows) -> NoDup (map r_name rows) ->
  (forall r r', In r rows -> In r' rows ->
                hasID id r = true -> hasID id r' = false -> r_name r' <> n) ->
  NoDup (map (fun r => if hasID id r then n else r_name r) rows).
Proof.
  induction rows as [|r rows IH]; cbn [map]; [constructor|].
  intros Hid Hnm Hchk.
  inversion Hid as [|? ? Hx1 Hl1]; inversion Hnm as [|? ? Hx2 Hl2]; subst.
  constructor.
  - intros Hin. apply in_map_iff in Hin. destruct Hin as (r' & Hr' & Hin).
    destruct (hasID id r) eqn:E, (hasID id r') eqn:E'.
    + apply Hx1. apply String.eqb_eq in E, E'.
      apply in_map_iff. exists r'. split; [congruence | exact Hin].
    + apply (Hchk r r'); cbn; auto.
    + apply (Hchk r' r); cbn; auto.
    + apply Hx2. apply in_map_iff. exists r'. auto.
  - apply IH; auto. intros a b Ha Hb. apply Hchk; cbn; auto.
Qed.

Section StoreUpdates.

Variable gcm_Seal : bytes -> bytes -> bytes -> bytes -> bytes.
Variable gcm_Open : bytes -> bytes -> bytes -> bytes -> option bytes.
Variable json_Marshal : EntryData -> option bytes.
Variable json_Unmarshal : bytes -> option EntryData.

(** X4.  [DeleteEntry] on a non-empty id: when no record has the id it
    fails with the not-found error and leaves the table as it is; when one
    has, it succeeds, the records with another id stay, in their order, and
    can be read as before, and [GetEntry] at the deleted id then reports
    not found. *)
Theorem DeleteEntry_removes (id : string) (key : slice) (w : World) :
  id <> "" ->
  ((forall r, In r (w_rows w) -> r_id r <> id) ->
   fst (DeleteEntry id w) = Some (ErrNotFound id) /\
   w_rows (snd (DeleteEntry id w)) = w_rows w) /\
  ((exists r, In r (w_rows w) /\ r_id r = id) ->
   fst (DeleteEntry id w) = None /\
   w_rows (snd (DeleteEntry id w))
     = filter (fun r => negb (hasID id r)) (w_rows w) /\
   (len key = 32 ->
    GetEntry gcm_Open json_Unmarshal id key (snd (DeleteEntry id w))
      = Err (ErrIDNotFound id)) /\
   (forall id', id' <> id ->
      GetEntry gcm_Open json_Unmarshal id' key (snd (DeleteEntry id w))
        = GetEntry gcm_Open json_Unmarshal id' key w)).
Proof.
  intros Hid. unfold DeleteEntry, sql_delete.
  apply String.eqb_neq in Hid. rewrite Hid. split.
  - intros Hno. rewrite (filter_hasID_nil _ _ Hno). cbn. split; [reflexivity|].
    clear Hid. induction (w_rows w) as [|r rows IH]; cbn; [reflexivity|].
    destruct (hasID id r) eqn:E.
    + exfalso. apply (Hno r); [left; reflexivity|].
      apply String.eqb_eq. exact E.
    + cbn. rewrite IH; [reflexivity|]. intros r' Hin. apply Hno. right. exact Hin.
  - intros (r & Hin & Hr).
    destruct (length (filter (hasID id) (w_rows w)) =? 0) eqn:En.
    { exfalso. apply Nat.eqb_eq in En. apply length_zero_iff_nil in En.
      assert (Hf : In r (filter (hasID id) (w_rows w))).
      { apply filter_In. split; [exact Hin|]. apply String.eqb_eq. exact Hr. }
      rewrite En in Hf. contradiction. }
    cbn [fst snd w_rows set_rows]. split; [reflexivity|].
    split; [reflexivity|]. split.
    + intros Hk. unfold GetEntry. rewrite Hid.
      rewrite (proj2 (bad_key_false_iff key) Hk).
      cbn [w_rows set_rows]. rewrite find_filter_self. reflexivity.
    + intros id' Hne. unfold GetEntry. cbn [w_rows set_rows].
      rewrite (find_filter_other _ _ _ Hne). reflexivity.
Qed.

Lemma update_check_false (id n : string) (rows : list Row) :
  existsb (fun r => hasID id r &&
             existsb (fun r' => negb (hasID id r') && (r_name r' =? n)%string)
                     rows) rows = false ->
  forall r r', In r rows -> In r' rows ->
               hasID id r = true -> hasID id r' = false -> r_name r' <> n.
Proof.
  intros H r r' Hin Hin' Hr Hr' Hn.
  assert (Hex : existsb (fun r => hasID id r &&
             existsb (fun r' => negb (hasID id r') && (r_name r' =? n)%string)
                     rows) rows = true).
  { apply existsb_exists. exists r. split; [exact Hin|].
    rewrite Hr. cbn. apply existsb_exists. exists r'. split; [exact Hin'|].
    rewrite Hr'. cbn. apply String.eqb_eq. exact Hn. }
  congruence.
Qed.

Lemma step_well_keyed (w : World) (o : op) :
  well_keyed w -> well_keyed (step gcm_Seal json_Marshal w o).
Proof.
  unfold well_keyed. intros [Hids Hnames].
  destruct o as [p key|p key|id]; cbn [step].
  - unfold CreateEntry, run_on. destruct p as [e|]; [|auto].
    destruct (createEntry gcm_Seal json_Marshal key (e, w))
      as [[[]|err] [e1 w1]] eqn:E; cbn [snd].
    + apply createEntry_Ok in E.
      destruct E as (row & Hrows & Hpk & Huq & _ & Hn & _).
      rewrite Hrows, !map_app. cbn [map]. split.
      * apply NoDup_snoc; [exact Hids|]. apply existsb_hasID_notin. exact Hpk.
      * apply NoDup_snoc; [exact Hnames|].
        apply existsb_hasName_notin. exact Huq.
    + pose proof (createEntry_Err _ _ _ _ _ _ E) as Hk. cbn [snd] in Hk.
      rewrite Hk. auto.
  - unfold UpdateEntry, run_on. destruct p as [e|]; [|auto].
    destruct (updateEntry gcm_Seal json_Marshal key (e, w))
      as [[[]|err] [e1 w1]] eqn:E; cbn [snd].
    + apply updateEntry_stored in E.
      destruct E as (d & c1 & c2 & r1 & _ & _ & _ & _ & _ & Hrows & Hchk & _).
      rewrite Hrows, !map_map. split.
      * erewrite map_ext; [exact Hids|].
        intros r. destruct (hasID (ID e) r); reflexivity.
      * erewrite map_ext
          with (g := fun r => if hasID (ID e) r then Name e else r_name r).
        2:{ intros r. destruct (hasID (ID e) r); reflexivity. }
        apply NoDup_renamed; auto.
        apply update_check_false. exact Hchk.
    + pose proof (updateEntry_Err _ _ _ _ _ _ E) as Hk. cbn [snd] in Hk.
      rewrite Hk. auto.
  - unfold DeleteEntry, sql_delete.
    destruct (id =? "")%string; [auto|].
    destruct (length (filter (hasID id) (w_rows w)) =? 0);
      cbn [snd w_rows set_rows]; split; apply NoDup_map_filter; assumption.
Qed.

(** X5.  The keys of the schema are kept: whatever sequence of creations,
    updates and deletions is run on a table in which no two records share
    an id and no two share a name, the same holds of the table afterwards. *)
Theorem run_well_keyed (ops : list op) (w : World) :
  well_keyed w -> well_keyed (run gcm_Seal json_Marshal ops w).
Proof.
  unfold run. revert w. induction ops as [|o ops IH]; intros w Hw; [exact Hw|].
  cbn [fold_left]. apply IH. apply step_well_keyed. exact Hw.
Qed.

(** X6.  [CountEntries] follows the operations: a successful [CreateEntry]
    raises it by one, a successful [UpdateEntry] leaves it, a failed
    [CreateEntry] or [UpdateEntry] leaves it, and a successful [DeleteEntry]
    on a table with distinct ids lowers it by one. *)
Theorem CountEntries_steps (p : option Entry) (key : slice) (id : string)
  (w : World) :
  (CountEntries (snd (CreateEntry gcm_Seal json_Marshal p key w))
     = match fst (fst (CreateEntry gcm_Seal json_Marshal p key w)) with
       | Some _ => CountEntries w
       | None => S (CountEntries w)
       end) /\
  CountEntries (snd (UpdateEntry gcm_Seal json_Marshal p key w))
    = CountEntries w /\
  (NoDup (map r_id (w_rows w)) -> fst (DeleteEntry id w) = None ->
   S (CountEntries (snd (DeleteEntry id w))) = CountEntries w).
Proof.
  unfold CountEntries. split; [|split].
  - unfold CreateEntry, run_on. destruct p as [e|]; [|reflexivity].
    destruct (createEntry gcm_Seal json_Marshal key (e, w))
      as [[[]|err] [e1 w1]] eqn:E; cbn [fst snd].
    + apply createEntry_Ok in E. destruct E as (row & Hrows & _).
      rewrite Hrows, length_app. cbn. lia.
    + pose proof (createEntry_Err _ _ _ _ _ _ E) as Hk. cbn [snd] in Hk.
      rewrite Hk. reflexivity.
  - unfold UpdateEntry, run_on. destruct p as [e|]; [|reflexivity].
    destruct (updateEntry gcm_Seal json_Marshal key (e, w))
      as [[[]|err] [e1 w1]] eqn:E; cbn [fst snd].
    + apply updateEntry_Ok in E. destruct E as (d1 & d2 & Hrows & _).
      rewrite Hrows, length_map. reflexivity.
    + pose proof (updateEntry_Err _ _ _ _ _ _ E) as Hk. cbn [snd] in Hk.
      rewrite Hk. reflexivity.
  - intros Hids. unfold DeleteEntry, sql_delete.
    destruct (id =? "")%string; [discriminate|].
    pose proof (NoDup_filter_hasID id _ Hids) as Hle.
    pose proof (filter_split_length (hasID id) (w_rows w)) as Hsplit.
    destruct (length (filter (hasID id) (w_rows w)) =? 0) eqn:En;
      [discriminate|].
    apply Nat.eqb_neq in En. intros _. cbn [snd w_rows set_rows]. lia.
Qed.

(** *** When [CreateEntry] and [UpdateEntry] go through *)

(** With record, key, encoder and entropy in order, [CreateEntry] comes down
    to the insert of one row. *)
Lemma createEntry_ready (key : slice) (e : Entry) (w : World) :
  create_ready json_Marshal key e w ->
  exists row e1 w1,
    r_id row = assigned_id e w /\ r_name row = Name e /\
    w_rows w1 = w_rows w /\
    createEntry gcm_Seal json_Marshal key (e, w) =
      match sql_insert row (w_rows w) with
      | Err err => (Err (ErrInsert err), (e1, w1))
      | Ok rows => (Ok tt, (e1, set_rows w1 rows))
      end.
Proof.
  intros (Hname & Hpass & Hkey & Huuid & Hjson & Hrand).
  destruct key as [k|]; cbn [len] in Hkey; [|discriminate].
  apply String.eqb_neq in Hname, Hpass.
  destruct (json_Marshal (entryData e)) as [dataJSON|] eqn:Ej; [|congruence].
  assert (Hassign :
    (if (ID e =? "")%string
     then bind new_uuid (fun u => modify_entry (fun e => set_ID e u))
     else ret tt) (e, w)
    = (Ok tt, (set_ID e (assigned_id e w),
               if (ID e =? "")%string then set_uuids w (tl (w_uuids w)) else w))).
  { unfold assigned_id. destruct (ID e =? "")%string eqn:Eid.
    - apply String.eqb_eq in Eid. specialize (Huuid Eid).
      unfold bind, new_uuid, uuid_New, modify_entry. cbn [fst snd].
      destruct (w_uuids w) as [|u us]; [congruence|]. reflexivity.
    - unfold ret. destruct e; reflexivity. }
  set (w1 := if (ID e =? "")%string then set_uuids w (tl (w_uuids w)) else w)
    in *.
  assert (Hw1 : w_rows w1 = w_rows w /\ w_rand w1 = w_rand w).
  { unfold w1. destruct (ID e =? "")%string; split; reflexivity. }
  destruct Hw1 as [Hrows1 Hrand1].
  unfold createEntry.
  unfold bind at 1. unfold entry at 1. cbn [fst snd].
  unfold bind at 1. unfold reject at 1. rewrite Hname. unfold ret at 1.
  unfold bind at 1. unfold reject at 1. rewrite Hpass. unfold ret at 1.
  unfold bind at 1. unfold reject at 1. cbn [bad_key]. rewrite Hkey.
  cbn [Nat.eqb negb]. unfold ret at 1.
  unfold bind at 1. rewrite Hassign.
  unfold bind, entry, world, modify_entry, put_world, now, time_Now, fail, ret.
  cbn [fst snd].
  assert (Hcat : forall x : Entry,
    (if (Category x =? "")%string
     then fun s : Entry * World =>
            (Ok tt : result storage_error unit,
             (set_Category (fst s) "general", snd s))
     else fun s => (Ok tt, s)) (x, tick w1)
    = (Ok tt, (set_Category x (stored_category x), tick w1))).
  { intros x. unfold stored_category.
    destruct (Category x =? "")%string; [reflexivity|].
    destruct x; reflexivity. }
  rewrite Hcat. cbn [fst snd]. unfold marshal, encrypt.
  rewrite entryData_set_Category, entryData_set_UpdatedAt,
    entryData_set_CreatedAt, entryData_set_ID, Ej.
  unfold ret. cbn [fst snd w_rand tick]. rewrite Hrand1.
  rewrite Encrypt_ready by (auto; lia). cbn [fst snd w_rand set_rand].
  rewrite Encrypt_ready by (auto; rewrite length_skipn; lia).
  cbn [fst snd w_rows set_rand tick]. rewrite Hrows1.
  match goal with
  | |- exists _ _ _, _ /\ _ /\ _ /\
         match sql_insert ?row _ with _ => _ end (?e1, ?w2) = _ =>
    exists row, e1, w2
  end.
  split; [reflexivity|]. split; [reflexivity|].
  split; [cbn; exact Hrows1|].
  destruct (sql_insert _ (w_rows w)); reflexivity.
Qed.

(** X7.  With a valid record and key, an id to give it, a working encoder
    and entropy for two nonces, [CreateEntry] succeeds if and only if
    neither the id the record gets nor its name is taken; when the name is
    taken and the id is not, it fails on the unique-name constraint.  A
    failed [CreateEntry] leaves the table as it is. *)
Theorem CreateEntry_succeeds_iff (e : Entry) (key : slice) (w : World) :
  create_ready json_Marshal key e w ->
  (fst (fst (CreateEntry gcm_Seal json_Marshal (Some e) key w)) = None <->
   ~ In (assigned_id e w) (map r_id (w_rows w)) /\
   ~ In (Name e) (map r_name (w_rows w))) /\
  (~ In (assigned_id e w) (map r_id (w_rows w)) ->
   In (Name e) (map r_name (w_rows w)) ->
   fst (fst (CreateEntry gcm_Seal json_Marshal (Some e) key w))
     = Some (ErrInsert ErrUniqueName)) /\
  (fst (fst (CreateEntry gcm_Seal json_Marshal (Some e) key w)) <> None ->
   w_rows (snd (CreateEntry gcm_Seal json_Marshal (Some e) key w)) = w_rows w).
Proof.
  intros Hready.
  destruct (createEntry_ready key e w Hready)
    as (row & e1 & w1 & Hid & Hnm & Hrows & Hrun).
  assert (Hpk : existsb (hasID (r_id row)) (w_rows w) = false <->
                ~ In (assigned_id e w) (map r_id (w_rows w))).
  { rewrite <- Hid. split; [apply existsb_hasID_notin|].
    intros Hnot. destruct (existsb (hasID (r_id row)) (w_rows w)) eqn:E;
      [|reflexivity].
    apply existsb_exists in E. destruct E as (r & Hin & Hr).
    exfalso. apply Hnot. apply String.eqb_eq in Hr. rewrite <- Hr.
    apply in_map. exact Hin. }
  assert (Huq : existsb (hasName (r_name row)) (w_rows w) = false <->
                ~ In (Name e) (map r_name (w_rows w))).
  { rewrite <- Hnm. split; [apply existsb_hasName_notin|].
    intros Hnot. destruct (existsb (hasName (r_name row)) (w_rows w)) eqn:E;
      [|reflexivity].
    apply existsb_exists in E. destruct E as (r & Hin & Hr).
    exfalso. apply Hnot. apply String.eqb_eq in Hr. rewrite <- Hr.
    apply in_map. exact Hin. }
  unfold CreateEntry, run_on. rewrite Hrun. unfold sql_insert.
  destruct (existsb (hasID (r_id row)) (w_rows w)) eqn:E1.
  { cbn [fst snd]. split; [|split].
    - split; [discriminate|]. intros [H _]. apply Hpk in H. discriminate.
    - intros H. apply Hpk in H. discriminate.
    - intros _. exact Hrows. }
  destruct (existsb (hasName (r_name row)) (w_rows w)) eqn:E2.
  { cbn [fst snd]. split; [|split].
    - split; [discriminate|]. intros [_ H]. apply Huq in H. discriminate.
    - intros _ _. reflexivity.
    - intros _. exact Hrows. }
  cbn [fst snd]. split; [|split].
  - split; [|reflexivity]. intros _. split; [apply Hpk | apply Huq]; reflexivity.
  - intros _ Hin. exfalso. revert Hin. apply Huq. reflexivity.
  - intros H. congruence.
Qed.

(** With record, key, encoder and entropy in order, [UpdateEntry] comes down
    to the update of the rows with the id. *)
Lemma updateEntry_ready (key : slice) (e : Entry) (w : World) :
  update_ready json_Marshal key e w ->
  exists set t e1 w1,
    (forall r, r_name (set r) = Name e) /\ w_rows w1 = w_rows w /\
    updateEntry gcm_Seal json_Marshal key (e, w) =
      match sql_update (ID e) set t (w_rows w) with
      | Err err => (Err (ErrUpdate err), (e1, w1))
      | Ok (rows, n) =>
        if n =? 0 then (Err (ErrNotFound (ID e)), (e1, set_rows w1 rows))
        else (Ok tt, (e1, set_rows w1 rows))
      end.
Proof.
  intros (Hid & Hname & Hpass & Hkey & Hjson & Hrand).
  destruct key as [k|]; cbn [len] in Hkey; [|discriminate].
  apply String.eqb_neq in Hid, Hname, Hpass.
  destruct (json_Marshal (entryData e)) as [dataJSON|] eqn:Ej; [|congruence].
  unfold updateEntry, bind, entry, world, reject, modify_entry, put_world,
    now, time_Now, fail, ret.
  cbn [fst snd]. rewrite Hid, Hname, Hpass. cbn [bad_key].
  rewrite Hkey. cbn [Nat.eqb negb fst snd].
  assert (Hcat : forall t,
    (if (Category (set_UpdatedAt e t) =? "")%string
     then fun s : Entry * World =>
            (Ok tt : result storage_error unit,
             (set_Category (fst s) "general", snd s))
     else fun s => (Ok tt, s)) (set_UpdatedAt e t, tick w)
    = (Ok tt, (set_Category (set_UpdatedAt e t) (stored_category e), tick w))).
  { intros t. unfold stored_category. cbn [Category set_UpdatedAt].
    destruct (Category e =? "")%string; [reflexivity|].
    destruct e; reflexivity. }
  rewrite Hcat. cbn [fst snd]. unfold marshal, encrypt.
  rewrite entryData_set_Category, entryData_set_UpdatedAt, Ej.
  unfold ret. cbn [fst snd w_rand tick].
  rewrite Encrypt_ready by (auto; lia). cbn [fst snd w_rand set_rand].
  rewrite Encrypt_ready by (auto; rewrite length_skipn; lia).
  cbn [fst snd w_rows set_rand tick ID Name set_Category set_UpdatedAt].
  match goal with
  | |- exists _ _ _ _, _ /\ _ /\
         match sql_update _ ?set ?t _ with _ => _ end (?e1, ?w1) = _ =>
    exists set, t, e1, w1
  end.
  split; [intros r; reflexivity|]. split; [reflexivity|].
  destruct (sql_update _ _ _ (w_rows w)) as [[rows n]|err]; [|reflexivity].
  cbn [fst snd]. destruct (n =? 0); reflexivity.
Qed.

(** X8.  With a valid record and key, a working encoder and entropy for two
    nonces, [UpdateEntry] succeeds if and only if a record has the id and no
    record with another id holds the new name; when no record has the id it
    fails with the not-found error, and when the id is there and the name is
    held by another record it fails on the unique-name constraint. *)
Theorem UpdateEntry_succeeds_iff (e : Entry) (key : slice) (w : World) :
  update_ready json_Marshal key e w ->
  let found := exists r, In r (w_rows w) /\ r_id r = ID e in
  let taken := exists r', In r' (w_rows w) /\ r_id r' <> ID e /\
                          r_name r' = Name e in
  (fst (fst (UpdateEntry gcm_Seal json_Marshal (Some e) key w)) = None <->
   found /\ ~ taken) /\
  (~ found ->
   fst (fst (UpdateEntry gcm_Seal json_Marshal (Some e) key w))
     = Some (ErrNotFound (ID e))) /\
  (found -> taken ->
   fst (fst (UpdateEntry gcm_Seal json_Marshal (Some e) key w))
     = Some (ErrUpdate ErrUniqueName)).
Proof.
  intros Hready found taken.
  destruct (updateEntry_ready key e w Hready)
    as (set & t & e1 & w1 & Hset & Hrows & Hrun).
  unfold UpdateEntry, run_on. rewrite Hrun. unfold sql_update.
  assert (Hfound : (length (filter (hasID (ID e)) (w_rows w)) =? 0) = false
                   <-> found).
  { unfold found. split.
    - intros H. apply filter_hasID_In. intros Hnil. rewrite Hnil in H.
      discriminate.
    - intros (r & Hin & Hr). apply Nat.eqb_neq. intros Hl.
      apply length_zero_iff_nil in Hl.
      assert (Hf : In r (filter (hasID (ID e)) (w_rows w))).
      { apply filter_In. split; [exact Hin|]. apply String.eqb_eq. exact Hr. }
      rewrite Hl in Hf. contradiction. }
  match goal with
  | |- context [if ?c then Err ErrUniqueName else _] => destruct c eqn:Echk
  end.
  - apply existsb_exists in Echk. destruct Echk as (r & Hin & Hr).
    apply andb_prop in Hr. destruct Hr as [Hr Hex].
    apply existsb_exists in Hex. destruct Hex as (r' & Hin' & Hr').
    apply andb_prop in Hr'. destruct Hr' as [Hne Hnm].
    assert (Hf : found).
    { exists r. split; [exact Hin|]. apply String.eqb_eq. exact Hr. }
    assert (Ht : taken).
    { exists r'. split; [exact Hin'|]. rewrite Hset in Hnm.
      apply String.eqb_eq in Hnm. split; [|exact Hnm].
      apply negb_true_iff in Hne. apply String.eqb_neq. exact Hne. }
    cbn [fst snd]. split; [|split].
    + split; [discriminate|]. intros [_ Hnt]. contradiction.
    + intros Hnf. contradiction.
    + intros _ _. reflexivity.
  - destruct (length (filter (hasID (ID e)) (w_rows w)) =? 0) eqn:En;
      cbn [fst snd].
    + assert (Hnf : ~ found).
      { intros Hf. apply Hfound in Hf. congruence. }
      split; [|split].
      * split; [discriminate|]. intros [Hf _]. contradiction.
      * intros _. reflexivity.
      * intros Hf. contradiction.
    + assert (Hf : found) by (apply Hfound; reflexivity).
      assert (Hnt : ~ taken).
      { intros (r' & Hin' & Hne & Hnm). destruct Hf as (r & Hin & Hr).
        assert (Hex : existsb (fun r => hasID (ID e) r &&
                   existsb (fun r' => negb (hasID (ID e) r') &&
                                      (r_name r' =? r_name (set r))%string)
                           (w_rows w)) (w_rows w) = true).
        { apply existsb_exists. exists r. split; [exact Hin|].
          apply andb_true_intro. split; [apply String.eqb_eq; exact Hr|].
          apply existsb_exists. exists r'. split; [exact Hin'|].
          apply andb_true_intro. split.
          - apply negb_true_iff. apply String.eqb_neq. exact Hne.
          - rewrite Hset. apply String.eqb_eq. exact Hnm. }
        congruence. }
      split; [|split].
      * split; [auto | reflexivity].
      * intros Hnf. contradiction.
      * intros _ Ht. contradiction.
Qed.

End StoreUpdates.

(** ** Listing by category *)

Lemma insert_by_name_least (r : Row) (rows : list Row) :
  Forall (row_name_le r) rows -> insert_by_name r rows = r :: rows.
Proof.
  destruct rows as [|r' rows]; cbn; [reflexivity|].
  intros H. inversion H as [|? ? Hr _]; subst. unfold row_name_le in Hr.
  rewrite Hr. reflexivity.
Qed.

Lemma filter_insert_by_name (f : Row -> bool) (r : Row) (rows : list Row) :
  StronglySorted row_name_le rows ->
  filter f (insert_by_name r rows)
    = if f r then insert_by_name r (filter f rows) else filter f rows.
Proof.
  induction rows as [|r' rows IH]; intros Hs.
  - cbn. destruct (f r); reflexivity.
  - inversion Hs as [|? ? Hs' Hall]; subst. cbn [insert_by_name].
    destruct (String.leb (r_name r) (r_name r')) eqn:E.
    + cbn [filter]. destruct (f r) eqn:Er; [|reflexivity].
      destruct (f r') eqn:Er'.
      * cbn [insert_by_name]. rewrite E. reflexivity.
      * symmetry. apply insert_by_name_least.
        apply Forall_forall. intros x Hx. apply filter_In in Hx.
        destruct Hx as [Hx _]. rewrite Forall_forall in Hall.
        unfold row_name_le in *. eapply string_leb_trans; eauto.
    + cbn [filter]. rewrite (IH Hs').
      destruct (f r) eqn:Er, (f r') eqn:Er'; cbn [insert_by_name];
        try rewrite E; reflexivity.
Qed.

Lemma order_by_name_filter (f : Row -> bool) (rows : list Row) :
  order_by_name (filter f rows) = filter f (order_by_name rows).
Proof.
  induction rows as [|r rows IH]; [reflexivity|].
  change (order_by_name (r :: rows))
    with (insert_by_name r (order_by_name rows)).
  rewrite filter_insert_by_name by apply order_by_name_sorted.
  cbn [filter]. destruct (f r); [|exact IH].
  change (order_by_name (r :: filter f rows))
    with (insert_by_name r (order_by_name (filter f rows))).
  rewrite IH. reflexivity.
Qed.

Lemma filter_map_scan_listed (c : string) (rows : list Row) :
  filter (fun e => (Category e =? c)%string) (map scan_listed rows)
    = map scan_listed (filter (fun r => (r_category r =? c)%string) rows).
Proof.
  induction rows as [|r rows IH]; cbn [map filter]; [reflexivity|].
  change (Category (scan_listed r)) with (r_category r).
  destruct (r_category r =? c)%string; cbn [map]; rewrite IH; reflexivity.
Qed.

(** X9.  [ListEntriesByCategory] returns exactly the entries of
    [ListEntries] that have the category, in the same order; so the result
    is sorted by name, carries no payload, and holds no entry of another
    category. *)
Theorem ListEntriesByCategory_filters (category : string) (w : World) :
  exists all,
    ListEntries w = Ok all /\
    ListEntriesByCategory category w
      = Ok (filter (fun e => (Category e =? category)%string) all) /\
    StronglySorted name_le
      (filter (fun e => (Category e =? category)%string) all) /\
    Forall (fun e => Category e = category /\ no_payload e)
      (filter (fun e => (Category e =? category)%string) all).
Proof.
  unfold ListEntries, ListEntriesByCategory. eexists.
  split; [reflexivity|].
  rewrite filter_map_scan_listed, order_by_name_filter.
  split; [reflexivity|]. split.
  - apply StronglySorted_map_scan_listed.
    rewrite <- order_by_name_filter. apply order_by_name_sorted.
  - apply Forall_map, Forall_forall. intros r Hin. apply filter_In in Hin.
    destruct Hin as [_ Hc]. apply String.eqb_eq in Hc.
    split; [exact Hc | repeat split].
Qed.

(** ** The metadata table *)

Lemma find_upsert_same (key value : string) (m : Meta) :
  exists kv, find (hasKey key) (upsert key value m) = Some kv /\ snd kv = value.
Proof.
  induction m as [|kv m IH]; cbn [upsert].
  - cbn. unfold hasKey. cbn. rewrite String.eqb_refl. eauto.
  - destruct (hasKey key kv) eqn:E.
    + cbn [find]. unfold hasKey in *. cbn [fst]. rewrite E. eauto.
    + cbn [find]. rewrite E. exact IH.
Qed.

Lemma find_upsert_other (key key' value : string) (m : Meta) :
  key' <> key ->
  find (hasKey key') (upsert key value m) = find (hasKey key') m.
Proof.
  intros Hne.
  assert (Hk : hasKey key' (key, value) = false).
  { unfold hasKey. cbn. apply String.eqb_neq. congruence. }
  induction m as [|kv m IH]; cbn [upsert].
  - cbn [find]. rewrite Hk. reflexivity.
  - destruct (hasKey key kv) eqn:E.
    + cbn [find]. unfold hasKey in *. cbn [fst].
      apply String.eqb_eq in E.
      replace (fst kv =? key')%string with false; [reflexivity|].
      symmetry. apply String.eqb_neq. congruence.
    + cbn [find]. destruct (hasKey key' kv); [reflexivity | exact IH].
Qed.

Lemma upsert_keys (key value : string) (m : Meta) :
  map fst (upsert key value m)
    = if existsb (hasKey key) m then map fst m else map fst m ++ [key].
Proof.
  induction m as [|kv m IH]; cbn [upsert existsb map app]; [reflexivity|].
  destruct (hasKey key kv) eqn:E; cbn [orb map fst]; [reflexivity|].
  rewrite IH. destruct (existsb (hasKey key) m); reflexivity.
Qed.

Lemma find_hasKey_filter_self (key : string) (m : Meta) :
  find (hasKey key) (filter (fun kv => negb (hasKey key kv)) m) = None.
Proof.
  induction m as [|kv m IH]; cbn; [reflexivity|].
  destruct (hasKey key kv) eqn:E; cbn; [exact IH|]. rewrite E. exact IH.
Qed.

Lemma find_hasKey_filter_other (key key' : string) (m : Meta) :
  key' <> key ->
  find (hasKey key') (filter (fun kv => negb (hasKey key kv)) m)
    = find (hasKey key') m.
Proof.
  intros Hne. induction m as [|kv m IH]; cbn; [reflexivity|].
  destruct (hasKey key kv) eqn:E; cbn.
  - destruct (hasKey key' kv) eqn:E'; [|exact IH].
    exfalso. apply Hne. unfold hasKey in *.
    apply String.eqb_eq in E, E'. congruence.
  - destruct (hasKey key' kv); [reflexivity | exact IH].
Qed.

Lemma filter_hasKey_none (key : string) (m : Meta) :
  find (hasKey key) m = None ->
  filter (hasKey key) m = [] /\ filter (fun kv => negb (hasKey key kv)) m = m.
Proof.
  induction m as [|kv m IH]; cbn; [auto|].
  destruct (hasKey key kv); [discriminate|]. cbn.
  intros H. destruct (IH H) as [-> ->]. auto.
Qed.

Lemma filter_hasKey_some (key : string) (m : Meta) kv :
  find (hasKey key) m = Some kv -> filter (hasKey key) m <> [].
Proof.
  induction m as [|kv' m IH]; cbn; [discriminate|].
  destruct (hasKey key kv'); [discriminate | exact IH].
Qed.

(** X10.  The metadata table is a map with upsert: after [SetMetadata] of a
    non-empty key, [GetMetadata] returns the value just written, whatever
    was there before; every other key reads as before; and keys that were
    distinct stay distinct. *)
Theorem GetMetadata_after_SetMetadata (key value : string) (m : Meta) :
  key <> "" ->
  fst (SetMetadata key value m) = None /\
  GetMetadata key (snd (SetMetadata key value m)) = Ok value /\
  (forall key', key' <> key ->
     GetMetadata key' (snd (SetMetadata key value m)) = GetMetadata key' m) /\
  (NoDup (map fst m) -> NoDup (map fst (snd (SetMetadata key value m)))).
Proof.
  intros Hkey. assert (Hk := Hkey). apply String.eqb_neq in Hk.
  unfold SetMetadata. rewrite Hk. cbn [fst snd].
  split; [reflexivity|]. split; [|split].
  - unfold GetMetadata. rewrite Hk.
    destruct (find_upsert_same key value m) as (kv & -> & Hv).
    rewrite Hv. reflexivity.
  - intros key' Hne. unfold GetMetadata.
    rewrite (find_upsert_other _ _ _ _ Hne). reflexivity.
  - intros Hnd. rewrite upsert_keys.
    destruct (existsb (hasKey key) m) eqn:E; [exact Hnd|].
    apply NoDup_snoc; [exact Hnd|].
    intros Hin. apply in_map_iff in Hin. destruct Hin as (kv & Hkv & Hin).
    assert (Hex : existsb (hasKey key) m = true).
    { apply existsb_exists. exists kv. split; [exact Hin|].
      apply String.eqb_eq. exact Hkv. }
    congruence.
Qed.

(** X11.  [DeleteMetadata] of a non-empty key: when the key is not there it
    fails with the not-found error and leaves the table as it is; when it
    is, it succeeds and [GetMetadata] then reports the key as not found.
    Either way every other key reads as before. *)
Theorem DeleteMetadata_removes (key : string) (m : Meta) :
  key <> "" ->
  (GetMetadata key m = Err (ErrMetaNotFound key) ->
   DeleteMetadata key m = (Some (ErrMetaNotFound key), m)) /\
  (forall value, GetMetadata key m = Ok value ->
     fst (DeleteMetadata key m) = None /\
     GetMetadata key (snd (DeleteMetadata key m))
       = Err (ErrMetaNotFound key)) /\
  (forall key', key' <> key ->
     GetMetadata key' (snd (DeleteMetadata key m)) = GetMetadata key' m).
Proof.
  intros Hkey. assert (Hk := Hkey). apply String.eqb_neq in Hk.
  unfold DeleteMetadata, GetMetadata. rewrite Hk. cbv zeta.
  split; [|split].
  - destruct (find (hasKey key) m) as [kv|] eqn:E; [discriminate|].
    intros _. destruct (filter_hasKey_none _ _ E) as [-> ->]. reflexivity.
  - intros value. destruct (find (hasKey key) m) as [kv|] eqn:E;
      [|discriminate].
    intros _. apply filter_hasKey_some in E.
    destruct (filter (hasKey key) m) as [|x l] eqn:Ef; [congruence|].
    cbn [length Nat.eqb fst snd]. split; [reflexivity|].
    rewrite find_hasKey_filter_self. reflexivity.
  - intros key' Hne.
    destruct (length (filter (hasKey key) m) =? 0); cbn [snd];
      rewrite (find_hasKey_filter_other _ _ _ Hne); reflexivity.
Qed.

Section MetadataFacts.

Variable base64_Encode : bytes -> string.
Variable base64_Decode : string -> option bytes.
Variable params_Marshal : Argon2Params -> option bytes.
Variable params_Unmarshal : bytes -> option Argon2Params.

(** X12.  The salt survives storage: [SetSalt] turns down the nil and the
    empty salt and leaves the table as it is; it accepts every other salt,
    and [GetSalt] then returns the same bytes, provided decoding undoes the
    encoding of this salt.  Setting the salt leaves the stored parameters
    as they were; and on a table without the key, [GetSalt] fails with the
    not-found error. *)
Theorem GetSalt_after_SetSalt (salt : bytes) (m : Meta) :
  base64_Decode (base64_Encode salt) = Some salt ->
  SetSalt base64_Encode None m = (Some ErrSaltEmpty, m) /\
  SetSalt base64_Encode (Some []) m = (Some ErrSaltEmpty, m) /\
  (salt <> [] ->
   fst (SetSalt base64_Encode (Some salt) m) = None /\
   GetSalt base64_Decode (snd (SetSalt base64_Encode (Some salt) m))
     = Ok salt /\
   GetArgon2Params params_Unmarshal
     (snd (SetSalt base64_Encode (Some salt) m))
     = GetArgon2Params params_Unmarshal m) /\
  (find (hasKey MetadataKeySalt) m = None ->
   GetSalt base64_Decode m
     = Err (ErrGetSalt (ErrMetaNotFound MetadataKeySalt))).
Proof.
  intros Hb64. split; [reflexivity|]. split; [reflexivity|]. split.
  - intros Hne. unfold SetSalt.
    destruct salt as [|b salt']; [congruence|]. cbn [length Nat.eqb].
    cbv zeta. unfold SetMetadata. cbn [String.eqb MetadataKeySalt fst snd].
    change ("salt"%string) with MetadataKeySalt.
    split; [reflexivity|]. split.
    + unfold GetSalt, GetMetadata. cbn [String.eqb MetadataKeySalt].
      change ("salt"%string) with MetadataKeySalt.
      destruct (find_upsert_same MetadataKeySalt
                  (base64_Encode (b :: salt')) m) as (kv & -> & ->).
      rewrite Hb64. reflexivity.
    + unfold GetArgon2Params, GetMetadata.
      rewrite find_upsert_other by discriminate. reflexivity.
  - intros Hnone. unfold GetSalt, GetMetadata.
    cbn [String.eqb MetadataKeySalt]. change ("salt"%string) with MetadataKeySalt.
    rewrite Hnone. reflexivity.
Qed.

(** X13.  [SetArgon2Params] stores only valid parameters: invalid ones are
    turned down and the table is left as it is; and what it stored,
    [GetArgon2Params] returns, provided the decoder reads what the encoder
    wrote for these parameters. *)
Theorem GetArgon2Params_after_SetArgon2Params (params : Argon2Params) (m : Meta) :
  (forall b, params_Marshal params = Some b ->
             params_Unmarshal b = Some params) ->
  (invalid_params params ->
   exists err,
     SetArgon2Params params_Marshal params m
       = (Some (ErrInvalidArgon2 err), m)) /\
  (fst (SetArgon2Params params_Marshal params m) = None ->
   ~ invalid_params params /\
   GetArgon2Params params_Unmarshal
     (snd (SetArgon2Params params_Marshal params m)) = Ok params).
Proof.
  intros Hjson. unfold SetArgon2Params. split.
  - intros Hinv. apply Validate_Some_iff in Hinv. destruct Hinv as [err ->].
    eauto.
  - destruct (Validate params) as [err|] eqn:Ev; [discriminate|].
    destruct (params_Marshal params) as [jsonData|] eqn:Em; [|discriminate].
    intros _. split; [apply Validate_None_iff; exact Ev|].
    unfold SetMetadata. cbn [String.eqb MetadataKeyArgon2Params fst snd].
    change ("argon2_params"%string) with MetadataKeyArgon2Params.
    unfold GetArgon2Params, GetMetadata.
    cbn [String.eqb MetadataKeyArgon2Params].
    change ("argon2_params"%string) with MetadataKeyArgon2Params.
    destruct (find_upsert_same MetadataKeyArgon2Params
                (string_of_list_byte jsonData) m) as (kv & -> & ->).
    rewrite list_byte_of_string_of_list_byte, (Hjson _ eq_refl), Ev.
    reflexivity.
Qed.

(** Parameters that [GetArgon2Params] returns pass [Validate], whatever the
    table holds. *)
Lemma GetArgon2Params_valid (m : Meta) (params : Argon2Params) :
  GetArgon2Params params_Unmarshal m = Ok params -> Validate params = None.
Proof.
  unfold GetArgon2Params.
  destruct (GetMetadata MetadataKeyArgon2Params m) as [jsonData|err];
    [|discriminate].
  destruct (params_Unmarshal (list_byte_of_string jsonData)) as [p|];
    [|discriminate].
  destruct (Validate p) as [err|] eqn:Ev; [discriminate|].
  intros H. inversion H; subst p. exact Ev.
Qed.

End MetadataFacts.

Lemma insert_key_Permutation (k : string) (ks : list string) :
  Permutation (insert_key k ks) (k :: ks).
Proof.
  induction ks as [|k' ks IH]; cbn [insert_key]; [reflexivity|].
  destruct (String.leb k k'); [reflexivity|].
  rewrite IH. apply perm_swap.
Qed.

Lemma insert_key_sorted (k : string) (ks : list string) :
  StronglySorted (fun a b => String.leb a b = true) ks ->
  StronglySorted (fun a b => String.leb a b = true) (insert_key k ks).
Proof.
  induction ks as [|k' ks IH]; cbn [insert_key]; intros Hs.
  - constructor; constructor.
  - inversion Hs as [|? ? Hs' Hall]; subst.
    destruct (String.leb k k') eqn:E.
    + constructor; [exact Hs|]. constructor; [exact E|].
      eapply Forall_impl; [|exact Hall].
      intros x Hx. eapply string_leb_trans; eauto.
    + constructor; [apply IH; exact Hs'|].
      assert (Hk : String.leb k' k = true)
        by (destruct (String.leb_total k k'); congruence).
      eapply Permutation_Forall; [symmetry; apply insert_key_Permutation|].
      constructor; assumption.
Qed.

(** X15.  [ListMetadataKeys] returns the keys of the table, each as often
    as it is there, in ascending order. *)
Theorem ListMetadataKeys_sorted (m : Meta) :
  Permutation (ListMetadataKeys m) (map fst m) /\
  StronglySorted (fun a b => String.leb a b = true) (ListMetadataKeys m).
Proof.
  unfold ListMetadataKeys. induction (map fst m) as [|k ks [IHp IHs]]; cbn.
  - split; constructor.
  - split; [|apply insert_key_sorted; exact IHs].
    rewrite insert_key_Permutation. constructor. exact IHp.
Qed.

(** ** Salts, and the layout of a ciphertext *)

(** X16.  [GenerateSaltWithLength] succeeds exactly when the length is at
    least 8 and the entropy suffices, and the salt is then exactly the next
    [length] bytes of entropy; below 8 it fails at once, without drawing
    entropy.  [GenerateSalt] returns 32 bytes. *)
Theorem GenerateSaltWithLength_Ok_iff (length_ : Z) (r r' : Rand) (salt : bytes) :
  (GenerateSaltWithLength length_ r = (Ok salt, r') <->
   (8 <= length_)%Z /\ length salt = Z.to_nat length_ /\ r = salt ++ r') /\
  ((length_ < 8)%Z ->
   GenerateSaltWithLength length_ r = (Err ErrSaltLength, r)) /\
  (GenerateSalt r = (Ok salt, r') -> length salt = 32).
Proof.
  assert (Hiff : forall n,
    GenerateSaltWithLength n r = (Ok salt, r') <->
    (8 <= n)%Z /\ length salt = Z.to_nat n /\ r = salt ++ r').
  { intros n. unfold GenerateSaltWithLength, MinSaltLength.
    change (Z.of_nat 8) with 8%Z.
    destruct (n <? 8)%Z eqn:E.
    { apply Z.ltb_lt in E. split; [discriminate | lia]. }
    apply Z.ltb_ge in E.
    destruct (rand_Read (Z.to_nat n) r) as [[bs|] r1] eqn:Er.
    - apply rand_Read_Some in Er. destruct Er as (Hle & -> & -> & Hlen).
      split.
      + intros H. inversion H; subst. split; [exact E|].
        split; [exact Hlen|]. symmetry. apply firstn_skipn.
      + intros (_ & Hl & Hr). subst r.
        rewrite <- Hl, firstn_app, skipn_app, Nat.sub_diag, firstn_all,
          skipn_all. cbn. rewrite app_nil_r. reflexivity.
    - apply rand_Read_None in Er. destruct Er as [Hlt ->]. split.
      + discriminate.
      + intros (_ & Hl & Hr). subst r. rewrite length_app in Hlt. lia. }
  split; [apply Hiff|]. split.
  - intros Hlt. unfold GenerateSaltWithLength, MinSaltLength.
    change (Z.of_nat 8) with 8%Z.
    replace (length_ <? 8)%Z with true by (symmetry; apply Z.ltb_lt; exact Hlt).
    reflexivity.
  - unfold GenerateSalt, DefaultSaltLength. intros H.
    apply Hiff in H. destruct H as (_ & -> & _). reflexivity.
Qed.

Section CipherLayout.

Variable gcm_Seal : bytes -> bytes -> bytes -> bytes -> bytes.
Variable gcm_Open : bytes -> bytes -> bytes -> bytes -> option bytes.

(** X17.  The layout of a ciphertext: a successful [Encrypt] draws exactly
    12 bytes of entropy, the ciphertext starts with them, and, the AEAD
    adding its 16-byte tag, the ciphertext is 28 bytes longer than the
    plaintext, so it is never below the minimum size [Decrypt] asks for. *)
Theorem Encrypt_layout (P K : slice) (r r' : Rand) (C : bytes) :
  (forall key nonce pt ad, length key = 32 -> length nonce = 12 ->
     length (gcm_Seal key nonce pt ad) = length pt + gcmTagSize) ->
  Encrypt gcm_Seal P K r = (Ok C, r') ->
  exists nonce,
    length nonce = 12 /\ r = nonce ++ r' /\ firstn 12 C = nonce /\
    length C = 12 + len P + 16 /\ minCiphertextSize <= length C.
Proof.
  intros Hover H. apply Encrypt_Ok in H.
  destruct H as (pt & k & nonce & -> & -> & Hk & Hn & ->).
  apply GenerateNonce_Ok in Hn. destruct Hn as (Hlen & Hfirst & Hskip & _).
  exists nonce. split; [exact Hlen|]. split.
  { rewrite Hfirst, Hskip. symmetry. apply firstn_skipn. }
  split.
  { rewrite firstn_app, Hlen, Nat.sub_diag, firstn_O, app_nil_r.
    apply firstn_all2. lia. }
  rewrite length_app, Hover by assumption.
  unfold gcmTagSize, minCiphertextSize, DefaultNonceSize. cbn [len]. lia.
Qed.

(** X18.  [Decrypt] succeeds exactly when the key has 32 bytes, the
    ciphertext has at least 28, and the AEAD accepts the ciphertext split
    after its first 12 bytes; it then returns what the AEAD opened.  Setting
    up AES and GCM never fails on a 32-byte key. *)
Theorem Decrypt_Ok_iff (ciphertext key : slice) (pt : bytes) :
  Decrypt gcm_Open ciphertext key = Ok pt <->
  exists ct k,
    ciphertext = Some ct /\ key = Some k /\ length k = 32 /\
    28 <= length ct /\
    gcm_Open k (firstn 12 ct) (skipn 12 ct) [] = Some pt.
Proof.
  unfold Decrypt. destruct ciphertext as [ct|].
  2:{ split; [discriminate | intros (? & ? & H & _); discriminate]. }
  destruct key as [k|].
  2:{ split; [discriminate | intros (? & ? & _ & H & _); discriminate]. }
  destruct (length k =? 32) eqn:Ek; cbn [negb].
  2:{ apply Nat.eqb_neq in Ek. split; [discriminate|].
      intros (? & k' & _ & Hk & Hl & _). inversion Hk; subst. contradiction. }
  apply Nat.eqb_eq in Ek.
  destruct (length ct <? minCiphertextSize) eqn:Ec.
  { apply Nat.ltb_lt in Ec. unfold minCiphertextSize, DefaultNonceSize in Ec.
    split; [discriminate|].
    intros (ct' & ? & Hc & _ & _ & Hl & _). inversion Hc; subst. lia. }
  apply Nat.ltb_ge in Ec. unfold minCiphertextSize, DefaultNonceSize in Ec.
  rewrite (aes_NewCipher_32 _ Ek).
  cbv beta iota zeta delta [cipher_NewGCM aes_BlockSize Nat.eqb].
  replace (length ct <? gcm_NonceSize) with false
    by (symmetry; apply Nat.ltb_ge; unfold gcm_NonceSize; lia).
  unfold gcm_NonceSize. split.
  - destruct (gcm_Open k (firstn 12 ct) (skipn 12 ct) []) as [p|] eqn:Eo;
      [|discriminate].
    intros H. inversion H; subst. exists ct, k. repeat split; auto.
  - intros (ct' & k' & Hc & Hk & _ & _ & Ho).
    inversion Hc; inversion Hk; subst. rewrite Ho. reflexivity.
Qed.

End CipherLayout.

(** ** Setting a vault up and unlocking it *)

Section Unlock.

Variable argon2_IDKey : bytes -> bytes -> N -> N -> N -> N -> bytes.
Variable base64_Encode : bytes -> string.
Variable base64_Decode : string -> option bytes.
Variable params_Marshal : Argon2Params -> option bytes.
Variable params_Unmarshal : bytes -> option Argon2Params.

(** X14.  Setting up and unlocking: when a generated salt and parameters
    that [SetArgon2Params] accepted are stored, [GetSalt] and
    [GetArgon2Params] return them, and [DeriveKey] on what they return
    succeeds for every non-empty password, with the key that the stored
    salt and parameters determine; provided the codecs read what they
    wrote. *)
Theorem unlock_after_setup (r r' : Rand) (salt : bytes) (params : Argon2Params)
  (m : Meta) (password : string) :
  base64_Decode (base64_Encode salt) = Some salt ->
  (forall b, params_Marshal params = Some b ->
             params_Unmarshal b = Some params) ->
  GenerateSalt r = (Ok salt, r') ->
  fst (SetArgon2Params params_Marshal params
         (snd (SetSalt base64_Encode (Some salt) m))) = None ->
  password <> "" ->
  let m' := snd (SetArgon2Params params_Marshal params
                   (snd (SetSalt base64_Encode (Some salt) m))) in
  fst (SetSalt base64_Encode (Some salt) m) = None /\
  GetSalt base64_Decode m' = Ok salt /\
  GetArgon2Params params_Unmarshal m' = Ok params /\
  DeriveKey argon2_IDKey password (Some salt) params
    = Ok (argon2_IDKey (list_byte_of_string password) salt
            (Time params) (Memory params) (Parallelism params)
            (KeyLen params)).
Proof.
  intros Hb64 Hjson Hgen Hset Hpw m'.
  assert (Hlen : length salt = 32).
  { unfold GenerateSalt, GenerateSaltWithLength, DefaultSaltLength,
      MinSaltLength in Hgen. cbn [Z.of_nat Z.ltb Z.compare Pos.compare
      Pos.of_succ_nat Pos.succ Pos.compare_cont] in Hgen.
    destruct (rand_Read _ r) as [[bs|] r1] eqn:Er; [|discriminate].
    inversion Hgen; subst. apply rand_Read_Some in Er.
    destruct Er as (_ & _ & _ & Hl). rewrite Hl. reflexivity. }
  unfold SetArgon2Params in *.
  destruct (Validate params) as [err|] eqn:Ev; [discriminate|].
  destruct (params_Marshal params) as [jsonData|] eqn:Em; [|discriminate].
  unfold SetSalt in *.
  destruct salt as [|b salt']; [discriminate|].
  cbn [length Nat.eqb] in *. cbv zeta in *.
  unfold SetMetadata in *.
  cbn [String.eqb MetadataKeySalt MetadataKeyArgon2Params fst snd] in *.
  change ("salt"%string) with MetadataKeySalt in *.
  change ("argon2_params"%string) with MetadataKeyArgon2Params in *.
  subst m'. split; [reflexivity|]. split; [|split].
  - unfold GetSalt, GetMetadata. cbn [String.eqb MetadataKeySalt].
    change ("salt"%string) with MetadataKeySalt.
    rewrite find_upsert_other by discriminate.
    destruct (find_upsert_same MetadataKeySalt
                (base64_Encode (b :: salt')) m) as (kv & -> & ->).
    rewrite Hb64. reflexivity.
  - unfold GetArgon2Params, GetMetadata.
    cbn [String.eqb MetadataKeyArgon2Params].
    change ("argon2_params"%string) with MetadataKeyArgon2Params.
    match goal with
    | |- context [find _ (upsert _ ?v ?m0)] =>
      destruct (find_upsert_same MetadataKeyArgon2Params v m0)
        as (kv & -> & ->)
    end.
    rewrite list_byte_of_string_of_list_byte, (Hjson _ eq_refl), Ev.
    reflexivity.
  - unfold DeriveKey. apply String.eqb_neq in Hpw. rewrite Hpw.
    unfold MinSaltLength. cbn [length]. rewrite Hlen, Ev. reflexivity.
Qed.

End Unlock.

(** ** The generator *)

Lemma byteAt_ContainsRune (s : string) (i : nat) (c : ascii) :
  byteAt s i = Some c -> ContainsRune s c = true.
Proof.
  unfold byteAt. revert i.
  induction s as [|x s IH]; intros i; cbn [String.get ContainsRune];
    [discriminate|].
  destruct i as [|i].
  - intros H. inversion H; subst. rewrite Ascii.eqb_refl. reflexivity.
  - intros H. destruct (Ascii.eqb x c); [reflexivity|]. exact (IH _ H).
Qed.

Lemma fillPassword_drawn n charset r password r' :
  fillPassword n charset r = (Ok password, r') ->
  Forall (fun c => ContainsRune charset c = true) password.
Proof.
  revert r password r'.
  induction n as [|n IH]; intros r password r'; cbn [fillPassword].
  - intros H. inversion H. constructor.
  - destruct (rand_Int (N.of_nat (String.length charset)) r)
      as [[idx|] r1]; [|discriminate].
    destruct (byteAt charset (N.to_nat idx)) as [c|] eqn:Ec; [|discriminate].
    destruct (fillPassword n charset r1) as [[rest|e] r2] eqn:Ef;
      [|discriminate].
    intros H. inversion H; subst. constructor.
    + eapply byteAt_ContainsRune; eauto.
    + eapply IH; eauto.
Qed.

Lemma setAt_Forall (P : ascii -> Prop) buf i c buf' :
  setAt buf i c = Some buf' -> Forall P buf -> P c -> Forall P buf'.
Proof.
  revert i buf'. induction buf as [|x buf IH]; intros i buf'; cbn [setAt];
    [discriminate|].
  destruct i as [|i].
  - intros H Hall Hc. inversion H; subst. inversion Hall; subst.
    constructor; assumption.
  - destruct (setAt buf i c) as [rest|] eqn:E; [|discriminate].
    intros H Hall Hc. inversion H; subst. inversion Hall; subst.
    constructor; [assumption|]. eapply IH; eauto.
Qed.

Lemma setAt_ContainsRune buf i c buf' :
  setAt buf i c = Some buf' ->
  ContainsRune (string_of_list_ascii buf') c = true.
Proof.
  revert i buf'. induction buf as [|x buf IH]; intros i buf'; cbn [setAt];
    [discriminate|].
  destruct i as [|i].
  - intros H. inversion H; subst. cbn. rewrite Ascii.eqb_refl. reflexivity.
  - destruct (setAt buf i c) as [rest|] eqn:E; [|discriminate].
    intros H. inversion H; subst. cbn.
    destruct (Ascii.eqb x c); [reflexivity|]. eapply IH; eauto.
Qed.

Lemma forceClass_drawn (P : ascii -> Prop) enabled class rep bump st st' :
  forceClass enabled class rep bump st = Some st' ->
  (enabled = true -> forall c, byteAt rep 0 = Some c -> P c) ->
  Forall P (fst st) -> Forall P (fst st').
Proof.
  destruct st as [password idx]. unfold forceClass.
  destruct enabled; cbn [andb].
  - destruct (negb (containsAny (string_of_list_ascii password) class)).
    + destruct (byteAt rep 0) as [c|]; [|discriminate].
      destruct (setAt password idx c) as [password'|] eqn:E; [|discriminate].
      intros H Hc Hall. inversion H; subst. cbn [fst] in *.
      eapply setAt_Forall; eauto.
    + intros H _ Hall. inversion H; subst. exact Hall.
  - intros H _ Hall. inversion H; subst. exact Hall.
Qed.

Lemma representatives_in_charset (options : GenerateOptions) :
  (UseUppercase options = true ->
   forall c, byteAt (if ExcludeAmbiguous options then uppercaseChars
                     else uppercaseCharsAmbiguous) 0 = Some c ->
             ContainsRune (buildCharset options) c = true) /\
  (UseLowercase options = true ->
   forall c, byteAt (if ExcludeAmbiguous options then lowercaseChars
                     else lowercaseCharsAmbiguous) 0 = Some c ->
             ContainsRune (buildCharset options) c = true) /\
  (UseDigits options = true ->
   forall c, byteAt (if ExcludeAmbiguous options then digitChars
                     else digitCharsAmbiguous) 0 = Some c ->
             ContainsRune (buildCharset options) c = true) /\
  (UseSymbols options = true ->
   forall c, byteAt symbolChars 0 = Some c ->
             ContainsRune (buildCharset options) c = true).
Proof.
  destruct options as [[] [] [] [] []]; cbn [UseUppercase UseLowercase
    UseDigits UseSymbols ExcludeAmbiguous];
    repeat split; intros Hf c Hc; try discriminate Hf;
    vm_compute in Hc; inversion Hc; subst; vm_compute; reflexivity.
Qed.

Lemma forceRequirements_drawn password options forced :
  forceRequirements password options = Some forced ->
  Forall (fun c => ContainsRune (buildCharset options) c = true) password ->
  exists password',
    forced = string_of_list_ascii password' /\
    Forall (fun c => ContainsRune (buildCharset options) c = true) password'.
Proof.
  destruct (representatives_in_charset options) as (Hu & Hl & Hd & Hs).
  unfold forceRequirements.
  destruct (forceClass (UseUppercase options) _ _ true (password, 0))
    as [st1|] eqn:E1; [|discriminate].
  destruct (forceClass (UseLowercase options) _ _ true st1)
    as [st2|] eqn:E2; [|discriminate].
  destruct (forceClass (UseDigits options) _ _ true st2)
    as [st3|] eqn:E3; [|discriminate].
  destruct (forceClass (UseSymbols options) _ _ false st3)
    as [[p4 i4]|] eqn:E4; [|discriminate].
  intros H Hall. inversion H; subst. exists p4. split; [reflexivity|].
  apply (forceClass_drawn _ _ _ _ _ _ _ E4 Hs).
  apply (forceClass_drawn _ _ _ _ _ _ _ E3 Hd).
  apply (forceClass_drawn _ _ _ _ _ _ _ E2 Hl).
  apply (forceClass_drawn _ _ _ _ _ _ _ E1 Hu). exact Hall.
Qed.

Lemma forceRequirements_symbols password options forced :
  forceRequirements password options = Some forced ->
  UseSymbols options = true ->
  containsAny forced symbolChars = true.
Proof.
  unfold forceRequirements.
  destruct (forceClass (UseUppercase options) _ _ true (password, 0))
    as [st1|]; [|discriminate].
  destruct (forceClass (UseLowercase options) _ _ true st1)
    as [st2|]; [|discriminate].
  destruct (forceClass (UseDigits options) _ _ true st2)
    as [[p3 i3]|]; [|discriminate].
  intros H Hs. rewrite Hs in H. unfold forceClass in H. cbn [andb] in H.
  destruct (containsAny (string_of_list_ascii p3) symbolChars) eqn:Ec;
    cbn [negb] in H.
  - inversion H; subst. exact Ec.
  - change (byteAt symbolChars 0) with (Some "!"%char) in H.
    cbv beta iota in H.
    destruct (setAt p3 i3 "!"%char) as [p4|] eqn:E; [|discriminate H].
    inversion H; subst. apply setAt_ContainsRune in E.
    unfold symbolChars. cbn [containsAny]. rewrite E. reflexivity.
Qed.

(** How a password that [generateWithRetries] returns came about: it is the
    last attempt, which either met the requirements or was patched. *)
Lemma generateWithRetries_Ok length_ options retryCount r pw r' :
  generateWithRetries length_ options retryCount r = (Ok pw, r') ->
  exists password r0,
    fillPassword (Z.to_nat length_) (buildCharset options) r0
      = (Ok password, r') /\
    ((pw = string_of_list_ascii password /\
      meetsRequirements pw options = true) \/
     forceRequirements password options = Some pw).
Proof.
  funelim (generateWithRetries length_ options retryCount r).
  destruct (length_ <? MinPasswordLength)%Z; [discriminate|].
  destruct (length_ >? MaxPasswordLength)%Z; [discriminate|].
  destruct (buildCharset options =? "")%string; [discriminate|].
  destruct (fillPassword (Z.to_nat length_) (buildCharset options) r)
    as [[password|e] r1] eqn:Ef; [|discriminate].
  destruct (meetsRequirements (string_of_list_ascii password) options) eqn:Em;
    cbn [negb].
  { intros H'. inversion H'; subst. exists password, r. auto. }
  destruct (lt_dec retryCount maxRetries) as [Hlt|Hge].
  { intros H'. eapply H; eauto. constructor; exact password. }
  destruct (forceRequirements password options) as [forced|] eqn:Efr;
    [|discriminate].
  intros H'. inversion H'; subst. exists password, r. auto.
Qed.

Lemma drawn_from_of_list charset l :
  Forall (fun c => ContainsRune charset c = true) l ->
  drawn_from charset (string_of_list_ascii l).
Proof. induction 1; cbn; auto. Qed.

Lemma drawn_from_lacks charset s c :
  drawn_from charset s -> ContainsRune charset c = false ->
  ContainsRune s c = false.
Proof.
  induction s as [|x s IH]; cbn; [reflexivity|].
  intros [Hx Hs] Hc. destruct (Ascii.eqb x c) eqn:E; [|auto].
  apply Ascii.eqb_eq in E. subst. congruence.
Qed.

Lemma charset_excludes_ambiguous (options : GenerateOptions) :
  ExcludeAmbiguous options = true ->
  containsAny (buildCharset options) ambiguousChars = false.
Proof.
  destruct options as [[] [] [] [] []]; cbn [ExcludeAmbiguous]; intros H;
    try discriminate H; vm_compute; reflexivity.
Qed.

(** X19.  [Generate] checks its arguments before it draws anything: a
    length below 4 or above 128, and options without a class, are turned
    down with their own errors and the random source untouched.  On every
    other input it fails only when the random source does, and a password
    it returns has exactly the length asked for. *)
Theorem Generate_validates (length_ : Z) (options : GenerateOptions) (r : Rand) :
  ((length_ < 4)%Z -> Generate length_ options r = (Err ErrLengthTooShort, r)) /\
  ((128 < length_)%Z -> Generate length_ options r = (Err ErrLengthTooLong, r)) /\
  ((4 <= length_ <= 128)%Z ->
   UseUppercase options || UseLowercase options || UseDigits options
     || UseSymbols options = false ->
   Generate length_ options r = (Err ErrNoCharset, r)) /\
  ((4 <= length_ <= 128)%Z ->
   UseUppercase options || UseLowercase options || UseDigits options
     || UseSymbols options = true ->
   match fst (Generate length_ options r) with
   | Ok pw => String.length pw = Z.to_nat length_
   | Err e => e = ErrRandomNumber
   end).
Proof.
  unfold Generate, MinPasswordLength, MaxPasswordLength.
  split; [|split; [|split]].
  - intros Hlt. rewrite generateWithRetries_equation_1.
    unfold MinPasswordLength.
    replace (length_ <? 4)%Z with true by (symmetry; apply Z.ltb_lt; lia).
    reflexivity.
  - intros Hgt. rewrite generateWithRetries_equation_1.
    unfold MinPasswordLength, MaxPasswordLength.
    replace (length_ <? 4)%Z with false by (symmetry; apply Z.ltb_ge; lia).
    replace (length_ >? 128)%Z with true by (symmetry; apply Z.gtb_lt; lia).
    reflexivity.
  - intros Hlen Hnone. rewrite generateWithRetries_equation_1.
    unfold MinPasswordLength, MaxPasswordLength.
    replace (length_ <? 4)%Z with false by (symmetry; apply Z.ltb_ge; lia).
    replace (length_ >? 128)%Z with false
      by (symmetry; rewrite Z.gtb_ltb; apply Z.ltb_ge; lia).
    cbv zeta.
    replace (buildCharset options) with ""%string; [reflexivity|].
    destruct options as [[] [] [] [] []]; cbn in Hnone;
      try discriminate Hnone; reflexivity.
  - intros Hlen Hsome.
    destruct (generateWithRetries length_ options 0 r) as [res r'] eqn:E.
    apply generateWithRetries_sound in E. cbn [fst].
    unfold MinPasswordLength, MaxPasswordLength in E.
    destruct res as [pw|e]; [tauto|].
    apply E; [exact Hlen|]. apply buildCharset_nonempty. exact Hsome.
Qed.

(** X20.  Every character of a password that [Generate] returns is a
    character of the charset built from the options, patched positions
    included; so with [ExcludeAmbiguous] set, the password holds none of
    the characters 0, O, 1, l and I. *)
Theorem Generate_drawn_from_charset (length_ : Z) (options : GenerateOptions)
  (r r' : Rand) (pw : string) :
  Generate length_ options r = (Ok pw, r') ->
  drawn_from (buildCharset options) pw /\
  (ExcludeAmbiguous options = true -> containsAny pw ambiguousChars = false).
Proof.
  unfold Generate. intros H. apply generateWithRetries_Ok in H.
  destruct H as (password & r0 & Hfill & Hcase).
  apply fillPassword_drawn in Hfill.
  assert (Hdrawn : drawn_from (buildCharset options) pw).
  { destruct Hcase as [[-> _] | Hforce].
    - apply drawn_from_of_list. exact Hfill.
    - destruct (forceRequirements_drawn _ _ _ Hforce Hfill)
        as (password' & -> & Hall).
      apply drawn_from_of_list. exact Hall. }
  split; [exact Hdrawn|].
  intros Hex. apply charset_excludes_ambiguous in Hex.
  unfold ambiguousChars in *. cbn [containsAny] in *.
  repeat match type of Hex with
  | (if ContainsRune ?s ?c then true else _) = false =>
    let E := fresh "E" in
    destruct (ContainsRune s c) eqn:E; [discriminate Hex|];
    rewrite (drawn_from_lacks _ _ _ Hdrawn E)
  end.
  reflexivity.
Qed.

(** X21.  The class that is checked last is always there: when symbols are
    enabled, every password that [Generate] returns holds a symbol, be it
    drawn or patched in. *)
Theorem Generate_symbols_present (length_ : Z) (options : GenerateOptions)
  (r r' : Rand) (pw : string) :
  UseSymbols options = true ->
  Generate length_ options r = (Ok pw, r') ->
  containsAny pw symbolChars = true.
Proof.
  unfold Generate. intros Hs H. apply generateWithRetries_Ok in H.
  destruct H as (password & r0 & _ & [[_ Hmeets] | Hforce]).
  - unfold meetsRequirements in Hmeets. rewrite Hs in Hmeets.
    destruct (UseUppercase options &&
              negb (containsAny pw uppercaseCharsAmbiguous));
      [discriminate|].
    destruct (UseLowercase options &&
              negb (containsAny pw lowercaseCharsAmbiguous));
      [discriminate|].
    destruct (UseDigits options && negb (containsAny pw digitCharsAmbiguous));
      [discriminate|].
    cbn [andb] in Hmeets.
    destruct (containsAny pw symbolChars); [reflexivity | discriminate].
  - eapply forceRequirements_symbols; eauto.
Qed.

(** ** Patterns in passwords *)

Lemma get_Some_lt (s : string) (i : nat) (c : ascii) :
  String.get i s = Some c -> i < String.length s.
Proof.
  revert i. induction s as [|x s IH]; intros i; cbn; [discriminate|].
  destruct i as [|i]; [lia|]. intros H. apply IH in H. lia.
Qed.

Lemma triple_at_length s i a b c :
  triple_at s i a b c -> 3 <= String.length s.
Proof. intros (_ & _ & H). apply get_Some_lt in H. lia. Qed.

Lemma triple_at_cons x s i a b c :
  triple_at (String x s) (S i) a b c <-> triple_at s i a b c.
Proof. unfold triple_at. cbn [String.get]. tauto. Qed.

Lemma repeatedFrom_iff (s : string) :
  repeatedFrom s = true <->
  exists i a b c,
    triple_at s i a b c /\ Ascii.eqb a b && Ascii.eqb b c = true.
Proof.
  induction s as [|x rest IH].
  - cbn. split; [discriminate|].
    intros (i & a & b & c & (H & _) & _). destruct i; discriminate H.
  - cbn [repeatedFrom].
    destruct rest as [|y [|z t]].
    + split; [discriminate|].
      intros (i & a & b & c & H & _). apply triple_at_length in H.
      cbn in H. lia.
    + split; [discriminate|].
      intros (i & a & b & c & H & _). apply triple_at_length in H.
      cbn in H. lia.
    + destruct (Ascii.eqb x y && Ascii.eqb y z) eqn:E.
      * split; [|reflexivity]. intros _. exists 0, x, y, z.
        split; [repeat split | exact E].
      * rewrite IH. split.
        -- intros (i & a & b & c & H & Ht). exists (S i), a, b, c.
           split; [apply triple_at_cons; exact H | exact Ht].
        -- intros (i & a & b & c & H & Ht). destruct i as [|i].
           ++ destruct H as (Ha & Hb & Hc). cbn in Ha, Hb, Hc.
              inversion Ha; inversion Hb; inversion Hc; subst. congruence.
           ++ exists i, a, b, c. split; [|exact Ht].
              apply triple_at_cons in H. exact H.
Qed.

Lemma sequentialFrom_iff (s : string) :
  sequentialFrom s = true <->
  exists i a b c,
    triple_at s i a b c /\ ascending a b c || descending a b c = true.
Proof.
  induction s as [|x rest IH].
  - cbn. split; [discriminate|].
    intros (i & a & b & c & (H & _) & _). destruct i; discriminate H.
  - cbn [sequentialFrom].
    destruct rest as [|y [|z t]].
    + split; [discriminate|].
      intros (i & a & b & c & H & _). apply triple_at_length in H.
      cbn in H. lia.
    + split; [discriminate|].
      intros (i & a & b & c & H & _). apply triple_at_length in H.
      cbn in H. lia.
    + destruct (ascending x y z || descending x y z) eqn:E.
      * split.
        -- intros _. exists 0, x, y, z. split; [repeat split | exact E].
        -- intros _. apply orb_true_iff in E. destruct E as [E | E];
             rewrite E; [|destruct (ascending x y z)]; reflexivity.
      * apply orb_false_iff in E. destruct E as [E1 E2].
        rewrite E1, E2, IH. split.
        -- intros (i & a & b & c & H & Ht). exists (S i), a, b, c.
           split; [apply triple_at_cons; exact H | exact Ht].
        -- intros (i & a & b & c & H & Ht). destruct i as [|i].
           ++ destruct H as (Ha & Hb & Hc). cbn in Ha, Hb, Hc.
              inversion Ha; inversion Hb; inversion Hc; subst.
              rewrite E1, E2 in Ht. discriminate Ht.
           ++ exists i, a, b, c. split; [|exact Ht].
              apply triple_at_cons in H. exact H.
Qed.

Lemma short_has_no_triple (s : string) :
  (String.length s <? 3) = true ->
  ~ exists i a b c, triple_at s i a b c.
Proof.
  intros Hs (i & a & b & c & H). apply triple_at_length in H.
  apply Nat.ltb_lt in Hs. lia.
Qed.

(** X22.  [hasRepeatedChars] is true exactly when the password holds the
    same byte three times in a row; in particular it is false on every
    password shorter than three bytes. *)
Theorem hasRepeatedChars_iff (password : string) :
  hasRepeatedChars password = true <->
  exists i a, triple_at password i a a a.
Proof.
  unfold hasRepeatedChars.
  destruct (String.length password <? 3) eqn:El.
  - split; [discriminate|]. intros (i & a & H).
    exfalso. apply (short_has_no_triple _ El). eauto.
  - rewrite repeatedFrom_iff. split.
    + intros (i & a & b & c & H & Ht). apply andb_prop in Ht.
      destruct Ht as [Hab Hbc]. apply Ascii.eqb_eq in Hab, Hbc. subst.
      eauto.
    + intros (i & a & H). exists i, a, a, a. split; [exact H|].
      rewrite Ascii.eqb_refl. reflexivity.
Qed.

(** X23.  [hasSequentialChars] is true exactly when three bytes in a row
    each exceed the one before by one, or each fall short of it by one, the
    byte arithmetic wrapping around at 256; in particular it is false on
    every password shorter than three bytes. *)
Theorem hasSequentialChars_iff (password : string) :
  hasSequentialChars password = true <->
  exists i a b c,
    triple_at password i a b c /\
    ((N_of_ascii b = (N_of_ascii a + 1) mod 256 /\
      N_of_ascii c = (N_of_ascii b + 1) mod 256) \/
     (N_of_ascii b = (N_of_ascii a + 255) mod 256 /\
      N_of_ascii c = (N_of_ascii b + 255) mod 256))%N.
Proof.
  unfold hasSequentialChars.
  destruct (String.length password <? 3) eqn:El.
  - split; [discriminate|]. intros (i & a & b & c & H & _).
    exfalso. apply (short_has_no_triple _ El). eauto.
  - rewrite sequentialFrom_iff.
    split; intros (i & a & b & c & H & Ht); exists i, a, b, c;
      (split; [exact H|]).
    + apply orb_true_iff in Ht. unfold ascending, descending, byte_succ,
        byte_pred in Ht.
      destruct Ht as [Ht | Ht]; apply andb_prop in Ht; destruct Ht as [H1 H2];
        apply N.eqb_eq in H1, H2; [left | right]; split; congruence.
    + apply orb_true_iff. unfold ascending, descending, byte_succ, byte_pred.
      destruct Ht as [[H1 H2] | [H1 H2]]; [left | right];
        apply andb_true_intro; split; apply N.eqb_eq; congruence.
Qed.

(** ** Listings after the operations *)

Section Listings.

Variable gcm_Seal : bytes -> bytes -> bytes -> bytes -> bytes.
Variable json_Marshal : EntryData -> option bytes.

(** X25.  A created entry shows in the listing: after a successful
    [CreateEntry], [ListEntries] returns the entries it returned before and
    one more, which carries the id, name, category and timestamps that
    [CreateEntry] left with the caller, and no payload. *)
Theorem ListEntries_after_CreateEntry (e : Entry) (key : slice) (w : World)
  (e' : Entry) (w' : World) :
  CreateEntry gcm_Seal json_Marshal (Some e) key w = (None, Some e', w') ->
  exists l l',
    ListEntries w = Ok l /\ ListEntries w' = Ok l' /\
    Permutation l' (listed e' :: l) /\
    length l' = S (length l).
Proof.
  intros Hcreate. unfold CreateEntry, run_on in Hcreate.
  destruct (createEntry gcm_Seal json_Marshal key (e, w))
    as [[[]|err] [e1 w1]] eqn:E; inversion Hcreate; subst e1 w1.
  clear Hcreate. apply createEntry_stored in E. cbv zeta in E.
  destruct E as (dataJSON & c1 & c2 & r1 & _ & _ & _ & _ & _ &
                 He' & _ & _ & Hrows).
  unfold ListEntries. eexists _, _. split; [reflexivity|].
  split; [reflexivity|].
  assert (Hperm : Permutation (map scan_listed (order_by_name (w_rows w')))
                    (listed e' :: map scan_listed (order_by_name (w_rows w)))).
  { rewrite Hrows.
    rewrite (Permutation_map scan_listed (order_by_name_Permutation _)).
    rewrite (Permutation_map scan_listed
               (order_by_name_Permutation (w_rows w))).
    rewrite map_app. cbn [map].
    rewrite <- Permutation_cons_append.
    apply Permutation_cons; [|reflexivity].
    rewrite He'. reflexivity. }
  split; [exact Hperm|].
  apply Permutation_length in Hperm. exact Hperm.
Qed.

End Listings.

Lemma filter_map_scan (f : Entry -> bool) (rows : list Row) :
  filter f (map scan_listed rows)
    = map scan_listed (filter (fun r => f (scan_listed r)) rows).
Proof.
  induction rows as [|r rows IH]; [reflexivity|].
  cbn [map filter]. destruct (f (scan_listed r)); cbn [map]; rewrite IH;
    reflexivity.
Qed.

(** X26.  A deleted entry leaves the listing: after [DeleteEntry] of a
    non-empty id, whether it succeeded or found nothing, [ListEntries]
    returns what it returned before without the entries of that id, the
    others in the same order. *)
Theorem ListEntries_after_DeleteEntry (id : string) (w : World) :
  id <> "" ->
  exists l,
    ListEntries w = Ok l /\
    ListEntries (snd (DeleteEntry id w))
      = Ok (filter (fun e => negb (ID e =? id)%string) l).
Proof.
  intros Hid. apply String.eqb_neq in Hid.
  unfold ListEntries. eexists. split; [reflexivity|].
  unfold DeleteEntry, sql_delete. rewrite Hid.
  assert (Hrows : w_rows (snd (if length (filter (hasID id) (w_rows w)) =? 0
     then (Some (ErrNotFound id),
           set_rows w (filter (fun r => negb (hasID id r)) (w_rows w)))
     else (None, set_rows w (filter (fun r => negb (hasID id r)) (w_rows w)))))
     = filter (fun r => negb (hasID id r)) (w_rows w)).
  { destruct (length (filter (hasID id) (w_rows w)) =? 0); reflexivity. }
  rewrite Hrows, order_by_name_filter, filter_map_scan.
  reflexivity.
Qed.

Lemma sorted_by_name_unique (l1 : list Row) :
  forall l2,
    StronglySorted row_name_le l1 -> StronglySorted row_name_le l2 ->
    Permutation l1 l2 -> NoDup (map r_name l1) -> l1 = l2.
Proof.
  induction l1 as [|a l1 IH]; intros l2 Hs1 Hs2 Hp Hnd.
  - apply Permutation_nil in Hp. symmetry. exact Hp.
  - destruct l2 as [|b l2].
    { apply Permutation_sym, Permutation_nil in Hp. discriminate Hp. }
    inversion Hs1 as [|? ? Hs1' Hall1]; subst.
    inversion Hs2 as [|? ? Hs2' Hall2]; subst.
    cbn [map] in Hnd. inversion Hnd as [|? ? Hnotin Hnd']; subst.
    assert (Hab : a = b).
    { assert (Ha : In a (b :: l2))
        by (apply (Permutation_in _ Hp); left; reflexivity).
      assert (Hb : In b (a :: l1))
        by (apply (Permutation_in _ (Permutation_sym Hp)); left; reflexivity).
      destruct Ha as [Ha | Ha]; [symmetry; exact Ha|].
      destruct Hb as [Hb | Hb]; [exact Hb|].
      exfalso. apply Hnotin.
      rewrite Forall_forall in Hall1, Hall2.
      assert (Hn : r_name a = r_name b).
      { apply String.leb_antisym; [apply Hall1 | apply Hall2]; assumption. }
      rewrite Hn. apply in_map. exact Hb. }
    subst b. f_equal. apply IH; try assumption.
    apply Permutation_cons_inv in Hp. exact Hp.
Qed.

Lemma Permutation_filter_rows (f : Row -> bool) (l1 l2 : list Row) :
  Permutation l1 l2 -> Permutation (filter f l1) (filter f l2).
Proof.
  induction 1 as [|x l l' _ IH|x y l|l l' l'' _ IH1 _ IH2]; cbn [filter].
  - constructor.
  - destruct (f x); [constructor|]; exact IH.
  - destruct (f x), (f y); try reflexivity. constructor.
  - etransitivity; eassumption.
Qed.

Lemma NoDup_names_filter (f : Row -> bool) (l : list Row) :
  NoDup (map r_name l) -> NoDup (map r_name (filter f l)).
Proof.
  induction l as [|r l IH]; cbn [map filter]; intros H; [exact H|].
  inversion H as [|? ? Hnotin Hnd]; subst.
  destruct (f r); [|apply IH; exact Hnd].
  cbn [map]. constructor; [|apply IH; exact Hnd].
  intros Hin. apply Hnotin. apply in_map_iff in Hin.
  destruct Hin as (x & Hx & Hin). apply filter_In in Hin.
  apply in_map_iff. exists x. split; [exact Hx | apply Hin].
Qed.

Lemma order_by_name_canonical (l1 l2 : list Row) :
  NoDup (map r_name l1) -> Permutation l1 l2 ->
  order_by_name l1 = order_by_name l2.
Proof.
  intros Hnd Hp. apply sorted_by_name_unique.
  - apply order_by_name_sorted.
  - apply order_by_name_sorted.
  - rewrite (order_by_name_Permutation l1), (order_by_name_Permutation l2).
    exact Hp.
  - eapply Permutation_NoDup; [|exact Hnd].
    apply Permutation_map, Permutation_sym, order_by_name_Permutation.
Qed.

(** X27.  The listings do not depend on the order in which the records were
    stored: on two tables that hold the same records with distinct names,
    [ListEntries] returns the same list, and so does
    [ListEntriesByCategory] for every category. *)
Theorem ListEntries_order_independent (w1 w2 : World) :
  NoDup (map r_name (w_rows w1)) ->
  Permutation (w_rows w1) (w_rows w2) ->
  ListEntries w1 = ListEntries w2 /\
  forall category,
    ListEntriesByCategory category w1 = ListEntriesByCategory category w2.
Proof.
  intros Hnd Hp. unfold ListEntries, ListEntriesByCategory. split.
  - rewrite (order_by_name_canonical _ _ Hnd Hp). reflexivity.
  - intros category.
    rewrite (order_by_name_canonical
               (filter (fun r => (r_category r =? category)%string) (w_rows w1))
               (filter (fun r => (r_category r =? category)%string) (w_rows w2))).
    + reflexivity.
    + apply NoDup_names_filter. exact Hnd.
    + apply Permutation_filter_rows. exact Hp.
Qed.

(** ** The generator with few classes *)

Lemma containsAny_iff (s cls : string) :
  containsAny s cls = true <->
  exists c, ContainsRune s c = true /\ ContainsRune cls c = true.
Proof.
  induction cls as [|a cls IH]; cbn [containsAny ContainsRune].
  - split; [discriminate | intros (c & _ & H); discriminate H].
  - destruct (ContainsRune s a) eqn:E.
    + split; [|reflexivity]. intros _. exists a. split; [exact E|].
      rewrite Ascii.eqb_refl. reflexivity.
    + rewrite IH. split; intros (c & H1 & H2); exists c; (split; [exact H1|]).
      * destruct (Ascii.eqb a c); [reflexivity | exact H2].
      * destruct (Ascii.eqb a c) eqn:Eq; [|exact H2].
        apply Ascii.eqb_eq in Eq. subst. congruence.
Qed.

Lemma ContainsRune_list (l : list ascii) (c : ascii) :
  ContainsRune (string_of_list_ascii l) c = true <-> In c l.
Proof.
  induction l as [|x l IH]; cbn [string_of_list_ascii ContainsRune In].
  - split; [discriminate | intros []].
  - destruct (Ascii.eqb x c) eqn:E.
    + apply Ascii.eqb_eq in E. split; [left; exact E | reflexivity].
    + apply Ascii.eqb_neq in E. rewrite IH. split; [right; assumption|].
      intros [H | H]; [contradiction | exact H].
Qed.

Lemma has_class_iff (l : list ascii) (cls : string) :
  containsAny (string_of_list_ascii l) cls = true <->
  exists c, In c l /\ ContainsRune cls c = true.
Proof.
  rewrite containsAny_iff.
  split; intros (c & H1 & H2); exists c; (split; [|exact H2]);
    apply ContainsRune_list; exact H1.
Qed.

Lemma lacks_class (l : list ascii) (cls : string) (c : ascii) :
  containsAny (string_of_list_ascii l) cls = false -> In c l ->
  ContainsRune cls c = false.
Proof.
  intros H Hin. destruct (ContainsRune cls c) eqn:E; [|reflexivity].
  assert (containsAny (string_of_list_ascii l) cls = true)
    by (apply has_class_iff; eauto).
  congruence.
Qed.

Lemma ContainsRune_app (s1 s2 : string) (c : ascii) :
  ContainsRune (s1 ++ s2) c = ContainsRune s1 c || ContainsRune s2 c.
Proof.
  induction s1 as [|x s1 IH]; cbn [String.append ContainsRune orb];
    [reflexivity|].
  destruct (Ascii.eqb x c); [reflexivity | exact IH].
Qed.

Lemma forceClass_disabled cls rep bump st :
  forceClass false cls rep bump st = Some st.
Proof. destruct st. reflexivity. Qed.

(** One enabled class that is there: the block changes nothing. *)
Lemma forceClass_present cls rep bump password idx :
  containsAny (string_of_list_ascii password) cls = true ->
  forceClass true cls rep bump (password, idx) = Some (password, idx).
Proof. intros H. unfold forceClass. rewrite H. reflexivity. Qed.

(** One enabled class that is missing: its representative is written. *)
Lemma forceClass_absent cls rep bump password idx st :
  containsAny (string_of_list_ascii password) cls = false ->
  forceClass true cls rep bump (password, idx) = Some st ->
  exists c password',
    byteAt rep 0 = Some c /\ setAt password idx c = Some password' /\
    st = (password', if bump then S idx else idx).
Proof.
  intros H. unfold forceClass. rewrite H. cbn [andb negb].
  destruct (byteAt rep 0) as [c|]; [|discriminate].
  destruct (setAt password idx c) as [password'|] eqn:Es; [|discriminate].
  intros E. inversion E. exists c, password'.
  split; [reflexivity|]. split; [exact Es | reflexivity].
Qed.

(** Two enabled classes in a row, on a password of two characters or more
    each of which is of one of the two: both are there afterwards. *)
Lemma force_two (A B repA repB : string) (bumpB : bool)
  (password : list ascii) (st1 st2 : list ascii * nat) :
  2 <= length password ->
  (forall a, byteAt repA 0 = Some a -> ContainsRune A a = true) ->
  (forall b, byteAt repB 0 = Some b -> ContainsRune B b = true) ->
  Forall (fun c => ContainsRune A c = true \/ ContainsRune B c = true)
    password ->
  forceClass true A repA true (password, 0) = Some st1 ->
  forceClass true B repB bumpB st1 = Some st2 ->
  containsAny (string_of_list_ascii (fst st2)) A = true /\
  containsAny (string_of_list_ascii (fst st2)) B = true.
Proof.
  intros Hlen HrA HrB Hall H1 H2.
  destruct password as [|c0 [|c1 rest]]; cbn [length] in Hlen; try lia.
  assert (Hc1 : ContainsRune A c1 = true \/ ContainsRune B c1 = true).
  { inversion Hall as [|? ? _ Hall']. inversion Hall'. assumption. }
  destruct (containsAny (string_of_list_ascii (c0 :: c1 :: rest)) A) eqn:EA.
  - rewrite (forceClass_present _ _ _ _ _ EA) in H1. inversion H1; subst st1.
    destruct (containsAny (string_of_list_ascii (c0 :: c1 :: rest)) B) eqn:EB.
    + rewrite (forceClass_present _ _ _ _ _ EB) in H2. inversion H2; subst st2.
      cbn [fst]. split; assumption.
    + destruct (forceClass_absent _ _ _ _ _ _ EB H2)
        as (b & password' & Hb & Hset & ->).
      cbn [setAt] in Hset. inversion Hset; subst password'. cbn [fst].
      assert (HB1 : ContainsRune B c1 = false).
      { apply (lacks_class _ _ _ EB). right. left. reflexivity. }
      split; apply has_class_iff.
      * exists c1. split; [right; left; reflexivity|].
        destruct Hc1 as [H | H]; [exact H | congruence].
      * exists b. split; [left; reflexivity | apply HrB; exact Hb].
  - destruct (forceClass_absent _ _ _ _ _ _ EA H1)
      as (a & password' & Ha & Hset & ->).
    cbn [setAt] in Hset. inversion Hset; subst password'.
    assert (HA1 : ContainsRune A c1 = false).
    { apply (lacks_class _ _ _ EA). right. left. reflexivity. }
    assert (HB : containsAny (string_of_list_ascii (a :: c1 :: rest)) B = true).
    { apply has_class_iff. exists c1. split; [right; left; reflexivity|].
      destruct Hc1 as [H | H]; [congruence | exact H]. }
    rewrite (forceClass_present _ _ _ _ _ HB) in H2. inversion H2; subst st2.
    cbn [fst]. split; [|exact HB].
    apply has_class_iff. exists a. split; [left; reflexivity|].
    apply HrA. exact Ha.
Qed.

(** One enabled class, on a password all of whose characters are of it. *)
Lemma force_one (A repA : string) (bump : bool) (password : list ascii)
  (idx : nat) (st : list ascii * nat) :
  1 <= length password ->
  Forall (fun c => ContainsRune A c = true) password ->
  forceClass true A repA bump (password, idx) = Some st ->
  containsAny (string_of_list_ascii (fst st)) A = true.
Proof.
  intros Hlen Hall H.
  assert (HA : containsAny (string_of_list_ascii password) A = true).
  { destruct password as [|c0 rest]; cbn [length] in Hlen; [lia|].
    apply has_class_iff. exists c0. split; [left; reflexivity|].
    inversion Hall. assumption. }
  rewrite (forceClass_present _ _ _ _ _ HA) in H. inversion H. exact HA.
Qed.

Lemma unambiguous_subset (c : ascii) :
  (ContainsRune uppercaseChars c = true ->
   ContainsRune uppercaseCharsAmbiguous c = true) /\
  (ContainsRune lowercaseChars c = true ->
   ContainsRune lowercaseCharsAmbiguous c = true) /\
  (ContainsRune digitChars c = true ->
   ContainsRune digitCharsAmbiguous c = true).
Proof.
  destruct c as [[] [] [] [] [] [] [] []]; vm_compute;
    repeat split; intros H; congruence.
Qed.

Lemma first_of_class (x : bool) :
  (forall a, byteAt (if x then uppercaseChars else uppercaseCharsAmbiguous) 0
             = Some a -> ContainsRune uppercaseCharsAmbiguous a = true) /\
  (forall a, byteAt (if x then lowercaseChars else lowercaseCharsAmbiguous) 0
             = Some a -> ContainsRune lowercaseCharsAmbiguous a = true) /\
  (forall a, byteAt (if x then digitChars else digitCharsAmbiguous) 0
             = Some a -> ContainsRune digitCharsAmbiguous a = true) /\
  (forall a, byteAt symbolChars 0 = Some a ->
             ContainsRune symbolChars a = true).
Proof.
  destruct x; repeat split; intros a H; vm_compute in H; inversion H;
    reflexivity.
Qed.

Lemma charset_classes (options : GenerateOptions) (c : ascii) :
  ContainsRune (buildCharset options) c = true ->
  (UseUppercase options && ContainsRune uppercaseCharsAmbiguous c)
  || (UseLowercase options && ContainsRune lowercaseCharsAmbiguous c)
  || (UseDigits options && ContainsRune digitCharsAmbiguous c)
  || (UseSymbols options && ContainsRune symbolChars c) = true.
Proof.
  destruct (unambiguous_subset c) as (Hu & Hl & Hd).
  destruct options as [u l d s x].
  unfold buildCharset.
  cbn [UseUppercase UseLowercase UseDigits UseSymbols ExcludeAmbiguous].
  cbv zeta.
  destruct u, l, d, s, x; cbn [andb orb];
    rewrite ?ContainsRune_app; cbn [ContainsRune orb];
    intros H;
    repeat match type of H with
           | (_ || _) = true =>
             apply orb_true_iff in H; destruct H as [H | H]
           end;
    try discriminate H;
    match type of H with
    | ContainsRune uppercaseChars c = true => apply Hu in H
    | ContainsRune lowercaseChars c = true => apply Hl in H
    | ContainsRune digitChars c = true => apply Hd in H
    | _ => idtac
    end;
    rewrite H; repeat (rewrite orb_true_r || (progress cbn [orb]));
    reflexivity.
Qed.

(** The characters of a password are of the enabled classes. *)
Ltac class_facts Hall :=
  eapply Forall_impl; [|exact Hall];
  let c := fresh "c" in let Hc := fresh "Hc" in
  intros c Hc; cbn beta in Hc; cbn [andb orb] in Hc;
  rewrite ?orb_false_r in Hc;
  first [ apply orb_true_iff in Hc; exact Hc | exact Hc ].

Lemma forceRequirements_meets (password : list ascii)
  (options : GenerateOptions) (forced : string) :
  enabled_classes options <= 2 ->
  2 <= length password ->
  Forall (fun c => ContainsRune (buildCharset options) c = true) password ->
  forceRequirements password options = Some forced ->
  meetsRequirements forced options = true.
Proof.
  intros Hcnt Hlen Hall H.
  assert (Hcls : Forall (fun c =>
    (UseUppercase options && ContainsRune uppercaseCharsAmbiguous c)
    || (UseLowercase options && ContainsRune lowercaseCharsAmbiguous c)
    || (UseDigits options && ContainsRune digitCharsAmbiguous c)
    || (UseSymbols options && ContainsRune symbolChars c) = true) password).
  { eapply Forall_impl; [|exact Hall]. intros c. apply charset_classes. }
  clear Hall.
  destruct options as [u l d s x].
  destruct (first_of_class x) as (Ru & Rl & Rd & Rs).
  unfold enabled_classes in Hcnt. unfold forceRequirements in H.
  unfold meetsRequirements.
  cbn [UseUppercase UseLowercase UseDigits UseSymbols ExcludeAmbiguous] in *.
  cbv zeta in H.
  destruct u, l, d, s; cbn [Nat.b2n Nat.add] in Hcnt; try lia; clear Hcnt;
    cbn [andb];
    repeat match type of H with
           | context [forceClass false ?a ?b ?c ?st] =>
             rewrite (forceClass_disabled a b c st) in H; cbv beta iota in H
           | context [forceClass true ?a ?b ?c ?st] =>
             let E := fresh "E" in
             destruct (forceClass true a b c st) as [?|] eqn:E;
             [cbv beta iota in H | discriminate H]
           end.
  all: try match type of H with
           | (let '(_, _) := ?st in _) = _ =>
             assert (Hf : forced = string_of_list_ascii (fst st))
               by (destruct st; inversion H; reflexivity);
             clear H; subst forced
           end.
  all: try (match goal with
            | E1 : forceClass true ?A ?rA true (?p0, 0) = Some ?st1,
              E2 : forceClass true ?B ?rB ?bB ?st1 = Some ?st2 |- _ =>
              let HH := fresh "HH" in
              assert (HH : containsAny (string_of_list_ascii (fst st2)) A = true
                           /\ containsAny (string_of_list_ascii (fst st2)) B = true)
                by (apply (force_two A B rA rB bB p0 st1 st2);
                    [assumption | assumption | assumption
                     | class_facts Hcls | exact E1 | exact E2]);
              destruct HH as [HA HB]; rewrite HA, HB; reflexivity
            end).
  all: try (match goal with
            | E1 : forceClass true ?A ?rA ?bA (?p0, 0) = Some ?st1 |- _ =>
              let HH := fresh "HH" in
              assert (HH : containsAny (string_of_list_ascii (fst st1)) A = true)
                by (apply (force_one A rA bA p0 0 st1);
                    [lia | class_facts Hcls | exact E1]);
              rewrite HH; reflexivity
            end).
  reflexivity.
Qed.

(** X24.  When at most two character classes are enabled, every password
    that [Generate] returns holds a character of each enabled class: the
    forced fallback cannot then overwrite the only character of a class it
    has already checked. *)
Theorem Generate_meets_requirements (length_ : Z) (options : GenerateOptions)
  (r r' : Rand) (pw : string) :
  enabled_classes options <= 2 ->
  Generate length_ options r = (Ok pw, r') ->
  meetsRequirements pw options = true.
Proof.
  unfold Generate. intros Hcnt H.
  pose proof (generateWithRetries_sound _ _ _ _ _ _ H) as [Hb Hl].
  destruct (generateWithRetries_Ok _ _ _ _ _ _ H)
    as (password & r0 & Hfill & [[_ Hm] | Hf]); [exact Hm|].
  apply (forceRequirements_meets password options pw Hcnt); [| |exact Hf].
  - pose proof (fillPassword_spec _ _ _ _ _ Hfill) as Hlen. cbn in Hlen.
    unfold MinPasswordLength in Hb. lia.
  - exact (fillPassword_drawn _ _ _ _ _ Hfill).
Qed.

(** ** The further properties at work *)

Lemma known_Unmarshal_github (b : bytes) :
  plain_Marshal (entryData github) = Some b ->
  known_Unmarshal [entryData github] b = Some (entryData github).
Proof.
  intros H. unfold known_Unmarshal. cbn [find]. rewrite H.
  rewrite bytes_eqb_refl. reflexivity.
Qed.

Lemma GetEntry_after_CreateEntry_witness :
  let unmarshal := known_Unmarshal [entryData github] in
  let out := CreateEntry tag_Seal plain_Marshal (Some github) (Some key32) world0 in
  let e' := set_Category
              (set_UpdatedAt (set_CreatedAt github 10500000000%Z) 10500000000%Z)
              "general" in
  out = (None, Some e', world1) /\ ID e' <> "" /\
  GetEntry tag_Open unmarshal (ID e') (Some key32) world1 = Ok e' /\
  GetEntryByName tag_Open unmarshal (Name github) (Some key32) world1 = Ok e'.
Proof.
  intros unmarshal out e'.
  assert (Hout : out = (None, Some e', world1)) by (vm_compute; reflexivity).
  assert (Hid : ID e' <> "") by discriminate.
  split; [exact Hout|]. split; [exact Hid|].
  exact (GetEntry_after_CreateEntry tag_Seal tag_Open plain_Marshal unmarshal
           tag_Overhead tag_Open_Seal github (Some key32) world0 e' world1
           known_Unmarshal_github Hout Hid).
Defined.

Lemma GetEntry_after_UpdateEntry_witness :
  let unmarshal := known_Unmarshal [entryData github] in
  let out := UpdateEntry tag_Seal plain_Marshal (Some github) (Some key32) world1 in
  fst (fst out) = None /\
  exists old,
    find (hasID (ID github)) (w_rows world1) = Some old /\
    GetEntry tag_Open unmarshal (ID github) (Some key32) (snd out) =
      Ok {| ID := ID github; Name := Name github;
            Category := stored_category github;
            Username := Username github; Password := Password github;
            URL := URL github; Notes := Notes github; Tags := Tags github;
            CreatedAt := r_created_at old;
            UpdatedAt :=
              CURRENT_TIMESTAMP (w_clock world1 (S (w_ticks world1))) |}.
Proof.
  intros unmarshal out. split; [vm_compute; reflexivity|].
  apply (GetEntry_after_UpdateEntry tag_Seal tag_Open plain_Marshal unmarshal
           tag_Overhead tag_Open_Seal github (Some key32) world1
           (snd (fst out)) (snd out) known_Unmarshal_github).
  vm_compute. reflexivity.
Defined.

Lemma GetEntry_not_found_iff_witness :
  let unmarshal := known_Unmarshal [entryData github] in
  GetEntry tag_Open unmarshal "other-id" (Some key32) world1
    = Err (ErrIDNotFound "other-id") /\
  GetEntry tag_Open unmarshal "my-id" (Some key32') world1
    = Err (ErrDecryptData ErrDecryptionFailed).
Proof.
  intros unmarshal. split.
  - apply (proj1 (GetEntry_not_found_iff tag_Open unmarshal "other-id"
                    (Some key32) world1)).
    split; [reflexivity|]. split; [discriminate|]. split; [reflexivity|].
    intros r Hin. vm_compute in Hin. destruct Hin as [<- | []].
    discriminate.
  - destruct (find (hasID "my-id") (w_rows world1)) as [row|] eqn:E;
      [|vm_compute in E; discriminate E].
    apply (proj2 (GetEntry_not_found_iff tag_Open unmarshal "my-id"
                    (Some key32') world1) row);
      try discriminate; try reflexivity; try exact E;
      vm_compute in E; inversion E; subst row.
    + vm_compute. lia.
    + eexists _, key32'. split; [reflexivity|]. split; [reflexivity|].
      vm_compute. reflexivity.
Defined.

Lemma DeleteEntry_removes_witness :
  let unmarshal := known_Unmarshal [entryData github] in
  "my-id" <> "" /\
  (exists r, In r (w_rows world1) /\ r_id r = "my-id") /\
  fst (DeleteEntry "my-id" world1) = None /\
  GetEntry tag_Open unmarshal "my-id" (Some key32)
    (snd (DeleteEntry "my-id" world1)) = Err (ErrIDNotFound "my-id").
Proof.
  intros unmarshal.
  assert (Hid : "my-id" <> "") by discriminate.
  assert (Hex : exists r, In r (w_rows world1) /\ r_id r = "my-id").
  { destruct (find (hasID "my-id") (w_rows world1)) as [row|] eqn:E;
      [|vm_compute in E; discriminate E].
    exists row. apply find_hasID_id. exact E. }
  split; [exact Hid|]. split; [exact Hex|].
  destruct (proj2 (DeleteEntry_removes tag_Open unmarshal "my-id"
                     (Some key32) world1 Hid) Hex) as (H1 & _ & H3 & _).
  split; [exact H1 | apply H3; reflexivity].
Defined.

Lemma run_well_keyed_witness :
  well_keyed world0 /\
  well_keyed (run tag_Seal plain_Marshal
                [OpCreate (Some github) (Some key32);
                 OpUpdate (Some github) (Some key32); OpDelete "my-id"]
                world0).
Proof.
  assert (H : well_keyed world0) by (split; constructor).
  split; [exact H|]. apply (run_well_keyed tag_Seal plain_Marshal). exact H.
Defined.

Lemma CountEntries_steps_witness :
  NoDup (map r_id (w_rows world1)) /\
  fst (DeleteEntry "my-id" world1) = None /\
  S (CountEntries (snd (DeleteEntry "my-id" world1))) = CountEntries world1.
Proof.
  assert (Hnd : NoDup (map r_id (w_rows world1))).
  { vm_compute. constructor; [intros []|constructor]. }
  assert (Hdel : fst (DeleteEntry "my-id" world1) = None)
    by (vm_compute; reflexivity).
  split; [exact Hnd|]. split; [exact Hdel|].
  exact (proj2 (proj2 (CountEntries_steps tag_Seal plain_Marshal None None
                         "my-id" world1)) Hnd Hdel).
Defined.

Lemma create_ready_github : create_ready plain_Marshal (Some key32) github world0.
Proof.
  unfold create_ready. repeat split; try discriminate; try reflexivity.
  vm_compute. lia.
Qed.

Lemma CreateEntry_succeeds_iff_witness :
  create_ready plain_Marshal (Some key32) github world0 /\
  ~ In (assigned_id github world0) (map r_id (w_rows world0)) /\
  ~ In (Name github) (map r_name (w_rows world0)) /\
  fst (fst (CreateEntry tag_Seal plain_Marshal (Some github) (Some key32) world0))
    = None.
Proof.
  split; [exact create_ready_github|].
  split; [intros []|]. split; [intros []|].
  apply (proj1 (CreateEntry_succeeds_iff tag_Seal plain_Marshal github
                  (Some key32) world0 create_ready_github)).
  split; intros [].
Defined.

Lemma update_ready_github : update_ready plain_Marshal (Some key32) github world1.
Proof.
  unfold update_ready. repeat split; try discriminate; try reflexivity;
    try (vm_compute; lia).
Qed.

Lemma UpdateEntry_succeeds_iff_witness :
  update_ready plain_Marshal (Some key32) github world1 /\
  fst (fst (UpdateEntry tag_Seal plain_Marshal (Some github) (Some key32) world1))
    = None /\
  fst (fst (UpdateEntry tag_Seal plain_Marshal (Some github) (Some key32) world0))
    = Some (ErrNotFound (ID github)).
Proof.
  split; [exact update_ready_github|]. split.
  - apply (proj1 (UpdateEntry_succeeds_iff tag_Seal plain_Marshal github
                    (Some key32) world1 update_ready_github)).
    split.
    + destruct (find (hasID "my-id") (w_rows world1)) as [row|] eqn:E;
        [|vm_compute in E; discriminate E].
      exists row. apply find_hasID_id. exact E.
    + intros (r' & Hin & Hne & _). vm_compute in Hin.
      destruct Hin as [<- | []]. apply Hne. reflexivity.
  - assert (Hready0 : update_ready plain_Marshal (Some key32) github world0).
    { unfold update_ready. repeat split; try discriminate; try reflexivity;
        try (vm_compute; lia). }
    apply (proj1 (proj2 (UpdateEntry_succeeds_iff tag_Seal plain_Marshal github
                           (Some key32) world0 Hready0))).
    intros (r & [] & _).
Defined.

Lemma GetMetadata_after_SetMetadata_witness :
  MetadataKeySalt <> "" /\
  GetMetadata MetadataKeySalt
    (snd (SetMetadata MetadataKeySalt "c2FsdA=="
            [(MetadataKeySalt, "b2xk"); (MetadataKeyArgon2Params, "{}")]))
    = Ok "c2FsdA==" /\
  GetMetadata MetadataKeyArgon2Params
    (snd (SetMetadata MetadataKeySalt "c2FsdA=="
            [(MetadataKeySalt, "b2xk"); (MetadataKeyArgon2Params, "{}")]))
    = Ok "{}".
Proof.
  assert (Hkey : MetadataKeySalt <> "") by discriminate.
  split; [exact Hkey|].
  destruct (GetMetadata_after_SetMetadata MetadataKeySalt "c2FsdA=="
              [(MetadataKeySalt, "b2xk"); (MetadataKeyArgon2Params, "{}")]
              Hkey) as (_ & Hget & Hother & _).
  split; [exact Hget|].
  rewrite (Hother MetadataKeyArgon2Params); [reflexivity | discriminate].
Defined.

Lemma DeleteMetadata_removes_witness :
  MetadataKeySalt <> "" /\
  GetMetadata MetadataKeySalt [(MetadataKeySalt, "b2xk")] = Ok "b2xk" /\
  fst (DeleteMetadata MetadataKeySalt [(MetadataKeySalt, "b2xk")]) = None /\
  GetMetadata MetadataKeySalt
    (snd (DeleteMetadata MetadataKeySalt [(MetadataKeySalt, "b2xk")]))
    = Err (ErrMetaNotFound MetadataKeySalt).
Proof.
  assert (Hkey : MetadataKeySalt <> "") by discriminate.
  assert (Hget : GetMetadata MetadataKeySalt [(MetadataKeySalt, "b2xk")]
                 = Ok "b2xk") by reflexivity.
  split; [exact Hkey|]. split; [exact Hget|].
  exact (proj1 (proj2 (DeleteMetadata_removes MetadataKeySalt
                         [(MetadataKeySalt, "b2xk")] Hkey)) "b2xk" Hget).
Defined.

Lemma raw_Decode_Encode (b : bytes) : raw_Decode (raw_Encode b) = Some b.
Proof.
  unfold raw_Decode, raw_Encode. rewrite list_byte_of_string_of_list_byte.
  reflexivity.
Qed.

Lemma short_Unmarshal_Default (b : bytes) :
  short_Marshal DefaultArgon2Params = Some b ->
  short_Unmarshal b = Some DefaultArgon2Params.
Proof. intros H. inversion H. reflexivity. Qed.

Lemma GetSalt_after_SetSalt_witness :
  raw_Decode (raw_Encode salt_tape) = Some salt_tape /\ salt_tape <> [] /\
  fst (SetSalt raw_Encode (Some salt_tape) []) = None /\
  GetSalt raw_Decode (snd (SetSalt raw_Encode (Some salt_tape) []))
    = Ok salt_tape /\
  GetSalt raw_Decode [] = Err (ErrGetSalt (ErrMetaNotFound MetadataKeySalt)).
Proof.
  assert (Hne : salt_tape <> []) by discriminate.
  split; [apply raw_Decode_Encode|]. split; [exact Hne|].
  destruct (GetSalt_after_SetSalt raw_Encode raw_Decode short_Unmarshal
              salt_tape [] (raw_Decode_Encode salt_tape))
    as (_ & _ & Hset & Hnone).
  destruct (Hset Hne) as (H1 & H2 & _).
  split; [exact H1|]. split; [exact H2|]. apply Hnone. reflexivity.
Defined.

Lemma GetArgon2Params_after_SetArgon2Params_witness :
  fst (SetArgon2Params short_Marshal DefaultArgon2Params []) = None /\
  GetArgon2Params short_Unmarshal
    (snd (SetArgon2Params short_Marshal DefaultArgon2Params []))
    = Ok DefaultArgon2Params.
Proof.
  assert (Hset : fst (SetArgon2Params short_Marshal DefaultArgon2Params [])
                 = None) by reflexivity.
  split; [exact Hset|].
  exact (proj2 (proj2 (GetArgon2Params_after_SetArgon2Params short_Marshal
                         short_Unmarshal DefaultArgon2Params []
                         short_Unmarshal_Default) Hset)).
Defined.

Lemma unlock_after_setup_witness :
  let m' := snd (SetArgon2Params short_Marshal DefaultArgon2Params
                   (snd (SetSalt raw_Encode (Some salt_tape) []))) in
  GenerateSalt salt_tape = (Ok salt_tape, []) /\
  GetSalt raw_Decode m' = Ok salt_tape /\
  GetArgon2Params short_Unmarshal m' = Ok DefaultArgon2Params /\
  DeriveKey zero_IDKey "correct horse" (Some salt_tape) DefaultArgon2Params
    = Ok (repeat Byte.x00 32).
Proof.
  intros m'.
  assert (Hgen : GenerateSalt salt_tape = (Ok salt_tape, []))
    by (vm_compute; reflexivity).
  assert (Hset : fst (SetArgon2Params short_Marshal DefaultArgon2Params
                        (snd (SetSalt raw_Encode (Some salt_tape) []))) = None)
    by (vm_compute; reflexivity).
  assert (Hpw : "correct horse" <> "") by discriminate.
  split; [exact Hgen|].
  destruct (unlock_after_setup zero_IDKey raw_Encode raw_Decode short_Marshal
              short_Unmarshal salt_tape [] salt_tape DefaultArgon2Params []
              "correct horse" (raw_Decode_Encode salt_tape)
              short_Unmarshal_Default Hgen Hset Hpw) as (_ & H2 & H3 & H4).
  split; [exact H2|]. split; [exact H3|]. exact H4.
Defined.

Lemma GenerateSaltWithLength_Ok_iff_witness :
  GenerateSaltWithLength 8 salt_tape
    = (Ok (repeat Byte.x07 8), repeat Byte.x07 24) /\
  GenerateSaltWithLength 7 salt_tape = (Err ErrSaltLength, salt_tape) /\
  length salt_tape = 32.
Proof.
  split; [|split].
  - apply (proj1 (GenerateSaltWithLength_Ok_iff 8 salt_tape
                    (repeat Byte.x07 24) (repeat Byte.x07 8))).
    split; [lia|]. split; reflexivity.
  - apply (proj1 (proj2 (GenerateSaltWithLength_Ok_iff 7 salt_tape []
                           salt_tape))).
    lia.
  - apply (proj2 (proj2 (GenerateSaltWithLength_Ok_iff 32 salt_tape []
                           salt_tape))).
    vm_compute. reflexivity.
Defined.

Lemma Encrypt_layout_witness :
  let out := Encrypt tag_Seal (Some (list_byte_of_string "hello")) (Some key32)
               tape in
  exists C nonce,
    out = (Ok C, repeat Byte.x02 12) /\
    length nonce = 12 /\ tape = nonce ++ repeat Byte.x02 12 /\
    firstn 12 C = nonce /\ length C = 12 + 5 + 16.
Proof.
  intros out.
  destruct out as [[C | err] r'] eqn:E; [|vm_compute in E; discriminate E].
  assert (Hr : r' = repeat Byte.x02 12).
  { vm_compute in E. inversion E. reflexivity. }
  subst r'.
  destruct (Encrypt_layout tag_Seal (Some (list_byte_of_string "hello"))
              (Some key32) tape (repeat Byte.x02 12) C tag_Overhead E)
    as (nonce & H1 & H2 & H3 & H4 & _).
  exists C, nonce. split; [reflexivity|]. split; [exact H1|].
  split; [exact H2|]. split; [exact H3 | exact H4].
Defined.

Lemma Decrypt_Ok_iff_witness :
  let ct := repeat Byte.x01 12 ++ list_byte_of_string "hello"
              ++ repeat Byte.x2a 16 in
  length key32 = 32 /\ 28 <= length ct /\
  Decrypt tag_Open (Some ct) (Some key32) = Ok (list_byte_of_string "hello").
Proof.
  intros ct. split; [reflexivity|]. split; [vm_compute; lia|].
  apply (proj2 (Decrypt_Ok_iff tag_Open (Some ct) (Some key32)
                  (list_byte_of_string "hello"))).
  exists ct, key32. split; [reflexivity|]. split; [reflexivity|].
  split; [reflexivity|]. split; [vm_compute; lia|].
  vm_compute. reflexivity.
Defined.

Lemma Generate_validates_witness :
  Generate 3 all_classes A0_tape = (Err ErrLengthTooShort, A0_tape) /\
  Generate 129 all_classes A0_tape = (Err ErrLengthTooLong, A0_tape) /\
  match fst (Generate 6 safe_symbols count_tape) with
  | Ok pw => String.length pw = 6
  | Err e => e = ErrRandomNumber
  end.
Proof.
  split; [|split].
  - apply (proj1 (Generate_validates 3 all_classes A0_tape)). lia.
  - apply (proj1 (proj2 (Generate_validates 129 all_classes A0_tape))). lia.
  - apply (proj2 (proj2 (proj2
             (Generate_validates 6 safe_symbols count_tape))));
      [lia | reflexivity].
Defined.

Lemma Generate_drawn_from_charset_witness :
  exists pw r',
    Generate 6 safe_symbols count_tape = (Ok pw, r') /\
    drawn_from (buildCharset safe_symbols) pw /\
    containsAny pw ambiguousChars = false.
Proof.
  destruct (Generate 6 safe_symbols count_tape) as [[pw | err] r'] eqn:E;
    [|vm_compute in E; discriminate E].
  exists pw, r'. split; [reflexivity|].
  destruct (Generate_drawn_from_charset 6 safe_symbols count_tape r' pw E)
    as [H1 H2].
  split; [exact H1 | apply H2; reflexivity].
Defined.

Lemma Generate_symbols_present_witness :
  exists pw r',
    Generate 4 all_classes A0_tape = (Ok pw, r') /\
    containsAny pw symbolChars = true.
Proof.
  destruct (Generate 4 all_classes A0_tape) as [[pw | err] r'] eqn:E;
    [|vm_compute in E; discriminate E].
  exists pw, r'. split; [reflexivity|].
  exact (Generate_symbols_present 4 all_classes A0_tape r' pw eq_refl E).
Defined.

Lemma hasRepeatedChars_iff_witness :
  triple_at "pa555word" 2 "5" "5" "5" /\ hasRepeatedChars "pa555word" = true.
Proof.
  assert (H : triple_at "pa555word" 2 "5" "5" "5")
    by (repeat split; reflexivity).
  split; [exact H|].
  apply (proj2 (hasRepeatedChars_iff "pa555word")).
  exists 2, "5"%char. exact H.
Defined.

Lemma hasSequentialChars_iff_witness :
  triple_at "xcba1" 1 "c" "b" "a" /\ hasSequentialChars "xcba1" = true.
Proof.
  assert (H : triple_at "xcba1" 1 "c" "b" "a")
    by (repeat split; reflexivity).
  split; [exact H|].
  apply (proj2 (hasSequentialChars_iff "xcba1")).
  exists 1, "c"%char, "b"%char, "a"%char. split; [exact H|].
  right. split; reflexivity.
Defined.

Lemma Generate_meets_requirements_witness :
  enabled_classes safe_symbols <= 2 /\
  exists pw r',
    Generate 6 safe_symbols count_tape = (Ok pw, r') /\
    meetsRequirements pw safe_symbols = true.
Proof.
  assert (Hcnt : enabled_classes safe_symbols <= 2) by (vm_compute; lia).
  split; [exact Hcnt|].
  destruct (Generate 6 safe_symbols count_tape) as [[pw | err] r'] eqn:E;
    [|vm_compute in E; discriminate E].
  exists pw, r'. split; [reflexivity|].
  exact (Generate_meets_requirements 6 safe_symbols count_tape r' pw Hcnt E).
Defined.

Lemma ListEntries_after_CreateEntry_witness :
  let e' := set_Category
              (set_UpdatedAt (set_CreatedAt github 10500000000%Z) 10500000000%Z)
              "general" in
  CreateEntry tag_Seal plain_Marshal (Some github) (Some key32) world0
    = (None, Some e', world1) /\
  exists l l',
    ListEntries world0 = Ok l /\ ListEntries world1 = Ok l' /\
    Permutation l' (listed e' :: l) /\ length l' = S (length l).
Proof.
  intros e'.
  assert (Hout : CreateEntry tag_Seal plain_Marshal (Some github) (Some key32)
                   world0 = (None, Some e', world1))
    by (vm_compute; reflexivity).
  split; [exact Hout|].
  exact (ListEntries_after_CreateEntry tag_Seal plain_Marshal github
           (Some key32) world0 e' world1 Hout).
Defined.

Lemma ListEntries_after_DeleteEntry_witness :
  "my-id" <> "" /\
  exists l,
    ListEntries world2 = Ok l /\
    ListEntries (snd (DeleteEntry "my-id" world2))
      = Ok (filter (fun e => negb (ID e =? "my-id")%string) l).
Proof.
  assert (Hid : "my-id" <> "") by discriminate.
  split; [exact Hid|].
  exact (ListEntries_after_DeleteEntry "my-id" world2 Hid).
Defined.

Lemma ListEntries_order_independent_witness :
  NoDup (map r_name (w_rows world2)) /\
  Permutation (w_rows world2) (w_rows world2_reversed) /\
  w_rows world2 <> w_rows world2_reversed /\
  ListEntries world2 = ListEntries world2_reversed.
Proof.
  assert (Hnd : NoDup (map r_name (w_rows world2))).
  { vm_compute. constructor; [|constructor; [intros []|constructor]].
    intros [H | []]. discriminate H. }
  assert (Hp : Permutation (w_rows world2) (w_rows world2_reversed))
    by apply Permutation_rev.
  split; [exact Hnd|]. split; [exact Hp|].
  split; [vm_compute; discriminate|].
  exact (proj1 (ListEntries_order_independent world2 world2_reversed Hnd Hp)).
Defined.
